(** * fromager: the [graph] commands over the dependency graph

    A shallow embedding of [src/fromager/commands/graph.py]:
    [explain_duplicates], [why] / [find_why], [migrate_graph] and the
    Makefile export ([MakeNode.format], [MakeNode.from_graph_node],
    [to_makefile]).

    Conventions of the embedding.
    - [print] is modelled by returning the printed lines, in order, as
      values of a line type whose constructors carry the interpolated
      fields of the corresponding f-string.
    - Node objects are referenced by key: an edge stores the key of its
      [destination_node] and the graph resolves keys to nodes.
    - Python recursion over the graph is modelled with fuel; [None] means
      the fuel ran out (or an edge names a key the graph does not hold,
      which a graph built through [add_dependency] never does). *)

From Stdlib Require Import Ascii DecimalString DecimalNat Sorted.
From stdpp Require Import base option list gmap sets strings.

Open Scope string_scope.
Open Scope list_scope.

(** ** The [packaging] library, release-only fragment *)

Module Packaging.

(** [packaging.version.Version], restricted to final releases: the
    release segment as parsed.  [Version("1.0")] and [Version("1")]
    keep different segments (and print differently) but compare
    equal. *)
Definition Version : Type := list nat.

Definition all_zero (v : list nat) : bool := forallb (Nat.eqb 0) v.

(** Comparison of release segments with implicit zero padding. *)
Fixpoint version_cmp (a b : Version) : comparison :=
  match a, b with
  | [], _ => if all_zero b then Eq else Lt
  | _, [] => if all_zero a then Eq else Gt
  | x :: a', y :: b' =>
      match Nat.compare x y with
      | Eq => version_cmp a' b'
      | c => c
      end
  end.

Definition version_eqb (a b : Version) : bool :=
  match version_cmp a b with Eq => true | _ => false end.
Definition version_leb (a b : Version) : bool :=
  match version_cmp a b with Gt => false | _ => true end.
Definition version_ltb (a b : Version) : bool :=
  match version_cmp a b with Lt => true | _ => false end.

Definition nat_str (n : nat) : string :=
  NilZero.string_of_uint (Nat.to_uint n).

(** [", ".join]-style helper: [sep.join(parts)]. *)
Fixpoint join (sep : string) (parts : list string) : string :=
  match parts with
  | [] => ""
  | [p] => p
  | p :: rest => p +:+ sep +:+ join sep rest
  end.

(** [str(version)] *)
Definition version_str (v : Version) : string := join "." (nat_str <$> v).

(** Comparison operators of a version specifier clause. *)
Inductive Operator := OpEq | OpNe | OpLe | OpGe | OpLt | OpGt.

Definition operator_str (o : Operator) : string :=
  match o with
  | OpEq => "==" | OpNe => "!=" | OpLe => "<=" | OpGe => ">="
  | OpLt => "<" | OpGt => ">"
  end.

(** [SpecifierSet]: a conjunction of clauses. *)
Definition SpecifierSet : Type := list (Operator * Version).

(** [packaging.requirements.Requirement]: a name and its specifier. *)
Record Requirement := mkRequirement {
  name : string;
  specifier : SpecifierSet;
}.

Definition clause_contains (c : Operator * Version) (v : Version) : bool :=
  match c.1 with
  | OpEq => version_eqb v c.2
  | OpNe => negb (version_eqb v c.2)
  | OpLe => version_leb v c.2
  | OpGe => version_leb c.2 v
  | OpLt => version_ltb v c.2
  | OpGt => version_ltb c.2 v
  end.

Definition contains (s : SpecifierSet) (v : Version) : bool :=
  forallb (fun c => clause_contains c v) s.

(** [specifier.filter(versions)]: the versions accepted, in the order
    given. *)
Definition specifier_filter (s : SpecifierSet) (versions : list Version)
  : list Version :=
  List.filter (contains s) versions.

Definition clause_str (c : Operator * Version) : string :=
  operator_str c.1 +:+ version_str c.2.

(** [canonicalize_version] of a release: the trailing zero segments are
    dropped, the first segment is kept ([1.0.0] gives [1], [0.0] gives
    [0]). *)
Fixpoint strip_zeros (v : list nat) : list nat :=
  match v with
  | [] => []
  | x :: v' =>
      match strip_zeros v' with
      | [] => if Nat.eqb x 0 then [] else [x]
      | w => x :: w
      end
  end.

Definition canonicalize_version (v : Version) : string :=
  match v with
  | [] => ""
  | x :: v' => version_str (x :: strip_zeros v')
  end.

(** [Specifier._canonical_spec]: the operator and the canonical version,
    which [==] and [hash] of a clause go by. *)
Definition canonical_spec (c : Operator * Version) : string * string :=
  (operator_str c.1, canonicalize_version c.2).

(** The [frozenset] of clauses a [SpecifierSet] keeps: a clause equal to
    one already there is not added. *)
Fixpoint specs_from (seen : list (string * string)) (s : SpecifierSet)
  : list (Operator * Version) :=
  match s with
  | [] => []
  | c :: s' =>
      if bool_decide (canonical_spec c ∈ seen) then specs_from seen s'
      else c :: specs_from (canonical_spec c :: seen) s'
  end.

Definition specs (s : SpecifierSet) : list (Operator * Version) :=
  specs_from [] s.

Definition is_upper (c : ascii) : bool :=
  let n := nat_of_ascii c in (65 <=? n)%nat && (n <=? 90)%nat.
Definition lower (c : ascii) : ascii :=
  if is_upper c then ascii_of_nat (nat_of_ascii c + 32) else c.
Definition is_separator (c : ascii) : bool :=
  let n := nat_of_ascii c in
  (n =? 45)%nat || (n =? 95)%nat || (n =? 46)%nat.

(** [re.sub(r"[-_.]+", "-", name).lower()]; [in_run] tells whether the
    previous character was already part of a separator run. *)
Fixpoint canonicalize_go (in_run : bool) (s : string) : string :=
  match s with
  | EmptyString => EmptyString
  | String c s' =>
      if is_separator c
      then (if in_run then canonicalize_go true s'
            else String "-"%char (canonicalize_go true s'))
      else String (lower c) (canonicalize_go false s')
  end.

Definition canonicalize_name (s : string) : string := canonicalize_go false s.

End Packaging.

Export Packaging.

Global Instance Operator_eq_dec : EqDecision Operator.
Proof. solve_decision. Defined.

Global Instance Requirement_eq_dec : EqDecision Requirement.
Proof. solve_decision. Defined.

(** ** The graph model ([fromager.dependency_graph], [fromager.requirements_file]) *)

(** Modelled from the spec: [RequirementType] is declared in
    [fromager/requirements_file.py]; the spec lists its members as
    [install], [build], [build-system], [build-backend], [toplevel]. *)
Inductive RequirementType :=
  INSTALL | BUILD | BUILD_SYSTEM | BUILD_BACKEND | TOP_LEVEL.

Global Instance RequirementType_eq_dec : EqDecision RequirementType.
Proof. solve_decision. Defined.

(** Modelled from the spec: the build types, those of a dependency
    required only to execute the build, are [build], [build-system] and
    [build-backend].  The comparison [==] of the class holds between a
    member and itself, and between [build] and every build type. *)
Definition is_build_type (t : RequirementType) : bool :=
  match t with
  | BUILD | BUILD_SYSTEM | BUILD_BACKEND => true
  | INSTALL | TOP_LEVEL => false
  end.

Definition req_type_eqb (a b : RequirementType) : bool :=
  bool_decide (a = b) ||
  (bool_decide (a = BUILD) && is_build_type b) ||
  (is_build_type a && bool_decide (b = BUILD)).

Definition requirement_type_str (t : RequirementType) : string :=
  match t with
  | INSTALL => "install"
  | BUILD => "build"
  | BUILD_SYSTEM => "build-system"
  | BUILD_BACKEND => "build-backend"
  | TOP_LEVEL => "toplevel"
  end.

(** [RequirementType(value)]: lookup of an enum member by value;
    [None] stands for the [ValueError]. *)
Definition requirement_type_of_str (s : string) : option RequirementType :=
  if decide (s = "install") then Some INSTALL
  else if decide (s = "build") then Some BUILD
  else if decide (s = "build-system") then Some BUILD_SYSTEM
  else if decide (s = "build-backend") then Some BUILD_BACKEND
  else if decide (s = "toplevel") then Some TOP_LEVEL
  else None.

(** Modelled from the spec: [ROOT] is imported from
    [fromager/dependency_graph.py]; it is the key of the virtual root,
    which has no name and no version.  [migrate_graph] splits a key at
    [==] and takes an empty name to mean the root, so the root key is the
    empty string. *)
Definition ROOT : string := "".

(** An edge, as stored in [children] (destination: the requirement) and
    in [parents] (destination: the requirer). *)
Record DependencyEdge := mkEdge {
  req : Requirement;
  req_type : RequirementType;
  destination_node : string;
}.

Record DependencyNode := mkNode {
  key : string;
  canonicalized_name : option string;
  version : option Version;
  children : list DependencyEdge;
  parents : list DependencyEdge;
}.

(** The graph: key to node, with the insertion order of the keys. *)
Record DependencyGraph := mkGraph {
  nodes : gmap string DependencyNode;
  order : list string;
}.

(** [str(x)] of an optional field: [None] prints as [None]. *)
Definition opt_str {A} (f : A -> string) (x : option A) : string :=
  match x with Some a => f a | None => "None" end.

(** Modelled from the spec: the graph API lives in
    [fromager/dependency_graph.py].  A graph is created with its root
    only; [add_dependency] looks up or creates the parent node (the root
    when [parent_name] is absent), looks up or creates the child node
    keyed by the canonical requirement name and [req_version], and
    appends a new edge to the parent's [children] and to the child's
    [parents]. *)
Definition empty_graph : DependencyGraph :=
  mkGraph {[ ROOT := mkNode ROOT None None [] [] ]} [ROOT].

Definition node_key (name : string) (v : option Version) : string :=
  name +:+ "==" +:+ opt_str version_str v.

Definition lookup_or_create (g : DependencyGraph) (k : string)
    (n : option string) (v : option Version) : DependencyGraph :=
  match nodes g !! k with
  | Some _ => g
  | None => mkGraph (<[k := mkNode k n v [] []]> (nodes g)) (order g ++ [k])
  end.

Definition add_child (e : DependencyEdge) (n : DependencyNode) : DependencyNode :=
  mkNode (key n) (canonicalized_name n) (version n) (children n ++ [e]) (parents n).

Definition add_parent (e : DependencyEdge) (n : DependencyNode) : DependencyNode :=
  mkNode (key n) (canonicalized_name n) (version n) (children n) (parents n ++ [e]).

Definition add_dependency (g : DependencyGraph)
    (parent_name : option string) (parent_version : option Version)
    (rt : RequirementType) (req_version : Version) (r : Requirement)
  : DependencyGraph :=
  let parent_key :=
    match parent_name with
    | None => ROOT
    | Some n => node_key (canonicalize_name n) parent_version
    end in
  let g1 :=
    match parent_name with
    | None => g
    | Some n => lookup_or_create g parent_key (Some (canonicalize_name n)) parent_version
    end in
  let child_name := canonicalize_name (name r) in
  let child_key := node_key child_name (Some req_version) in
  let g2 := lookup_or_create g1 child_key (Some child_name) (Some req_version) in
  mkGraph
    (alter (add_parent (mkEdge r rt parent_key)) child_key
       (alter (add_child (mkEdge r rt child_key)) parent_key (nodes g2)))
    (order g2).

(** Modelled from the spec: [get_all_nodes] yields every node in
    insertion order. *)
Definition get_all_nodes (g : DependencyGraph) : list DependencyNode :=
  omap (fun k => nodes g !! k) (order g).

(** Modelled from the spec: [get_nodes_by_name] returns all nodes whose
    canonicalized name matches, across all versions; an absent name gives
    the empty list. *)
Definition get_nodes_by_name (g : DependencyGraph) (package_name : string)
  : list DependencyNode :=
  List.filter
    (fun n => bool_decide (canonicalized_name n = Some (canonicalize_name package_name)))
    (get_all_nodes g).

(** Modelled from the spec: [get_root_node] returns the sentinel. *)
Definition get_root_node (g : DependencyGraph) : option DependencyNode :=
  nodes g !! ROOT.

(** Modelled from the spec: [get_incoming_install_edges] is the subset of
    [parents] whose [req_type] is the install type. *)
Definition get_incoming_install_edges (n : DependencyNode) : list DependencyEdge :=
  List.filter (fun e => req_type_eqb (req_type e) INSTALL) (parents n).

(** ** Python helpers *)

(** [sorted(l, key=...)] as a stable insertion sort: an element is put in
    front of the first later element that is not smaller. *)
Fixpoint insert_sorted {A} (leb : A -> A -> bool) (x : A) (l : list A) : list A :=
  match l with
  | [] => [x]
  | y :: l' => if leb x y then x :: y :: l' else y :: insert_sorted leb x l'
  end.

Definition sorted {A} (leb : A -> A -> bool) (l : list A) : list A :=
  foldr (insert_sorted leb) [] l.

(** [d.setdefault(k, default)] followed by an in-place update [f] of the
    value, on an insertion-ordered dict. *)
Fixpoint setdefault_update {K V} `{EqDecision K} (k : K) (default : V)
    (f : V -> V) (d : list (K * V)) : list (K * V) :=
  match d with
  | [] => [(k, f default)]
  | (k', v) :: d' =>
      if decide (k' = k) then (k', f v) :: d'
      else (k', v) :: setdefault_update k default f d'
  end.

Fixpoint dict_get {K V} `{EqDecision K} (k : K) (d : list (K * V)) : option V :=
  match d with
  | [] => None
  | (k', v) :: d' => if decide (k' = k) then Some v else dict_get k d'
  end.

(** The same on a dict whose keys are found by the test [same]: the key
    first inserted is the one the dict keeps. *)
Fixpoint setdefault_update_by {K V} (same : K -> K -> bool) (k : K) (default : V)
    (f : V -> V) (d : list (K * V)) : list (K * V) :=
  match d with
  | [] => [(k, f default)]
  | (k', v) :: d' =>
      if same k' k then (k', f v) :: d'
      else (k', v) :: setdefault_update_by same k default f d'
  end.

(** ** Requirements as texts and as dict keys *)

(** [str(specifier)]: the clauses of the set, sorted as texts and joined
    by commas. *)
Definition specifier_str (s : SpecifierSet) : string :=
  join "," (sorted String.leb (clause_str <$> specs s)).

(** [str(req)] *)
Definition requirement_str (r : Requirement) : string :=
  name r +:+ specifier_str (specifier r).

(** Python finds a key of a dict by its hash and then by [==].
    [Requirement.__eq__] compares the canonical names and the specifier
    sets, a set being the [frozenset] of its clauses, compared by their
    canonical form.  [Requirement.__hash__] hashes the canonical name and
    [str(specifier)]; equal hashes stand for equal hashed values.  Two
    requirements are the same key when they agree on both. *)
Definition requirement_eq_key (r : Requirement) : string * gset (string * string) :=
  (canonicalize_name (name r), list_to_set (canonical_spec <$> specifier r)).

Definition requirement_hash_key (r : Requirement) : string * string :=
  (canonicalize_name (name r), specifier_str (specifier r)).

Definition requirement_key (r : Requirement)
  : (string * string) * (string * gset (string * string)) :=
  (requirement_hash_key r, requirement_eq_key r).

Definition same_requirement (r1 r2 : Requirement) : bool :=
  bool_decide (requirement_key r1 = requirement_key r2).

(** ** [explain_duplicates] *)

Inductive DupLine :=
  | DupName (dep_name : string)
      (* "\n{dep_name}" *)
  | DupVersion (v : option Version)
      (* "  {node.version}" *)
  | DupMatches (r : Requirement) (match_versions : list string)
      (* "    {req} matches {match_versions}" *)
  | DupParent (p : string)
      (* "      {p}" *)
  | DupUsable (dep_name v : string)
      (* "  * {dep_name}=={v} usable by all consumers" *)
  | DupNoSingle (dep_name : string).
      (* "  * No single version of {dep_name} meets all requirements" *)

(** [node.version] of a named node; the root, which has none, never
    appears in the install closure. *)
Definition node_version (n : DependencyNode) : Version :=
  default [] (version n).

(** The dict [parents_by_req] of one node: requirement to the set of the
    keys of the parents that declare it.  The keys are [Requirement]
    objects. *)
Definition parents_by_req (n : DependencyNode) : list (Requirement * gset string) :=
  foldl
    (fun d parent_edge =>
       setdefault_update_by same_requirement (req parent_edge) (∅ : gset string)
         (fun s => s ∪ {[ destination_node parent_edge ]}) d)
    [] (get_incoming_install_edges n).

(** The state of the loops of one package. *)
Record DupState := mkDupState {
  usable_versions : list (string * list string);
  user_counter : nat;
  printed : list DupLine;
}.

(** Body of [for req, parents in parents_by_req.items()]. *)
Definition explain_group (versions : list Version) (st : DupState)
    (group : Requirement * gset string) : DupState :=
  let '(r, parents) := group in
  let match_versions := version_str <$> specifier_filter (specifier r) versions in
  mkDupState
    (foldl
       (fun uv mv => setdefault_update mv [] (fun users => users ++ elements parents) uv)
       (usable_versions st) match_versions)
    (user_counter st + size parents)
    (printed st ++ DupMatches r match_versions :: (DupParent <$> elements parents)).

(** Body of [for node in sorted(nodes, key=lambda x: x.version)]. *)
Definition explain_node (versions : list Version) (st : DupState)
    (node : DependencyNode) : DupState :=
  foldl (explain_group versions)
    (mkDupState (usable_versions st) (user_counter st)
       (printed st ++ [DupVersion (version node)]))
    (parents_by_req node).

(** The closing [for ... else]: the first version whose users are as many
    as [user_counter]. *)
Fixpoint first_usable (uv : list (string * list string)) (user_counter : nat)
  : option string :=
  match uv with
  | [] => None
  | (v, users) :: uv' =>
      if decide (length users = user_counter) then Some v
      else first_usable uv' user_counter
  end.

Definition node_version_leb (a b : DependencyNode) : bool :=
  version_leb (node_version a) (node_version b).

(** One iteration of [for dep_name, nodes in sorted(conflicts.items())]. *)
Definition explain_package (dep_name : string) (nodes : list DependencyNode)
  : list DupLine :=
  let versions := node_version <$> nodes in
  if decide (length versions = 1) then []
  else
    let st :=
      foldl (explain_node versions) (mkDupState [] 0 [DupName dep_name])
        (sorted node_version_leb nodes) in
    printed st ++
      [match first_usable (usable_versions st) (user_counter st) with
       | Some v => DupUsable dep_name v
       | None => DupNoSingle dep_name
       end].

Definition key_leb {V} (a b : string * V) : bool :=
  bool_decide (a.1 = b.1) || String.ltb a.1 b.1.

(** [explain_duplicates], from [conflicts], the result of
    [graph.get_install_dependency_versions()]. *)
Definition explain_duplicates (conflicts : gmap string (list DependencyNode))
  : list DupLine :=
  mjoin ((fun kv => explain_package kv.1 kv.2) <$> sorted key_leb (map_to_list conflicts)).

(** *** What the report is about, stated on its own *)

(** The requirement groups of a node, read off its incoming install
    edges.  Requirements that are the same dict key form one group,
    listed under the first of them, the groups in the order of their
    first edges; a group holds the keys of the parents of all its edges,
    each key once. *)
Fixpoint first_requirements (es : list DependencyEdge) : list Requirement :=
  match es with
  | [] => []
  | e :: es' =>
      req e :: List.filter (fun r => negb (same_requirement (req e) r))
                 (first_requirements es')
  end.

Definition group_parents (r : Requirement) (es : list DependencyEdge) : gset string :=
  list_to_set
    (destination_node <$> List.filter (fun e => same_requirement r (req e)) es).

Definition groups_of_edges (es : list DependencyEdge)
  : list (Requirement * gset string) :=
  (fun r => (r, group_parents r es)) <$> first_requirements es.

Definition requirement_groups (node : DependencyNode)
  : list (Requirement * gset string) :=
  groups_of_edges (get_incoming_install_edges node).

(** The dict key of the requirement of an edge. *)
Definition edge_key (e : DependencyEdge)
  : (string * string) * (string * gset (string * string)) :=
  requirement_key (req e).

(** The consumers of a node, a consumer counted once for every
    requirement it declares: the distinct pairs of a requirement key and
    a parent key among the incoming install edges. *)
Definition pairs_of_edges (es : list DependencyEdge)
  : gset ((string * string) * (string * gset (string * string)) * string) :=
  list_to_set ((fun e => (edge_key e, destination_node e)) <$> es).

Definition consumer_pairs (node : DependencyNode)
  : gset ((string * string) * (string * gset (string * string)) * string) :=
  pairs_of_edges (get_incoming_install_edges node).

(** The requirement groups of a package, over its nodes in ascending
    version order; the acceptances: one pair of a version string and the
    parents of a group for every version of the package the group's
    specifier accepts; the total consumer count: the sum of the sizes of
    the groups; and the parents accumulated for one version string. *)
Definition all_groups (nodes : list DependencyNode) : list (Requirement * gset string) :=
  sorted node_version_leb nodes ≫= requirement_groups.

Definition matched (versions : list Version) (group : Requirement * gset string)
  : list string :=
  version_str <$> specifier_filter (specifier group.1) versions.

Definition acceptances_of (versions : list Version) (group : Requirement * gset string)
  : list (string * list string) :=
  (fun mv => (mv, elements group.2)) <$> matched versions group.

Definition acceptances (nodes : list DependencyNode) : list (string * list string) :=
  all_groups nodes ≫= acceptances_of (node_version <$> nodes).

Definition total_consumers (nodes : list DependencyNode) : nat :=
  sum_list_with (fun group => size group.2) (all_groups nodes).

Definition users_among (v : string) (acc : list (string * list string)) : list string :=
  acc ≫= (fun a => if bool_decide (a.1 = v) then a.2 else []).

Definition accepting_parents (nodes : list DependencyNode) (v : string) : list string :=
  users_among v (acceptances nodes).

(** A version string some group accepts: one with an entry in
    [usable_versions]. *)
Definition candidate (nodes : list DependencyNode) (v : string) : Prop :=
  v ∈ (acceptances nodes).*1.

(** The lines printed before the verdict. *)
Definition is_detail (l : DupLine) : Prop :=
  match l with
  | DupUsable _ _ | DupNoSingle _ => False
  | _ => True
  end.

(** [usable_versions] after a sequence of acceptances. *)
Definition apply_acceptances (uv : list (string * list string))
    (acc : list (string * list string)) : list (string * list string) :=
  foldl (fun uv a => setdefault_update a.1 [] (fun users => users ++ a.2) uv) uv acc.

(** The lines printed for one group, for one node, and for a package
    before the verdict. *)
Definition group_lines (versions : list Version) (group : Requirement * gset string)
  : list DupLine :=
  DupMatches group.1 (matched versions group) :: (DupParent <$> elements group.2).

Definition node_lines (versions : list Version) (node : DependencyNode) : list DupLine :=
  DupVersion (version node) :: (requirement_groups node ≫= group_lines versions).

Definition report_body (dep_name : string) (nodes : list DependencyNode) : list DupLine :=
  DupName dep_name ::
  (sorted node_version_leb nodes ≫= node_lines (node_version <$> nodes)).

(** The version a line announces, if it is a version line. *)
Definition version_line (l : DupLine) : option (option Version) :=
  match l with DupVersion v => Some v | _ => None end.

(** The effect of the loops over a list of groups, from [st0] to [st],
    printing [lines]. *)
Definition dup_run (versions : list Version)
    (groups : list (Requirement * gset string)) (lines : list DupLine)
    (st0 st : DupState) : Prop :=
  usable_versions st
  = apply_acceptances (usable_versions st0) (groups ≫= acceptances_of versions) /\
  user_counter st
  = user_counter st0 + sum_list_with (fun group => size group.2) groups /\
  printed st = printed st0 ++ lines.

(** ** [why] and [find_why] *)

Inductive WhyLine :=
  | WhyNode (node_key : string)
      (* "\n{node.key}" *)
  | WhyToplevel (node_key : string)
      (* " * {node.key} is a toplevel dependency" *)
  | WhyDependency (depth : Z) (rt : RequirementType) (parent_key : string)
      (r : Requirement)
      (* "{'  ' * depth} * is an {parent.req_type} dependency of
          {parent.destination_node.key} with req {parent.req}" *)
  | WhyNoMatch (name : option string) (req_type : list RequirementType).
      (* " * couldn't find any dependencies to {node.canonicalized_name}
          that matches {[str(r) for r in req_type]}" *)

(** [req_type and parent.req_type not in req_type] *)
Definition filtered_out (filter : list RequirementType) (e : DependencyEdge) : bool :=
  negb (bool_decide (filter = [])) &&
  negb (existsb (fun t => req_type_eqb t (req_type e)) filter).

(** [max_depth and (max_depth == -1 or depth <= max_depth)] *)
Definition descend (max_depth depth : Z) : bool :=
  negb (max_depth =? 0)%Z && ((max_depth =? -1)%Z || (depth <=? max_depth)%Z).

(** The [for parent in node.parents] loop and the closing [if], with the
    recursive call abstracted as [recurse] (applied to the key of
    [parent.destination_node]).  [all_skipped] and [is_toplevel] are the
    two flags of the source. *)
Fixpoint find_why_loop (recurse : string -> option (list WhyLine))
    (node : DependencyNode) (max_depth depth : Z)
    (filter : list RequirementType)
    (all_skipped is_toplevel : bool) (ps : list DependencyEdge)
  : option (list WhyLine) :=
  match ps with
  | [] =>
      Some (if all_skipped && negb is_toplevel
            then [WhyNoMatch (canonicalized_name node) filter]
            else [])
  | parent :: ps' =>
      if bool_decide (destination_node parent = ROOT) then
        rest ← find_why_loop recurse node max_depth depth filter all_skipped true ps';
        Some (WhyToplevel (key node) :: rest)
      else if filtered_out filter parent then
        find_why_loop recurse node max_depth depth filter all_skipped is_toplevel ps'
      else
        sub ← (if descend max_depth depth
               then recurse (destination_node parent)
               else Some []);
        rest ← find_why_loop recurse node max_depth depth filter false is_toplevel ps';
        Some (WhyDependency depth (req_type parent) (destination_node parent) (req parent)
                :: sub ++ rest)
  end.

Fixpoint find_why (fuel : nat) (graph : DependencyGraph) (node : DependencyNode)
    (max_depth depth : Z) (filter : list RequirementType)
  : option (list WhyLine) :=
  match fuel with
  | O => None
  | S fuel' =>
      find_why_loop
        (fun k =>
           parent_node ← nodes graph !! k;
           find_why fuel' graph parent_node max_depth (depth + 1) [])
        node max_depth depth filter true false (parents node)
  end.

(** [node.version in version] *)
Definition version_in (v : option Version) (vs : list Version) : bool :=
  match v with
  | Some v => existsb (version_eqb v) vs
  | None => false
  end.

(** The nodes the [why] command explains. *)
Definition why_nodes (graph : DependencyGraph) (package_name : string)
    (versions : list Version) : list DependencyNode :=
  let package_nodes := get_nodes_by_name graph package_name in
  if bool_decide (versions = []) then package_nodes
  else List.filter (fun node => version_in (version node) versions) package_nodes.

Fixpoint why_loop (fuel : nat) (graph : DependencyGraph) (depth : Z)
    (requirement_type : list RequirementType) (package_nodes : list DependencyNode)
  : option (list WhyLine) :=
  match package_nodes with
  | [] => Some []
  | node :: rest =>
      out ← find_why fuel graph node depth 1 requirement_type;
      out' ← why_loop fuel graph depth requirement_type rest;
      Some (WhyNode (key node) :: out ++ out')
  end.

Definition why (fuel : nat) (graph : DependencyGraph) (package_name : string)
    (versions : list Version) (depth : Z)
    (requirement_type : list RequirementType) : option (list WhyLine) :=
  why_loop fuel graph depth requirement_type (why_nodes graph package_name versions).

(** *** What the explanation shows, stated on its own *)

Definition is_root_edge (e : DependencyEdge) : bool :=
  bool_decide (destination_node e = ROOT).

(** The edges of the first hop that the filter does not drop. *)
Definition kept (filter : list RequirementType) (e : DependencyEdge) : bool :=
  is_root_edge e || negb (filtered_out filter e).

Definition with_parents (node : DependencyNode) (ps : list DependencyEdge)
  : DependencyNode :=
  mkNode (key node) (canonicalized_name node) (version node) (children node) ps.

(** The line of one incoming edge, without its ancestry. *)
Definition direct_line (node : DependencyNode) (depth : Z)
    (filter : list RequirementType) (e : DependencyEdge) : list WhyLine :=
  if is_root_edge e then [WhyToplevel (key node)]
  else if filtered_out filter e then []
  else [WhyDependency depth (req_type e) (destination_node e) (req e)].

(** The report on the direct parents alone. *)
Definition direct_report (node : DependencyNode) (depth : Z)
    (filter : list RequirementType) : list WhyLine :=
  (parents node ≫= direct_line node depth filter) ++
  (if forallb (fun e => negb (kept filter e)) (parents node)
   then [WhyNoMatch (canonicalized_name node) filter]
   else []).


(** The node itself or a node of the graph. *)
Definition within (graph : DependencyGraph) (node n : DependencyNode) : Prop :=
  n = node \/ exists k, nodes graph !! k = Some n.





(** ** [migrate_graph] *)

(** One adjacency tuple [(req_type, req_name, req_version, req)] of the
    legacy format, as the strings [json.load] returns. *)
Record LegacyTuple := mkLegacy {
  legacy_req_type : string;
  legacy_req_name : string;
  legacy_req_version : string;
  legacy_req : string;
}.

(** The parsers of [packaging] that the migration calls; [None] stands
    for the exception they raise on malformed text. *)
Record Parsers := mkParsers {
  parse_version : string -> option Version;
  parse_requirement : string -> option Requirement;
}.

Inductive MigrateError :=
  | InvalidVersion (text : string)
  | InvalidRequirementType (text : string)
  | InvalidRequirement (text : string).

Definition is_eqeq_prefix (s : string) : bool :=
  match s with
  | String a (String b _) => bool_decide (a = "="%char) && bool_decide (b = "="%char)
  | _ => false
  end.

Definition drop2 (s : string) : string :=
  match s with
  | String _ (String _ s') => s'
  | _ => ""
  end.

(** [s.partition("==")], without the separator: the text before the
    first [==] and the text after it; the whole string and the empty
    string when there is none. *)
Fixpoint partition_eqeq (s : string) : string * string :=
  match s with
  | EmptyString => ("", "")
  | String c s' =>
      if is_eqeq_prefix s then ("", drop2 s)
      else let '(h, t) := partition_eqeq s' in (String c h, t)
  end.

(** [f"{req_name}=={req_version}"] *)
Definition child_key (t : LegacyTuple) : string :=
  legacy_req_name t +:+ "==" +:+ legacy_req_version t.

Definition try {A} (e : MigrateError) (x : option A) : MigrateError + A :=
  match x with Some a => inr a | None => inl e end.

(** One iteration of the [for ... in old_graph.get(curr_key, [])] loop:
    the arguments of [add_dependency] are evaluated left to right, then
    the call is made and the child key pushed.  The worklist is kept with
    its top first. *)
Definition migrate_tuple (P : Parsers) (curr_key : string)
    (acc : DependencyGraph * list string) (t : LegacyTuple)
  : MigrateError + (DependencyGraph * list string) :=
  let '(graph, stack) := acc in
  let '(parent_name, parent_version) := partition_eqeq curr_key in
  let pname :=
    if bool_decide (parent_name = "") then None
    else Some (canonicalize_name parent_name) in
  match (if bool_decide (parent_version = "") then inr None
         else match parse_version P parent_version with
              | Some v => inr (Some v)
              | None => inl (InvalidVersion parent_version)
              end) with
  | inl e => inl e
  | inr pversion =>
    match try (InvalidRequirementType (legacy_req_type t))
            (requirement_type_of_str (legacy_req_type t)) with
    | inl e => inl e
    | inr rt =>
      match try (InvalidVersion (legacy_req_version t))
              (parse_version P (legacy_req_version t)) with
      | inl e => inl e
      | inr rv =>
        match try (InvalidRequirement (legacy_req t))
                (parse_requirement P (legacy_req t)) with
        | inl e => inl e
        | inr r =>
            inr (add_dependency graph pname pversion rt rv r, child_key t :: stack)
        end
      end
    end
  end.

Fixpoint migrate_tuples (P : Parsers) (curr_key : string)
    (acc : DependencyGraph * list string) (ts : list LegacyTuple)
  : MigrateError + (DependencyGraph * list string) :=
  match ts with
  | [] => inr acc
  | t :: ts' =>
      match migrate_tuple P curr_key acc t with
      | inl e => inl e
      | inr acc' => migrate_tuples P curr_key acc' ts'
      end
  end.

(** The state of the [while stack] loop; [processed] records, in order,
    the keys whose adjacency list the loop has walked. *)
Record MigrateState := mkMigrate {
  graph_of : DependencyGraph;
  stack : list string;
  visited : gset string;
  processed : list string;
}.

(** One iteration of [while stack]: [None] when the stack is empty. *)
Definition migrate_step (P : Parsers) (old_graph : gmap string (list LegacyTuple))
    (st : MigrateState) : option (MigrateError + MigrateState) :=
  match stack st with
  | [] => None
  | curr_key :: stack' =>
      if bool_decide (curr_key ∈ visited st) then
        Some (inr (mkMigrate (graph_of st) stack' (visited st) (processed st)))
      else
        match migrate_tuples P curr_key (graph_of st, stack')
                (default [] (old_graph !! curr_key)) with
        | inl e => Some (inl e)
        | inr (graph', stack'') =>
            Some (inr (mkMigrate graph' stack'' ({[curr_key]} ∪ visited st)
                         (processed st ++ [curr_key])))
        end
  end.

Fixpoint migrate_loop (fuel : nat) (P : Parsers)
    (old_graph : gmap string (list LegacyTuple)) (st : MigrateState)
  : option (MigrateError + MigrateState) :=
  match fuel with
  | O => None
  | S fuel' =>
      match migrate_step P old_graph st with
      | None => Some (inr st)
      | Some (inl e) => Some (inl e)
      | Some (inr st') => migrate_loop fuel' P old_graph st'
      end
  end.

Definition migrate_graph (fuel : nat) (P : Parsers)
    (old_graph : gmap string (list LegacyTuple))
  : option (MigrateError + MigrateState) :=
  migrate_loop fuel P old_graph (mkMigrate empty_graph [ROOT] ∅ []).

(** The fuel that always suffices: one iteration per key ever pushed,
    that is, the root and one per recorded tuple, and the final test. *)
Definition total_tuples (old_graph : gmap string (list LegacyTuple)) : nat :=
  sum_list_with (fun kv => length kv.2) (map_to_list old_graph).

Definition migrate_fuel (old_graph : gmap string (list LegacyTuple)) : nat :=
  total_tuples old_graph + 2.

(** Keys reachable from the root through the recorded tuples. *)
Inductive reachable (old_graph : gmap string (list LegacyTuple)) : string -> Prop :=
  | reachable_root : reachable old_graph ROOT
  | reachable_child k ts t :
      reachable old_graph k ->
      old_graph !! k = Some ts ->
      t ∈ ts ->
      reachable old_graph (child_key t).

(** What every state of the loop satisfies: the processed keys are
    pairwise distinct and are the visited ones, and every key on the
    stack or processed is reachable. *)
Definition migrate_inv (old_graph : gmap string (list LegacyTuple))
    (st : MigrateState) : Prop :=
  NoDup (processed st) /\
  (forall k, k ∈ processed st <-> k ∈ visited st) /\
  (forall k, k ∈ stack st -> reachable old_graph k) /\
  (forall k, k ∈ processed st -> reachable old_graph k).

(** Tuples of the keys not visited yet: what the loop may still push. *)
Definition pending (old_graph : gmap string (list LegacyTuple))
    (seen : gset string) : nat :=
  sum_list_with
    (fun kv => if bool_decide (kv.1 ∈ seen) then 0 else length kv.2)
    (map_to_list old_graph).

(** ** The Makefile export: [MakeNode] *)

Local Unset Elimination Schemes.
Inductive MakeNode :=
  MkMakeNode (target_name : string) (dist_name : option string)
    (dist_version : option Version) (command : string)
    (dependencies : list MakeNode).
Local Set Elimination Schemes.

Definition target_name (mn : MakeNode) : string :=
  match mn with MkMakeNode t _ _ _ _ => t end.
Definition dist_name (mn : MakeNode) : option string :=
  match mn with MkMakeNode _ n _ _ _ => n end.
Definition dist_version (mn : MakeNode) : option Version :=
  match mn with MkMakeNode _ _ v _ _ => v end.
Definition command (mn : MakeNode) : string :=
  match mn with MkMakeNode _ _ _ c _ => c end.
Definition dependencies (mn : MakeNode) : list MakeNode :=
  match mn with MkMakeNode _ _ _ _ ds => ds end.

(** One rule block of the Makefile:
    [#.PHONY: target], [target: dependency names], [command]. *)
Record Rule := mkRule {
  rule_target : string;
  rule_dependencies : list string;
  rule_command : string;
}.

Definition nl : string := String (ascii_of_nat 10) "".
Definition tab : string := String (ascii_of_nat 9) "".

(** The text of a rule block after [textwrap.dedent]. *)
Definition render_rule (r : Rule) : string :=
  nl +:+ "#.PHONY: " +:+ rule_target r +:+ nl +:+
  rule_target r +:+ ": " +:+ join " " (rule_dependencies r) +:+ nl +:+
  rule_command r +:+ nl.

(** The unique dependency names, in the order of first appearance. *)
Definition dependency_names (deps : list MakeNode) : list string :=
  foldl
    (fun names d =>
       if bool_decide (target_name d ∈ names) then names
       else names ++ [target_name d])
    [] deps.

Definition rule_of (mn : MakeNode) : Rule :=
  mkRule (target_name mn) (dependency_names (dependencies mn)) (command mn).

(** [MakeNode.format]: the rule blocks emitted, in order, and the [seen]
    set as the call leaves it (the set is shared and updated in place). *)
Fixpoint format (mn : MakeNode) (seen : gset string) : list Rule * gset string :=
  match mn with
  | MkMakeNode t _ _ _ deps =>
      if bool_decide (t ∈ seen) then ([], seen)
      else
        let '(rules, seen') :=
          (fix walk (ds : list MakeNode) (seen : gset string) :=
             match ds with
             | [] => ([], seen)
             | d :: ds' =>
                 let '(r1, seen1) := format d seen in
                 let '(r2, seen2) := walk ds' seen1 in
                 (r1 ++ r2, seen2)
             end) deps ({[t]} ∪ seen) in
        (rule_of mn :: rules, seen')
  end.

(** The same walk over a list of dependencies, as a function of its own. *)
Fixpoint format_all (ds : list MakeNode) (seen : gset string)
  : list Rule * gset string :=
  match ds with
  | [] => ([], seen)
  | d :: ds' =>
      let '(r1, seen1) := format d seen in
      let '(r2, seen2) := format_all ds' seen1 in
      (r1 ++ r2, seen2)
  end.

(** ["".join(rules)] *)
Definition render (rules : list Rule) : string :=
  foldr (fun r s => render_rule r +:+ s) "" rules.

Definition stage_name (node : DependencyNode) : string :=
  opt_str id (canonicalized_name node) +:+ "__" +:+ opt_str version_str (version node).

Definition build_command (node : DependencyNode) : string :=
  tab +:+ "fromager build $(WHEEL_SERVER_ARGS) " +:+
  opt_str id (canonicalized_name node) +:+ " " +:+
  opt_str version_str (version node) +:+ " $(SDIST_SERVER_URL)".

(** The child of one edge, converted, with the type of the edge. *)
Definition convert_child (convert : DependencyNode -> option MakeNode)
    (graph : DependencyGraph) (child_edge : DependencyEdge)
  : option (RequirementType * MakeNode) :=
  child_node ← nodes graph !! destination_node child_edge;
  child ← convert child_node;
  Some (req_type child_edge, child).

(** [child_edge.req_type == RequirementType.BUILD] *)
Definition is_build (c : RequirementType * MakeNode) : bool :=
  req_type_eqb c.1 BUILD.

(** [MakeNode.from_graph_node] *)
Fixpoint from_graph_node (fuel : nat) (graph : DependencyGraph)
    (node : DependencyNode) : option MakeNode :=
  match fuel with
  | O => None
  | S fuel' =>
      converted ← mapM (convert_child (from_graph_node fuel' graph) graph)
                    (children node);
      let build_node :=
        MkMakeNode (stage_name node +:+ "__build") None None ""
          (snd <$> List.filter is_build converted) in
      let wheel_node :=
        MkMakeNode (stage_name node +:+ "__wheel")
          (canonicalized_name node) (version node) (build_command node) [] in
      let install_node :=
        MkMakeNode (stage_name node +:+ "__install") None None ""
          (snd <$> List.filter (fun c => negb (is_build c)) converted) in
      Some (MkMakeNode (stage_name node) None None ""
              ((if bool_decide (dependencies build_node = []) then []
                else [build_node]) ++
               [wheel_node] ++
               (if bool_decide (dependencies install_node = []) then []
                else [install_node])))
  end.

(** The header [to_makefile] prints before the rules. *)
Definition makefile_header (wheel_server_url sdist_server_url : string) : string :=
  let wheel_server_args :=
    if bool_decide (wheel_server_url = "") then ""
    else "--wheel-server-url " +:+ wheel_server_url in
  nl +:+ "# Automatically generated by fromager." +:+ nl +:+ nl +:+
  "SDIST_SERVER_URL=" +:+ sdist_server_url +:+ nl +:+
  "WHEEL_SERVER_ARGS=" +:+ wheel_server_args +:+ nl.

(** The node [top] that [to_makefile] builds. *)
Definition makefile_top (fuel : nat) (graph : DependencyGraph) : option MakeNode :=
  root ← get_root_node graph;
  tops ← mapM (fun edge =>
                 child_node ← nodes graph !! destination_node edge;
                 from_graph_node fuel graph child_node)
            (children root);
  Some (MkMakeNode "all" None None "" tops).

(** [to_makefile]: the header and the rule blocks printed. *)
Definition to_makefile (fuel : nat) (graph : DependencyGraph)
    (wheel_server_url sdist_server_url : string) : option (string * list Rule) :=
  top ← makefile_top fuel graph;
  Some (makefile_header wheel_server_url sdist_server_url, (format top ∅).1).

(** *** What the export produces, stated on its own *)

(** [n] is [mn] or occurs below it. *)
Inductive subnode (n : MakeNode) : MakeNode -> Prop :=
  | subnode_here : subnode n n
  | subnode_below mn d :
      d ∈ dependencies mn -> subnode n d -> subnode n mn.

Definition is_build_edge (e : DependencyEdge) : bool :=
  is_build_type (req_type e).

(** [mn] is a conversion of the child that the edge [e] leads to. *)
Definition converts (graph : DependencyGraph) (e : DependencyEdge) (mn : MakeNode)
  : Prop :=
  exists child fuel,
    nodes graph !! destination_node e = Some child /\
    from_graph_node fuel graph child = Some mn.

(** The three stages below the target of a node: the build stage over
    the children of the build-type edges, when there are any; the wheel
    stage, with the build command and no dependencies; the install stage
    over the children of the other edges, when there are any. *)
Definition stages_of (graph : DependencyGraph) (node : DependencyNode)
    (mn : MakeNode) : Prop :=
  let build_edges := List.filter is_build_edge (children node) in
  let other_edges := List.filter (fun e => negb (is_build_edge e)) (children node) in
  exists build_deps install_deps,
    Forall2 (converts graph) build_edges build_deps /\
    Forall2 (converts graph) other_edges install_deps /\
    mn = MkMakeNode (stage_name node) None None ""
           ((if bool_decide (build_edges = []) then []
             else [MkMakeNode (stage_name node +:+ "__build") None None "" build_deps]) ++
            [MkMakeNode (stage_name node +:+ "__wheel")
               (canonicalized_name node) (version node) (build_command node) []] ++
            (if bool_decide (other_edges = []) then []
             else [MkMakeNode (stage_name node +:+ "__install") None None ""
                     install_deps])).

(** What one call of [format], or the walk over a list of
    dependencies, leaves behind: [seen] grows by the targets emitted;
    these are pairwise distinct and were not seen before; each rule is
    the rule of a node below one of the roots, and every dependency of
    that node is in [seen] afterwards. *)
Definition emitted_ok (roots : list MakeNode) (seen : gset string)
    (rules : list Rule) (seen' : gset string) : Prop :=
  (forall t, t ∈ seen' <-> t ∈ seen \/ t ∈ rule_target <$> rules) /\
  NoDup (rule_target <$> rules) /\
  (forall r, r ∈ rules -> rule_target r ∉ seen) /\
  (forall r, r ∈ rules ->
     exists root n, root ∈ roots /\ subnode n root /\ r = rule_of n /\
       forall d, d ∈ dependencies n -> target_name d ∈ seen') /\
  (forall root, root ∈ roots -> target_name root ∈ seen').

(** The child relation is acyclic: children have a smaller rank. *)
Definition children_ranked (graph : DependencyGraph)
    (rank : DependencyNode -> nat) (node : DependencyNode) : Prop :=
  forall n, within graph node n ->
  forall e, e ∈ children n ->
  exists c, nodes graph !! destination_node e = Some c /\ rank c < rank n.

(** ** Concrete parsers and graphs used in the examples *)

Module Examples.

(** [s.split(sep)] on one character. *)
Fixpoint split_on (sep : ascii) (s : string) : list string :=
  match s with
  | EmptyString => [""]
  | String c s' =>
      let r := split_on sep s' in
      if bool_decide (c = sep) then "" :: r
      else match r with
           | h :: t => String c h :: t
           | [] => [String c ""]
           end
  end.

(** Dotted decimal release versions: [1], [1.5], [2.0.1]. *)
Definition release_version (s : string) : option Version :=
  mapM (fun seg => Nat.of_uint <$> NilZero.uint_of_string seg) (split_on "." s).

Definition is_operator_char (c : ascii) : bool :=
  bool_decide (c = "="%char) || bool_decide (c = "<"%char) ||
  bool_decide (c = ">"%char) || bool_decide (c = "!"%char).

Fixpoint span_name (s : string) : string * string :=
  match s with
  | EmptyString => ("", "")
  | String c s' =>
      if is_operator_char c then ("", s)
      else let '(n, r) := span_name s' in (String c n, r)
  end.

Definition clause_of (s : string) : option (Operator * Version) :=
  match s with
  | String "=" (String "=" v) => pair OpEq <$> release_version v
  | String "!" (String "=" v) => pair OpNe <$> release_version v
  | String "<" (String "=" v) => pair OpLe <$> release_version v
  | String ">" (String "=" v) => pair OpGe <$> release_version v
  | String "<" v => pair OpLt <$> release_version v
  | String ">" v => pair OpGt <$> release_version v
  | _ => None
  end.

(** Requirements of the form [name], [name==1.0], [name>=1.0,<2]. *)
Definition simple_requirement (s : string) : option Requirement :=
  let '(n, rest) := span_name s in
  if bool_decide (n = "") then None
  else if bool_decide (rest = "") then Some (mkRequirement n [])
  else mkRequirement n <$> mapM clause_of (split_on "," rest).

Definition release_parsers : Parsers :=
  mkParsers release_version simple_requirement.

(** The legacy mapping of the chain [ROOT -> A==1 -> B==2 -> A==1],
    with one more entry, malformed, under a key nothing refers to. *)
Definition legacy_chain : gmap string (list LegacyTuple) :=
  <[ "" := [mkLegacy "toplevel" "A" "1" "A==1"] ]>
  (<[ "A==1" := [mkLegacy "install" "B" "2" "B==2"] ]>
  (<[ "B==2" := [mkLegacy "install" "A" "1" "A==1"] ]>
  (<[ "Z==9" := [mkLegacy "no-such-type" "Q" "not a version" "???"] ]> ∅))).

Definition the_req (text : string) : Requirement :=
  default (mkRequirement text []) (simple_requirement text).

Definition the_version (text : string) : Version :=
  default [] (release_version text).

(** [add_dependency] with the parent given by name and version text;
    an empty name is the root. *)
Definition dep (parent_name parent_version : string) (rt : RequirementType)
    (req_version req_text : string) (g : DependencyGraph) : DependencyGraph :=
  add_dependency g
    (if bool_decide (parent_name = "") then None else Some parent_name)
    (if bool_decide (parent_name = "") then None else Some (the_version parent_version))
    rt (the_version req_version) (the_req req_text).

(** [conflicts] for the given names: each name with its nodes. *)
Definition conflicts_of (g : DependencyGraph) (names : list string)
  : gmap string (list DependencyNode) :=
  list_to_map ((fun n => (n, get_nodes_by_name g n)) <$> names).

(** [x==1.0] required by [a], [x==2.0] required by [b]. *)
Definition graph_pinned : DependencyGraph :=
  dep "b" "1" INSTALL "2.0" "x==2.0"
    (dep "a" "1" INSTALL "1.0" "x==1.0"
       (dep "" "" TOP_LEVEL "1" "b"
          (dep "" "" TOP_LEVEL "1" "a" empty_graph))).

(** [x>=1.0] required by [a] (resolved to [2.0]), [x==1.5] required by
    [b]. *)
Definition graph_range : DependencyGraph :=
  dep "b" "1" INSTALL "1.5" "x==1.5"
    (dep "a" "1" INSTALL "2.0" "x>=1.0"
       (dep "" "" TOP_LEVEL "1" "b"
          (dep "" "" TOP_LEVEL "1" "a" empty_graph))).

(** [a] declares [x] twice, under two specifiers, both resolved to
    [x==1.0]; [b] requires [x==2.0]. *)
Definition graph_twice : DependencyGraph :=
  dep "b" "1" INSTALL "2.0" "x==2.0"
    (dep "a" "1" INSTALL "1.0" "x<2"
       (dep "a" "1" INSTALL "1.0" "x>=1.0"
          (dep "" "" TOP_LEVEL "1" "b"
             (dep "" "" TOP_LEVEL "1" "a" empty_graph)))).

(** The diamond: [a] and [b] both depend on [c]. *)
Definition graph_diamond : DependencyGraph :=
  dep "b" "1" INSTALL "1" "c"
    (dep "a" "1" INSTALL "1" "c"
       (dep "" "" TOP_LEVEL "1" "b"
          (dep "" "" TOP_LEVEL "1" "a" empty_graph))).

(** [p] with one child per requirement type other than [toplevel]. *)
Definition graph_stages : DependencyGraph :=
  dep "p" "1" INSTALL "1" "i"
    (dep "p" "1" BUILD_BACKEND "1" "k"
       (dep "p" "1" BUILD_SYSTEM "1" "s"
          (dep "p" "1" BUILD "1" "q"
             (dep "" "" TOP_LEVEL "1" "p" empty_graph)))).

(** A chain [ROOT -> t -> m -> l], where [l] is also a build-system
    requirement of [t]. *)
Definition graph_chain : DependencyGraph :=
  dep "t" "1" BUILD_SYSTEM "1" "l"
    (dep "m" "1" INSTALL "1" "l"
       (dep "t" "1" INSTALL "1" "m"
          (dep "" "" TOP_LEVEL "1" "t" empty_graph))).

Definition x_eq_1_0 : Requirement := mkRequirement "x" [(OpEq, [1; 0])].
Definition x_eq_2_0 : Requirement := mkRequirement "x" [(OpEq, [2; 0])].
Definition x_ge_1_0 : Requirement := mkRequirement "x" [(OpGe, [1; 0])].
Definition x_eq_1_5 : Requirement := mkRequirement "x" [(OpEq, [1; 5])].

(** The node at version [v] whose only install-type requirer is
    [consumer], through the requirement [r]. *)
Definition required_by (node : DependencyNode) (v : Version) (r : Requirement)
    (consumer : string) : Prop :=
  version node = Some v /\
  get_incoming_install_edges node = [mkEdge r INSTALL consumer].

(** [x==1.0] required by [a] and [x==2.0] required by [b]. *)
Definition pinned_scenario (a b : string) (nodes : list DependencyNode) : Prop :=
  exists n1 n2,
    required_by n1 [1; 0] x_eq_1_0 a /\
    required_by n2 [2; 0] x_eq_2_0 b /\
    (nodes = [n1; n2] \/ nodes = [n2; n1]).

(** [x>=1.0] required by [a], resolved to some version [va] other than
    [1.5], and [x==1.5] required by [b], with [x==1.5] in the graph. *)
Definition range_scenario (a b : string) (nodes : list DependencyNode) : Prop :=
  exists na nb va,
    required_by na va x_ge_1_0 a /\
    version_leb [1; 0] va = true /\
    version_eqb va [1; 5] = false /\
    version_str va <> "1.5" /\
    required_by nb [1; 5] x_eq_1_5 b /\
    (nodes = [na; nb] \/ nodes = [nb; na]).

(** [l] is a build-system requirement of [p] and an install
    requirement of [q]; [p] is an install requirement of [q], which is
    a toplevel requirement. *)
Definition graph_filter : DependencyGraph :=
  dep "q" "1" INSTALL "1" "l"
    (dep "p" "1" BUILD_SYSTEM "1" "l"
       (dep "q" "1" INSTALL "1" "p"
          (dep "" "" TOP_LEVEL "1" "q" empty_graph))).


(** A rank for the nodes of [graph_stages]: [p] above its children. *)
Definition stages_rank (n : DependencyNode) : nat :=
  if bool_decide (key n = "p==1") then 1
  else if bool_decide (key n = "") then 2
  else 0.

(** The graph of the legacy chain: [a] and [b] require each other. *)
Definition graph_cycle : DependencyGraph :=
  dep "b" "2" INSTALL "1" "a"
    (dep "a" "1" INSTALL "2" "b"
       (dep "" "" TOP_LEVEL "1" "a" empty_graph)).

Definition node_at (g : DependencyGraph) (k : string) : DependencyNode :=
  default (mkNode k None None [] []) (nodes g !! k).

(** The [i]-th dependency of a node of the Makefile, and the [j]-th
    stage of the [i]-th package below [top]. *)
Definition dependency_at (mn : MakeNode) (i : nat) : MakeNode :=
  default mn (dependencies mn !! i).

Definition stage_at (top : MakeNode) (i j : nat) : MakeNode :=
  dependency_at (dependency_at top i) j.

(** The node [top] of the diamond. *)
Definition diamond_top : MakeNode :=
  default (MkMakeNode "all" None None "" []) (makefile_top 3 graph_diamond).


(** [a] and [b] declare [x] under requirements that are the same dict
    key, written differently; [c] requires [x==2.0]. *)
Definition graph_same_key : DependencyGraph :=
  dep "c" "1" INSTALL "2.0" "x==2.0"
    (dep "b" "1" INSTALL "1.0" "X<3,>=1.0"
       (dep "a" "1" INSTALL "1.0" "x>=1.0,<3"
          (dep "" "" TOP_LEVEL "1" "c"
             (dep "" "" TOP_LEVEL "1" "b"
                (dep "" "" TOP_LEVEL "1" "a" empty_graph))))).

End Examples.

(** ** [write_dot] *)

(** The state of the closure [get_node_id]: the dict [seen_nodes] and the
    next value of [itertools.count(1)]. *)
Record IdState := mkIdState {
  seen_nodes : gmap string string;
  next_id : nat;
}.

Definition node_name (i : nat) : string := "node" +:+ nat_str i.

(** [get_node_id(node)]: the identifier of a key, allotted at the first
    request. *)
Definition get_node_id (st : IdState) (node : string) : string * IdState :=
  match seen_nodes st !! node with
  | Some id => (id, st)
  | None =>
      (node_name (next_id st),
       mkIdState (<[node := node_name (next_id st)]> (seen_nodes st)) (S (next_id st)))
  end.

(** What [write_dot] writes: literal text, a node declaration
    ["  {node_id} [{properties}]"], or an edge
    ["  {node_id} -> {child_id} [{properties}]"]. *)
Inductive DotLine :=
  | DotText (text : string)
  | DotNode (node_id properties : string)
  | DotEdge (node_id child_id properties : string).

Definition double_quote : ascii := ascii_of_nat 34.
Definition single_quote : ascii := ascii_of_nat 39.
Definition dq : string := String double_quote "".

(** [s.replace(double quote, single quote)] *)
Fixpoint replace_quote (s : string) : string :=
  match s with
  | EmptyString => EmptyString
  | String c s' =>
      String (if bool_decide (c = double_quote) then single_quote else c)
        (replace_quote s')
  end.

(** The properties of a node line.  [falsy] is the truth value test
    [not node] of the node class, which is declared outside this file;
    [install_constraints] is the set of the keys of
    [graph.get_install_dependencies()]. *)
Definition node_properties (falsy : DependencyNode -> bool)
    (install_constraints : gset string) (node : DependencyNode) : string :=
  (if falsy node then "label=" +:+ dq +:+ "*" +:+ dq
   else "label=" +:+ dq +:+ key node +:+ dq) +:+
  (if bool_decide (key node ∈ install_constraints)
   then " style=filled fillcolor=red color=red fontcolor=white"
   else " style=filled fillcolor=lightgrey color=lightgrey").

Definition edge_properties (edge : DependencyEdge) : string :=
  "labeltooltip=" +:+ dq +:+ replace_quote (requirement_str (req edge)) +:+ dq +:+
  (if bool_decide (req_type edge = INSTALL) then "" else " style=dotted").

(** Body of the first [for node in graph.get_all_nodes()]. *)
Definition dot_node_step (falsy : DependencyNode -> bool)
    (install_constraints : gset string)
    (acc : IdState * list DotLine) (node : DependencyNode)
  : IdState * list DotLine :=
  let '(node_id, st) := get_node_id acc.1 (key node) in
  (st, acc.2 ++ [DotNode node_id (node_properties falsy install_constraints node)]).

(** Body of [for edge in node.children]. *)
Definition dot_edge_step (node_id : string)
    (acc : IdState * list DotLine) (edge : DependencyEdge)
  : IdState * list DotLine :=
  let '(child_id, st) := get_node_id acc.1 (destination_node edge) in
  (st, acc.2 ++ [DotEdge node_id child_id (edge_properties edge)]).

(** Body of the second [for node in graph.get_all_nodes()]. *)
Definition dot_edges_step (acc : IdState * list DotLine) (node : DependencyNode)
  : IdState * list DotLine :=
  let '(node_id, st) := get_node_id acc.1 (key node) in
  foldl (dot_edge_step node_id) (st, acc.2) (children node).

(** [write_dot], with the identifier state it ends in. *)
Definition write_dot_run (falsy : DependencyNode -> bool)
    (install_constraints : gset string) (all_nodes : list DependencyNode)
  : IdState * list DotLine :=
  let acc1 :=
    foldl (dot_node_step falsy install_constraints)
      (mkIdState ∅ 1, [DotText "digraph {"; DotText ""]) all_nodes in
  let acc2 := foldl dot_edges_step (acc1.1, acc1.2 ++ [DotText ""]) all_nodes in
  (acc2.1, acc2.2 ++ [DotText "}"]).

Definition write_dot (falsy : DependencyNode -> bool)
    (install_constraints : gset string) (graph : DependencyGraph) : list DotLine :=
  (write_dot_run falsy install_constraints (get_all_nodes graph)).2.

(** The identifier a state holds for a key. *)
Definition id_of (st : IdState) (k : string) : string :=
  default "" (seen_nodes st !! k).

(** The identifiers held are [node1], [node2], ... below the counter,
    one per key. *)
Definition ids_ok (st : IdState) : Prop :=
  1 <= next_id st /\
  (forall k v, seen_nodes st !! k = Some v ->
     exists i, 1 <= i < next_id st /\ v = node_name i) /\
  (forall k k' v, seen_nodes st !! k = Some v -> seen_nodes st !! k' = Some v ->
     k = k').

(** The lines of the two loops, given the identifier of every key. *)
Definition dot_node_lines (falsy : DependencyNode -> bool)
    (install_constraints : gset string) (id : string -> string)
    (all_nodes : list DependencyNode) : list DotLine :=
  (fun n => DotNode (id (key n)) (node_properties falsy install_constraints n))
    <$> all_nodes.

Definition dot_edge_lines (id : string -> string) (all_nodes : list DependencyNode)
  : list DotLine :=
  all_nodes ≫= (fun n =>
    (fun e => DotEdge (id (key n)) (id (destination_node e)) (edge_properties e))
      <$> children n).

(** The keys [write_dot] asks an identifier for. *)
Definition dot_keys (all_nodes : list DependencyNode) : list string :=
  (key <$> all_nodes) ++
  (all_nodes ≫= (fun n => key n :: (destination_node <$> children n))).

(** ** Notions for the further properties of [migrate_graph] *)

(** A tuple under the key [curr_key] whose fields all parse: the version
    part of the key when there is one, the requirement type, the
    version and the requirement. *)
Definition tuple_parses (P : Parsers) (curr_key : string) (t : LegacyTuple) : Prop :=
  ((partition_eqeq curr_key).2 = "" \/
   is_Some (parse_version P (partition_eqeq curr_key).2)) /\
  is_Some (requirement_type_of_str (legacy_req_type t)) /\
  is_Some (parse_version P (legacy_req_version t)) /\
  is_Some (parse_requirement P (legacy_req t)).

(** What the worklist guarantees about the keys still to come: the root
    is pending or visited, the children of a visited key are pending or
    visited, the root is the first key processed, and the tuples of the
    processed keys all parsed. *)
Definition migrate_progress (P : Parsers) (old_graph : gmap string (list LegacyTuple))
    (st : MigrateState) : Prop :=
  (ROOT ∈ stack st \/ ROOT ∈ visited st) /\
  (forall k ts t, k ∈ visited st -> old_graph !! k = Some ts -> t ∈ ts ->
     child_key t ∈ stack st \/ child_key t ∈ visited st) /\
  ((processed st = [] /\ stack st = [ROOT]) \/ head (processed st) = Some ROOT) /\
  (forall k ts t, k ∈ processed st -> old_graph !! k = Some ts -> t ∈ ts ->
     tuple_parses P k t).

(** ** Notions for the further properties of [explain_duplicates] *)

(** The package a line opens the report of, if it is such a line. *)
Definition name_line (l : DupLine) : option string :=
  match l with DupName n => Some n | _ => None end.

(** The package a verdict line is about, if it is a verdict. *)
Definition verdict_line (l : DupLine) : option string :=
  match l with
  | DupUsable n _ | DupNoSingle n => Some n
  | _ => None
  end.

(** * mirror_builder/__main__.py: locating archives and source trees *)

(** The model is for ASCII text, which is what distribution names and
    archive names are made of. *)
Definition is_digit (c : ascii) : bool :=
  let n := nat_of_ascii c in (48 <=? n)%nat && (n <=? 57)%nat.
Definition is_lower_letter (c : ascii) : bool :=
  let n := nat_of_ascii c in (97 <=? n)%nat && (n <=? 122)%nat.
Definition is_hyphen (c : ascii) : bool := (nat_of_ascii c =? 45)%nat.
Definition is_underscore (c : ascii) : bool := (nat_of_ascii c =? 95)%nat.
Definition is_dot (c : ascii) : bool := (nat_of_ascii c =? 46)%nat.

(** The character class [[\w\d.]]: letters, digits, underscore and dot. *)
Definition is_kept (c : ascii) : bool :=
  is_upper c || is_lower_letter c || is_digit c || is_underscore c || is_dot c.

(** [re.sub(r"[^\w\d.]+", "_", s, count)]: every maximal run of
    characters outside the class becomes one underscore, from the left,
    until [limit] runs have been replaced; the rest of the text is then
    copied as it is.  [in_run] tells that the previous character belongs
    to a run already replaced. *)
Fixpoint sub_runs (limit : option nat) (in_run : bool) (s : string) : string :=
  match s with
  | EmptyString => EmptyString
  | String c s' =>
      if is_kept c then String c (sub_runs limit false s')
      else if in_run then sub_runs limit true s'
      else match limit with
           | Some O => String c s'
           | Some (S n) => String "_"%char (sub_runs (Some n) true s')
           | None => String "_"%char (sub_runs None true s')
           end
  end.

(** The fourth positional argument of [re.sub] is [count]; 0 stands for
    no limit. *)
Definition re_sub (s : string) (count : nat) : string :=
  sub_runs (match count with O => None | S _ => Some count end) false s.

(** The value of the flag [re.UNICODE]. *)
Definition re_UNICODE : nat := 32.

(** [_dist_name_to_filename]: the flag is passed where [re.sub] takes
    [count]. *)
Definition _dist_name_to_filename (dist_name : string) : string :=
  let canonical_name := canonicalize_name dist_name in
  re_sub canonical_name re_UNICODE.

(** [str.lower()] *)
Fixpoint str_lower (s : string) : string :=
  match s with
  | EmptyString => EmptyString
  | String c s' => String (lower c) (str_lower s')
  end.

(** A path as the list of its components; [p / name] adds one component
    and leaves [p] as it is for the empty name.  Names are taken to be
    single relative components. *)
Definition Path : Type := list string.

Definition path_join (p : Path) (name : string) : Path :=
  if decide (name = EmptyString) then p else p ++ [name].

(** The [RuntimeError] of the two searches: the candidates tried and the
    directory contents named in the message. *)
Inductive FindError : Type :=
  | CannotFind (dist_name dist_version : string)
      (candidates : list Path) (contents : list Path).

(** The inner loop [for base in candidate_bases]: whether the name
    equals some candidate when both are put in lower case. *)
Fixpoint matches_base (filename : string) (candidate_bases : list string) : bool :=
  match candidate_bases with
  | [] => false
  | base :: rest =>
      if decide (str_lower filename = str_lower base) then true
      else matches_base filename rest
  end.

(** The outer loop over the entries of the directory, in the order
    [glob] yields them: the first entry with a matching candidate. *)
Fixpoint find_entry (entries : list string) (candidate_bases : list string)
  : option string :=
  match entries with
  | [] => None
  | filename :: rest =>
      if matches_base filename candidate_bases then Some filename
      else find_entry rest candidate_bases
  end.

(** The three candidate names of [_find_sdist]. *)
Definition sdist_candidates (req_name dist_version : string) : list string :=
  let filename_prefix := _dist_name_to_filename req_name in
  let canonical_name := canonicalize_name req_name in
  [ filename_prefix +:+ "-" +:+ dist_version +:+ ".tar.gz";
    canonical_name +:+ "-" +:+ dist_version +:+ ".tar.gz";
    req_name +:+ "-" +:+ dist_version +:+ ".tar.gz" ].

(** [_find_sdist].  [override] is the name the override method
    [expected_source_archive_name] returns for this requirement and
    version, if the package has one; [exists_] is [Path.exists];
    [entries] are the names [downloads_dir.glob('*')] yields and
    [archives] those of [downloads_dir.glob('*.tar.gz')]. *)
Definition _find_sdist (override : option string) (exists_ : Path -> bool)
    (entries archives : list string)
    (sdists_repo : Path) (req_name dist_version : string) : FindError + Path :=
  let downloads_dir := path_join sdists_repo "downloads" in
  let dir_contents := path_join downloads_dir <$> archives in
  match override with
  | Some sdist_name =>
      let sdist_file := path_join downloads_dir sdist_name in
      if exists_ sdist_file then inr sdist_file
      else inl (CannotFind req_name dist_version [sdist_file] dir_contents)
  | None =>
      let candidate_bases := sdist_candidates req_name dist_version in
      match find_entry entries candidate_bases with
      | Some filename => inr (path_join downloads_dir filename)
      | None =>
          inl (CannotFind req_name dist_version
                 (path_join downloads_dir <$> candidate_bases) dir_contents)
      end
  end.

(** [s[:-len('.tar.gz')]]: the text without its last seven characters,
    empty when it has no more than seven. *)
Definition strip_tar_gz (s : string) : string :=
  String.substring 0 (String.length s - String.length ".tar.gz") s.

(** The three candidate names of [_find_source_dir]. *)
Definition source_dir_candidates (req_name dist_version : string) : list string :=
  let filename_prefix := _dist_name_to_filename req_name in
  let filename_based := filename_prefix +:+ "-" +:+ dist_version in
  let canonical_name := canonicalize_name req_name in
  let canonical_based := canonical_name +:+ "-" +:+ dist_version in
  let name_based := req_name +:+ "-" +:+ dist_version in
  [filename_based; canonical_based; name_based].

(** [_find_source_dir]; [entries] are the names [work_dir.glob('*')]
    yields, used for the search and for the message. *)
Definition _find_source_dir (override : option string) (exists_ : Path -> bool)
    (entries : list string)
    (work_dir : Path) (req_name dist_version : string) : FindError + Path :=
  let work_dir_contents := path_join work_dir <$> entries in
  match override with
  | Some sdist_name =>
      let sdist_base_name := strip_tar_gz sdist_name in
      let source_dir := path_join (path_join work_dir sdist_base_name) sdist_base_name in
      if exists_ source_dir then inr source_dir
      else inl (CannotFind req_name dist_version [source_dir] work_dir_contents)
  | None =>
      let candidate_bases := source_dir_candidates req_name dist_version in
      match find_entry entries candidate_bases with
      | Some dirname => inr (path_join (path_join work_dir dirname) dirname)
      | None =>
          inl (CannotFind req_name dist_version
                 ((fun base => path_join (path_join work_dir base) base)
                    <$> candidate_bases)
                 work_dir_contents)
      end
  end.

(** ** Notions for the properties of the searches *)

Fixpoint string_forall (p : ascii -> bool) (s : string) : bool :=
  match s with
  | EmptyString => true
  | String c s' => p c && string_forall p s'
  end.

(** A distribution name made of letters, digits, hyphens, underscores
    and dots. *)
Definition valid_name (s : string) : bool :=
  string_forall (fun c => is_kept c || is_hyphen c) s.

Fixpoint hyphens (s : string) : nat :=
  match s with
  | EmptyString => 0
  | String c s' => (if is_hyphen c then 1 else 0) + hyphens s'
  end.

(** The text with its first [n] hyphens turned into underscores. *)
Fixpoint underscore_first (n : nat) (s : string) : string :=
  match s with
  | EmptyString => EmptyString
  | String c s' =>
      if is_hyphen c then
        match n with
        | O => String c s'
        | S m => String "_"%char (underscore_first m s')
        end
      else String c (underscore_first n s')
  end.

(** A canonical name: lower-case letters, digits and single hyphens;
    [after_hyphen] tells that the text follows a hyphen. *)
Fixpoint canonical_text (after_hyphen : bool) (s : string) : Prop :=
  match s with
  | EmptyString => True
  | String c s' =>
      if is_hyphen c then after_hyphen = false /\ canonical_text true s'
      else (is_lower_letter c || is_digit c) = true /\ canonical_text false s'
  end.

(** Whether a name is one of the candidates, case aside. *)
Definition is_candidate (candidate_bases : list string) (filename : string) : Prop :=
  str_lower filename ∈ str_lower <$> candidate_bases.

(** * Proofs *)

Import Examples.

(** ** Migration of the legacy format *)

Section Migrate.
Context (P : Parsers) (old_graph : gmap string (list LegacyTuple)).

Lemma migrate_tuple_stack curr t g stk g' stk' :
  migrate_tuple P curr (g, stk) t = inr (g', stk') ->
  stk' = child_key t :: stk.
Proof.
  unfold migrate_tuple, try.
  destruct (partition_eqeq curr) as [pn pv].
  repeat case_match; try done; by intros [= <- <-].
Qed.

Lemma migrate_tuples_stack curr ts g stk g' stk' :
  migrate_tuples P curr (g, stk) ts = inr (g', stk') ->
  stk' = reverse (child_key <$> ts) ++ stk.
Proof.
  revert g stk. induction ts as [|t ts IH]; intros g stk.
  - simpl. intros [= <- <-]. done.
  - cbn [migrate_tuples].
    destruct (migrate_tuple P curr (g, stk) t) as [e|[g1 stk1]] eqn:Ht; [done|].
    intros H. apply IH in H. subst stk'.
    apply migrate_tuple_stack in Ht as ->.
    rewrite fmap_cons, reverse_cons, <- app_assoc. done.
Qed.

Lemma sum_list_with_ext {A} (f g : A -> nat) l :
  (forall x, x ∈ l -> f x = g x) -> sum_list_with f l = sum_list_with g l.
Proof.
  induction l as [|x l IH]; intros H; simpl; [done|].
  rewrite (H x) by left. rewrite IH; [done|].
  intros y Hy. apply H. by right.
Qed.

Lemma pending_empty : pending old_graph ∅ = total_tuples old_graph.
Proof.
  unfold pending, total_tuples. apply sum_list_with_ext.
  intros [k ts] _. simpl. rewrite bool_decide_eq_false_2; [done|set_solver].
Qed.

(** Visiting a key takes its tuples out of what is pending. *)
Lemma pending_visit k seen :
  k ∉ seen ->
  pending old_graph ({[k]} ∪ seen) + length (default [] (old_graph !! k))
  = pending old_graph seen.
Proof.
  intros Hk. unfold pending.
  destruct (old_graph !! k) as [ts|] eqn:Hlook; simpl.
  - rewrite <- !(sum_list_with_Permutation_proper _ _ _
                   (map_to_list_delete old_graph k ts Hlook)).
    simpl.
    rewrite bool_decide_eq_true_2 by set_solver.
    rewrite (bool_decide_eq_false_2 (k ∈ seen)) by done.
    rewrite (sum_list_with_ext
               (fun kv => if bool_decide (kv.1 ∈ {[k]} ∪ seen) then 0 else length kv.2)
               (fun kv => if bool_decide (kv.1 ∈ seen) then 0 else length kv.2));
      [lia|].
    intros [k' ts'] Hin. apply elem_of_map_to_list in Hin. simpl.
    assert (k' <> k) by (intros ->; by rewrite lookup_delete_eq in Hin).
    by rewrite (bool_decide_ext (k' ∈ {[k]} ∪ seen) (k' ∈ seen)) by set_solver.
  - rewrite Nat.add_0_r. apply sum_list_with_ext.
    intros [k' ts'] Hin. apply elem_of_map_to_list in Hin. simpl.
    assert (k' <> k) by congruence.
    by rewrite (bool_decide_ext (k' ∈ {[k]} ∪ seen) (k' ∈ seen)) by set_solver.
Qed.

(** The loop returns whenever the fuel exceeds the stack and the
    pending tuples together. *)
Lemma migrate_loop_returns fuel st :
  length (stack st) + pending old_graph (visited st) < fuel ->
  is_Some (migrate_loop fuel P old_graph st).
Proof.
  revert st. induction fuel as [|fuel IH]; intros st Hlt; [lia|].
  simpl. unfold migrate_step.
  destruct (stack st) as [|curr stk] eqn:Hstk; [eauto|].
  simpl in Hlt. case_bool_decide as Hvis.
  - apply IH. simpl. lia.
  - destruct (migrate_tuples P curr (graph_of st, stk)
                (default [] (old_graph !! curr))) as [e|[g' stk']] eqn:Hts; [eauto|].
    apply IH. simpl.
    apply migrate_tuples_stack in Hts. subst stk'.
    rewrite length_app, length_reverse, length_fmap.
    pose proof (pending_visit curr (visited st) Hvis). lia.
Qed.

Lemma migrate_step_inv st st' :
  migrate_inv old_graph st -> migrate_step P old_graph st = Some (inr st') ->
  migrate_inv old_graph st'.
Proof.
  intros (Hnd & Hpv & Hstk & Hproc). unfold migrate_step.
  destruct (stack st) as [|curr stk] eqn:Hs; [done|].
  case_bool_decide as Hvis.
  - intros [= <-]. repeat split; simpl; try done; try apply Hpv.
    intros k Hk. apply Hstk. by right.
  - destruct (migrate_tuples P curr (graph_of st, stk)
                (default [] (old_graph !! curr))) as [e|[g' stk']] eqn:Hts; [done|].
    intros [= <-]. apply migrate_tuples_stack in Hts. subst stk'.
    assert (reachable old_graph curr) as Hcurr by (apply Hstk; left).
    repeat split; simpl.
    + apply NoDup_app. repeat split; [done| |apply NoDup_singleton].
      intros k Hk ->%list_elem_of_singleton. by apply Hvis, Hpv.
    + intros [Hk| ->%list_elem_of_singleton]%elem_of_app; [|set_solver].
      apply Hpv in Hk. set_solver.
    + intros [->%elem_of_singleton|Hk]%elem_of_union;
        apply elem_of_app; [right; by left|left; by apply Hpv].
    + intros k [Hk|Hk]%elem_of_app; [|apply Hstk; by right].
      apply elem_of_reverse, list_elem_of_fmap in Hk as (t & -> & Ht).
      destruct (old_graph !! curr) as [ts|] eqn:Hlook; simpl in Ht.
      * by eapply reachable_child.
      * by apply elem_of_nil in Ht.
    + intros k [Hk| ->%list_elem_of_singleton]%elem_of_app; [by apply Hproc|done].
Qed.

Lemma migrate_loop_inv fuel st st' :
  migrate_inv old_graph st -> migrate_loop fuel P old_graph st = Some (inr st') ->
  migrate_inv old_graph st' /\ stack st' = [].
Proof.
  revert st. induction fuel as [|fuel IH]; intros st Hinv; [done|].
  simpl. destruct (migrate_step P old_graph st) as [[e|st1]|] eqn:Hstep.
  - done.
  - intros H. eapply IH; [|exact H]. by eapply migrate_step_inv.
  - intros [= <-]. split; [done|].
    unfold migrate_step in Hstep.
    destruct (stack st) as [|curr stk]; [done|].
    case_bool_decide; [done|].
    by destruct (migrate_tuples _ _ _ _) as [?|[? ?]].
Qed.

Lemma migrate_inv_init : migrate_inv old_graph (mkMigrate empty_graph [ROOT] ∅ []).
Proof.
  repeat split; simpl; try set_solver.
  - constructor.
  - intros k ->%list_elem_of_singleton. constructor.
Qed.

(** Two legacy mappings that agree on the reachable keys of the first
    are migrated alike. *)
Lemma migrate_loop_agree (other : gmap string (list LegacyTuple)) fuel st :
  (forall k, reachable old_graph k -> other !! k = old_graph !! k) ->
  (forall k, k ∈ stack st -> reachable old_graph k) ->
  migrate_loop fuel P other st = migrate_loop fuel P old_graph st.
Proof.
  intros Hagree. revert st. induction fuel as [|fuel IH]; intros st Hstk; [done|].
  simpl. unfold migrate_step.
  destruct (stack st) as [|curr stk] eqn:Hs; [done|].
  assert (reachable old_graph curr) as Hcurr by (apply Hstk; left).
  case_bool_decide as Hvis.
  - apply IH. simpl. intros k Hk. apply Hstk. by right.
  - rewrite (Hagree curr Hcurr).
    destruct (migrate_tuples P curr (graph_of st, stk)
                (default [] (old_graph !! curr))) as [e|[g' stk']] eqn:Hts; [done|].
    apply IH. simpl. apply migrate_tuples_stack in Hts. subst stk'.
    intros k [Hk|Hk]%elem_of_app; [|apply Hstk; by right].
    apply elem_of_reverse, list_elem_of_fmap in Hk as (t & -> & Ht).
    destruct (old_graph !! curr) as [ts|] eqn:Hlook; simpl in Ht.
    + by eapply reachable_child.
    + by apply elem_of_nil in Ht.
Qed.

End Migrate.

Lemma legacy_chain_reachable k :
  reachable legacy_chain k -> k ∈ [""; "A==1"; "B==2"].
Proof.
  induction 1 as [|k ts t _ IH Hlook Ht]; [by left|].
  apply elem_of_cons in IH as [->|IH];
    [|apply elem_of_cons in IH as [->|IH];
      [|apply list_elem_of_singleton in IH as ->]];
    vm_compute in Hlook; injection Hlook as <-;
    apply list_elem_of_singleton in Ht as ->; vm_compute;
    repeat first [by left | right].
Qed.

Lemma legacy_chain_unreachable : ~ reachable legacy_chain "Z==9".
Proof.
  intros H%legacy_chain_reachable.
  repeat (apply elem_of_cons in H as [H|H]; [done|]).
  by apply elem_of_nil in H.
Qed.

(** The chain [ROOT -> A==1 -> B==2 -> A==1] is migrated by walking the
    root, [A==1] and [B==2], each once; the second encounter of [A==1] is
    skipped. *)
Example migrate_chain_processed :
  (fun r => match r with
            | Some (inr st) => Some (processed st, stack st)
            | _ => None
            end) (migrate_graph (migrate_fuel legacy_chain) release_parsers legacy_chain)
  = Some ([""; "A==1"; "B==2"], []).
Proof. vm_compute. reflexivity. Qed.

(** C2: the migration loop is a worklist traversal from the root with a
    visited set.  With the fuel [migrate_fuel], computed from the legacy
    mapping, it returns on every mapping (raising counts as returning);
    when it completes, the worklist is empty and the keys whose adjacency
    lists were walked are pairwise distinct and are exactly the visited
    set: no key is processed twice, however often it was pushed. *)
Theorem migrate_graph_terminates_processing_once
    (P : Parsers) (old_graph : gmap string (list LegacyTuple)) (fuel : nat) :
  migrate_fuel old_graph <= fuel ->
  (exists result, migrate_graph fuel P old_graph = Some result) /\
  (forall st, migrate_graph fuel P old_graph = Some (inr st) ->
     stack st = [] /\ NoDup (processed st) /\
     (forall k, k ∈ processed st <-> k ∈ visited st)).
Proof.
  intros Hfuel. split.
  - apply migrate_loop_returns. simpl. rewrite pending_empty.
    unfold migrate_fuel in Hfuel. lia.
  - intros st Hst.
    apply migrate_loop_inv in Hst as ((Hnd & Hpv & _) & Hstk);
      [done|apply migrate_inv_init].
Qed.

Lemma migrate_graph_terminates_processing_once_witness :
  migrate_fuel legacy_chain <= 7 /\
  ((exists result, migrate_graph 7 release_parsers legacy_chain = Some result) /\
   (forall st, migrate_graph 7 release_parsers legacy_chain = Some (inr st) ->
      stack st = [] /\ NoDup (processed st) /\
      (forall k, k ∈ processed st <-> k ∈ visited st))).
Proof.
  split; [vm_compute; lia|].
  apply (migrate_graph_terminates_processing_once release_parsers legacy_chain 7).
  vm_compute; lia.
Defined.

(** C10: only the entries under keys reachable from the root take part in
    the migration.  Every key whose adjacency list is walked is
    reachable; and an entry under an unreachable key, whatever it holds
    (well-formed or not), changes nothing: with the entry replaced or
    removed the migration gives the same result, the same graph or the
    same error, and nothing else is reported. *)
Theorem migrate_graph_drops_unreachable
    (P : Parsers) (old_graph : gmap string (list LegacyTuple)) (fuel : nat)
    (k : string) (entry : list LegacyTuple) :
  ~ reachable old_graph k ->
  migrate_graph fuel P (<[k := entry]> old_graph) = migrate_graph fuel P old_graph /\
  migrate_graph fuel P (delete k old_graph) = migrate_graph fuel P old_graph /\
  (forall st, migrate_graph fuel P old_graph = Some (inr st) ->
     forall k', k' ∈ processed st -> reachable old_graph k').
Proof.
  intros Hk. repeat split.
  - apply migrate_loop_agree.
    + intros k' Hk'. apply lookup_insert_ne. by intros ->.
    + simpl. intros k' ->%list_elem_of_singleton. constructor.
  - apply migrate_loop_agree.
    + intros k' Hk'. apply lookup_delete_ne. by intros ->.
    + simpl. intros k' ->%list_elem_of_singleton. constructor.
  - intros st Hst.
    apply migrate_loop_inv in Hst as ((_ & _ & _ & Hproc) & _);
      [done|apply migrate_inv_init].
Qed.

Lemma migrate_graph_drops_unreachable_witness :
  ~ reachable legacy_chain "Z==9" /\
  (migrate_graph 7 release_parsers (<["Z==9" := []]> legacy_chain)
   = migrate_graph 7 release_parsers legacy_chain /\
   migrate_graph 7 release_parsers (delete "Z==9" legacy_chain)
   = migrate_graph 7 release_parsers legacy_chain /\
   (forall st, migrate_graph 7 release_parsers legacy_chain = Some (inr st) ->
      forall k', k' ∈ processed st -> reachable legacy_chain k')).
Proof.
  split; [exact legacy_chain_unreachable|].
  exact (migrate_graph_drops_unreachable release_parsers legacy_chain 7 "Z==9" []
           legacy_chain_unreachable).
Defined.

(** ** [explain_duplicates] *)

Section Dicts.
Context {V : Type}.
Implicit Types d : list (string * V).

Lemma dict_get_setdefault_update k v0 (f : V -> V) d k' :
  dict_get k' (setdefault_update k v0 f d)
  = if decide (k = k') then Some (f (default v0 (dict_get k d)))
    else dict_get k' d.
Proof.
  induction d as [|[k1 v1] d IH]; simpl.
  - destruct (decide (k = k')); done.
  - destruct (decide (k1 = k)) as [->|Hne]; simpl.
    + destruct (decide (k = k')); done.
    + destruct (decide (k1 = k')) as [->|Hne'].
      * by rewrite decide_False by done.
      * done.
Qed.

Lemma setdefault_update_keys k v0 (f : V -> V) d :
  (setdefault_update k v0 f d).*1
  = if bool_decide (k ∈ d.*1) then d.*1 else d.*1 ++ [k].
Proof.
  induction d as [|[k1 v1] d IH]; [done|].
  cbn [setdefault_update].
  destruct (decide (k1 = k)) as [->|Hne]; rewrite !fmap_cons; cbn [fst].
  - rewrite bool_decide_eq_true_2 by left. done.
  - rewrite IH. case_bool_decide as Hin.
    + rewrite bool_decide_eq_true_2 by (by right). done.
    + rewrite bool_decide_eq_false_2; [done|].
      intros [?|?]%elem_of_cons; congruence.
Qed.

Lemma dict_get_elem_of d k v :
  NoDup d.*1 -> (k, v) ∈ d -> dict_get k d = Some v.
Proof.
  induction d as [|[k1 v1] d IH]; simpl; intros Hnd Hin.
  - by apply elem_of_nil in Hin.
  - apply NoDup_cons in Hnd as [Hk1 Hnd].
    apply elem_of_cons in Hin as [[= <- <-]|Hin].
    + by rewrite decide_True.
    + rewrite decide_False; [by apply IH|].
      intros ->. apply Hk1. apply list_elem_of_fmap. by exists (k, v).
Qed.

Lemma dict_get_is_Some d k : is_Some (dict_get k d) <-> k ∈ d.*1.
Proof.
  induction d as [|[k1 v1] d IH]; simpl.
  - split; [by intros [? ?]|by intros ?%elem_of_nil].
  - destruct (decide (k1 = k)) as [->|Hne].
    + split; [left|eauto].
    + rewrite IH. split; [by right|].
      intros [?|?]%elem_of_cons; [congruence|done].
Qed.
End Dicts.

Lemma version_cmp_nil_r a : version_cmp a [] = if all_zero a then Eq else Gt.
Proof. destruct a; reflexivity. Qed.

Lemma version_cmp_antisym a b : version_cmp b a = CompOpp (version_cmp a b).
Proof.
  revert b. induction a as [|x a IH]; intros b.
  - rewrite version_cmp_nil_r. cbn [version_cmp]. by destruct (all_zero b).
  - destruct b as [|y b].
    + cbn [version_cmp]. by destruct (all_zero (x :: a)).
    + cbn [version_cmp]. rewrite (Nat.compare_antisym x y), IH.
      by destruct (Nat.compare x y).
Qed.

Lemma version_leb_total a b : version_leb a b = false -> version_leb b a = true.
Proof.
  unfold version_leb. rewrite (version_cmp_antisym a b).
  by destruct (version_cmp a b).
Qed.

Section Sorted.
Context {A : Type} (leb : A -> A -> bool).
Hypothesis leb_total : forall x y, leb x y = false -> leb y x = true.

Lemma insert_sorted_Sorted x l :
  Sorted (fun a b => leb a b = true) l ->
  Sorted (fun a b => leb a b = true) (insert_sorted leb x l).
Proof.
  induction 1 as [|y l Hl IH Hhd]; simpl.
  - repeat constructor.
  - destruct (leb x y) eqn:Hxy.
    + constructor; [by constructor|by constructor].
    + constructor; [done|].
      destruct Hhd as [|z l Hyz]; simpl.
      * constructor. by apply leb_total.
      * destruct (leb x z); constructor; [by apply leb_total|done].
Qed.

Lemma sorted_Sorted l : Sorted (fun a b => leb a b = true) (sorted leb l).
Proof.
  induction l as [|x l IH]; simpl; [constructor|].
  by apply insert_sorted_Sorted.
Qed.

Lemma insert_sorted_Permutation x l : insert_sorted leb x l ≡ₚ x :: l.
Proof.
  induction l as [|y l IH]; simpl; [done|].
  destruct (leb x y); [done|]. rewrite IH. apply Permutation_swap.
Qed.

Lemma sorted_Permutation l : sorted leb l ≡ₚ l.
Proof.
  induction l as [|x l IH]; simpl; [done|].
  by rewrite insert_sorted_Permutation, IH.
Qed.
End Sorted.

(** *** The requirement groups of a node *)

Lemma elem_of_List_filter {A} (f : A -> bool) (l : list A) (x : A) :
  x ∈ List.filter f l <-> x ∈ l /\ f x = true.
Proof.
  induction l as [|y l IH]; simpl.
  - split; [by intros ?%elem_of_nil|by intros [?%elem_of_nil _]].
  - destruct (f y) eqn:Hy; rewrite ?elem_of_cons, IH.
    + split; [intros [->|[? ?]]; split; auto|intros [[->|?] ?]; auto].
    + split; [intros [? ?]; split; auto|intros [[->|?] ?]; [congruence|auto]].
Qed.

Lemma filter_fmap_NoDup {A B} (f : A -> B) (p : A -> bool) l :
  NoDup (f <$> l) -> NoDup (f <$> List.filter p l).
Proof.
  induction l as [|x l IH]; [done|]. rewrite fmap_cons. intros [Hx Hnd]%NoDup_cons.
  simpl. destruct (p x); [|by apply IH].
  rewrite fmap_cons. apply NoDup_cons. split; [|by apply IH].
  intros Hin. apply Hx. apply list_elem_of_fmap in Hin as (y & -> & Hy).
  apply list_elem_of_fmap. exists y. split; [done|].
  by apply elem_of_List_filter in Hy as [Hy _].
Qed.

Lemma same_requirement_spec r1 r2 :
  same_requirement r1 r2 = true <-> requirement_key r1 = requirement_key r2.
Proof. unfold same_requirement. apply bool_decide_eq_true. Qed.

Lemma same_requirement_false r1 r2 :
  same_requirement r1 r2 = false <-> requirement_key r1 <> requirement_key r2.
Proof. unfold same_requirement. apply bool_decide_eq_false. Qed.

Lemma same_requirement_sym r1 r2 : same_requirement r1 r2 = same_requirement r2 r1.
Proof. unfold same_requirement. apply bool_decide_ext. split; congruence. Qed.

Lemma same_requirement_refl r : same_requirement r r = true.
Proof. by apply same_requirement_spec. Qed.

Section Groups.
Implicit Types es : list DependencyEdge.

Lemma first_requirements_keys es k :
  k ∈ requirement_key <$> first_requirements es <-> k ∈ edge_key <$> es.
Proof.
  induction es as [|e es IH]; [done|].
  cbn [first_requirements]. rewrite !fmap_cons, !elem_of_cons, <- IH.
  rewrite !list_elem_of_fmap. split.
  - intros [->|(r & -> & Hr)]; [by left|].
    apply elem_of_List_filter in Hr as [Hr _]. right. by exists r.
  - intros [->|(r & -> & Hr)]; [by left|].
    destruct (decide (requirement_key r = edge_key e)) as [Heq|Hne]; [by left|].
    right. exists r. split; [done|]. apply elem_of_List_filter. split; [done|].
    apply negb_true_iff, same_requirement_false. by intros ?.
Qed.

Lemma first_requirements_NoDup es : NoDup (requirement_key <$> first_requirements es).
Proof.
  induction es as [|e es IH]; [constructor|].
  cbn [first_requirements]. rewrite fmap_cons. apply NoDup_cons. split.
  - intros (r & Hk & Hr)%list_elem_of_fmap.
    apply elem_of_List_filter in Hr as [_ Hr].
    apply negb_true_iff, same_requirement_false in Hr. done.
  - by apply filter_fmap_NoDup.
Qed.

Lemma first_requirements_snoc es e :
  first_requirements (es ++ [e])
  = first_requirements es ++
    (if bool_decide (edge_key e ∈ edge_key <$> es) then [] else [req e]).
Proof.
  induction es as [|e0 es IH].
  - cbn [app first_requirements List.filter fmap list_fmap].
    by rewrite bool_decide_eq_false_2 by (by intros ?%elem_of_nil).
  - cbn [app first_requirements]. rewrite IH, List.filter_app. f_equal.
    f_equal. rewrite fmap_cons.
    destruct (decide (edge_key e = edge_key e0)) as [Heq|Hne].
    + rewrite (bool_decide_eq_true_2 (edge_key e ∈ edge_key e0 :: _))
        by (rewrite Heq; left).
      case_bool_decide; [done|]. cbn [List.filter].
      assert (same_requirement (req e0) (req e) = true) as ->
        by (by apply same_requirement_spec).
      done.
    + rewrite (bool_decide_ext (edge_key e ∈ edge_key e0 :: (edge_key <$> es))
                 (edge_key e ∈ edge_key <$> es))
        by (rewrite elem_of_cons; naive_solver).
      case_bool_decide; [done|]. cbn [List.filter].
      assert (same_requirement (req e0) (req e) = false) as ->
        by (apply same_requirement_false; by intros ?).
      done.
Qed.

Lemma elem_of_group_parents r es p :
  p ∈ group_parents r es
  <-> exists e, e ∈ es /\ edge_key e = requirement_key r /\ destination_node e = p.
Proof.
  unfold group_parents. rewrite elem_of_list_to_set, list_elem_of_fmap. split.
  - intros (e & -> & [He Hs]%elem_of_List_filter). exists e.
    apply same_requirement_spec in Hs. by repeat split.
  - intros (e & He & Hk & <-). exists e. split; [done|].
    apply elem_of_List_filter. split; [done|]. by apply same_requirement_spec.
Qed.

Lemma group_parents_snoc r es e :
  group_parents r (es ++ [e])
  = group_parents r es ∪
    (if same_requirement r (req e) then {[destination_node e]} else ∅).
Proof.
  unfold group_parents. rewrite List.filter_app, fmap_app, list_to_set_app_L.
  f_equal. cbn [List.filter]. destruct (same_requirement r (req e)); [|done].
  simpl. by rewrite (right_id_L ∅ (∪)).
Qed.

Lemma elem_of_pairs_of_edges es k p :
  (k, p) ∈ pairs_of_edges es
  <-> exists e, e ∈ es /\ edge_key e = k /\ destination_node e = p.
Proof.
  unfold pairs_of_edges. rewrite elem_of_list_to_set, list_elem_of_fmap. split.
  - intros (e & [= -> ->] & He). by exists e.
  - intros (e & He & <- & <-). by exists e.
Qed.

(** The dict after one more edge. *)
Lemma setdefault_groups (G : Requirement -> gset string) reps k p :
  NoDup (requirement_key <$> reps) ->
  setdefault_update_by same_requirement k (∅ : gset string) (fun s => s ∪ {[p]})
    ((fun r => (r, G r)) <$> reps)
  = if bool_decide (requirement_key k ∈ requirement_key <$> reps)
    then (fun r => (r, G r ∪ (if same_requirement r k then {[p]} else ∅))) <$> reps
    else ((fun r => (r, G r)) <$> reps) ++ [(k, ∅ ∪ {[p]})].
Proof.
  induction reps as [|r reps IH]; intros Hnd.
  - rewrite bool_decide_eq_false_2 by (by intros ?%elem_of_nil). done.
  - rewrite fmap_cons in Hnd. apply NoDup_cons in Hnd as [Hr Hnd].
    rewrite !fmap_cons. cbn [setdefault_update_by].
    destruct (same_requirement r k) eqn:Hs.
    + apply same_requirement_spec in Hs.
      rewrite bool_decide_eq_true_2 by (rewrite Hs; left). f_equal.
      apply list_fmap_ext. intros i r' Hr'.
      assert (same_requirement r' k = false) as ->; [|by rewrite (right_id_L ∅ (∪))].
      apply same_requirement_false. intros Heq. apply Hr. rewrite Hs, <- Heq.
      apply list_elem_of_fmap. exists r'. split; [done|]. by eapply list_elem_of_lookup_2.
    + apply same_requirement_false in Hs. rewrite (IH Hnd).
      rewrite (bool_decide_ext (requirement_key k ∈ requirement_key r :: _)
                 (requirement_key k ∈ requirement_key <$> reps))
        by (rewrite elem_of_cons; naive_solver).
      case_bool_decide; [|done]. by rewrite (right_id_L ∅ (∪)).
Qed.

Lemma groups_of_edges_snoc es e :
  groups_of_edges (es ++ [e])
  = setdefault_update_by same_requirement (req e) (∅ : gset string)
      (fun s => s ∪ {[destination_node e]}) (groups_of_edges es).
Proof.
  unfold groups_of_edges.
  rewrite (setdefault_groups (fun r => group_parents r es))
    by apply first_requirements_NoDup.
  rewrite first_requirements_snoc.
  rewrite (bool_decide_ext _ _ (first_requirements_keys es (edge_key e))).
  fold (edge_key e). case_bool_decide as Hin.
  - rewrite app_nil_r. apply list_fmap_ext. intros i r _.
    by rewrite group_parents_snoc.
  - rewrite fmap_app. f_equal.
    + apply list_fmap_ext. intros i r Hr. rewrite group_parents_snoc.
      assert (same_requirement r (req e) = false) as ->; [|by rewrite (right_id_L ∅ (∪))].
      apply same_requirement_false. intros Heq. apply Hin.
      apply first_requirements_keys. unfold edge_key. rewrite <- Heq.
      apply list_elem_of_fmap. exists r. split; [done|]. by eapply list_elem_of_lookup_2.
    + assert (group_parents (req e) es = ∅) as Hempty.
      { apply set_eq. intros p. rewrite elem_of_group_parents. split; [|set_solver].
        intros (e' & He' & Hk & _). exfalso. apply Hin. unfold edge_key at 1.
        rewrite <- Hk. apply list_elem_of_fmap. by exists e'. }
      cbn [fmap list_fmap].
      by rewrite group_parents_snoc, same_requirement_refl, Hempty.
Qed.

(** The dict the code builds holds the groups read off the edges. *)
Lemma parents_by_req_groups node : parents_by_req node = requirement_groups node.
Proof.
  unfold parents_by_req, requirement_groups.
  induction (get_incoming_install_edges node) as [|e es IH] using rev_ind; [done|].
  by rewrite foldl_app, groups_of_edges_snoc, <- IH.
Qed.

Lemma size_union_singleton `{Countable A} (X : gset A) (p : A) :
  size (X ∪ {[p]}) = size X + (if bool_decide (p ∈ X) then 0 else 1).
Proof.
  case_bool_decide as Hin.
  - rewrite (union_comm_L X), (subseteq_union_1_L {[p]} X)
      by (by apply singleton_subseteq_l).
    lia.
  - rewrite size_union by (by apply disjoint_singleton_r).
    by rewrite size_singleton.
Qed.

Lemma sum_matching (reps : list Requirement) (k : Requirement) (x : nat) :
  NoDup (requirement_key <$> reps) ->
  requirement_key k ∈ requirement_key <$> reps ->
  sum_list_with (fun r => if same_requirement r k then x else 0) reps = x.
Proof.
  induction reps as [|r reps IH]; [by intros _ ?%elem_of_nil|].
  rewrite fmap_cons. intros [Hr Hnd]%NoDup_cons Hin. cbn [sum_list_with].
  destruct (same_requirement r k) eqn:Hs.
  - apply same_requirement_spec in Hs.
    assert (sum_list_with (fun r => if same_requirement r k then x else 0) reps = 0) as ->;
      [|lia].
    clear IH Hin Hnd. induction reps as [|r' reps IH]; [done|].
    cbn [sum_list_with]. rewrite fmap_cons in Hr.
    assert (same_requirement r' k = false) as ->.
    { apply same_requirement_false. intros Heq. apply Hr. rewrite Hs, Heq. left. }
    rewrite IH; [done|]. intros Hin. apply Hr. by right.
  - apply same_requirement_false in Hs.
    apply elem_of_cons in Hin as [Heq|Hin]; [congruence|]. by rewrite (IH Hnd Hin).
Qed.

(** The sizes of the groups add up to the number of distinct pairs of a
    requirement and a parent: a parent is counted once in every group it
    is in. *)
Lemma groups_of_edges_size es :
  sum_list_with (fun group : Requirement * gset string => size group.2)
    (groups_of_edges es)
  = size (pairs_of_edges es).
Proof.
  induction es as [|e es IH] using rev_ind; [done|].
  assert (size (pairs_of_edges (es ++ [e]))
          = size (pairs_of_edges es)
            + (if bool_decide ((edge_key e, destination_node e) ∈ pairs_of_edges es)
               then 0 else 1)) as ->.
  { unfold pairs_of_edges. rewrite fmap_app, list_to_set_app_L. simpl.
    rewrite (right_id_L ∅ (∪)). fold (pairs_of_edges es).
    apply size_union_singleton. }
  rewrite <- IH. unfold groups_of_edges at 1.
  rewrite first_requirements_snoc, fmap_app, sum_list_with_app.
  assert (sum_list_with (fun group : Requirement * gset string => size group.2)
            ((fun r => (r, group_parents r (es ++ [e]))) <$> first_requirements es)
          = sum_list_with (fun group : Requirement * gset string => size group.2)
              (groups_of_edges es)
            + sum_list_with
                (fun r => if same_requirement r (req e)
                          then (if bool_decide ((edge_key e, destination_node e)
                                                  ∈ pairs_of_edges es)
                                then 0 else 1)
                          else 0)
                (first_requirements es)) as ->.
  { unfold groups_of_edges.
    assert (forall r, r ∈ first_requirements es -> r ∈ first_requirements es) as Hsub
      by done.
    revert Hsub. generalize (first_requirements es) at 1 3 4 5. intros reps Hsub.
    induction reps as [|r reps IHr]; [done|].
    rewrite !fmap_cons. cbn [sum_list_with snd]. rewrite IHr
      by (intros r' Hr'; apply Hsub; by right).
    rewrite group_parents_snoc. destruct (same_requirement r (req e)) eqn:Hs.
    - rewrite size_union_singleton.
      apply same_requirement_spec in Hs.
      rewrite (bool_decide_ext (destination_node e ∈ group_parents r es)
                 ((edge_key e, destination_node e) ∈ pairs_of_edges es)).
      + lia.
      + rewrite elem_of_group_parents, elem_of_pairs_of_edges. unfold edge_key.
        rewrite Hs. done.
    - rewrite (right_id_L ∅ (∪)). lia. }
  destruct (decide (edge_key e ∈ edge_key <$> es)) as [Hkey|Hkey];
    [rewrite (bool_decide_eq_true_2 _ Hkey)|rewrite (bool_decide_eq_false_2 _ Hkey)].
  - simpl. rewrite sum_matching;
      [by rewrite Nat.add_0_r|apply first_requirements_NoDup
      |by apply first_requirements_keys].
  - cbn [fmap list_fmap sum_list_with snd].
    rewrite group_parents_snoc, same_requirement_refl, size_union_singleton.
    assert (group_parents (req e) es = ∅) as ->.
    { apply set_eq. intros p. rewrite elem_of_group_parents. split; [|set_solver].
      intros (e' & He' & Hk & _). exfalso. apply Hkey. unfold edge_key at 1.
      rewrite <- Hk. apply list_elem_of_fmap. by exists e'. }
    rewrite (bool_decide_eq_false_2 (_ ∈ (∅ : gset string)))
      by apply not_elem_of_empty.
    rewrite (bool_decide_eq_false_2 (_ ∈ pairs_of_edges es)).
    + assert (sum_list_with
                (fun r => if same_requirement r (req e) then 1 else 0)
                (first_requirements es) = 0) as ->; [|rewrite size_empty; lia].
      assert (forall r, r ∈ first_requirements es ->
                same_requirement r (req e) = false) as Hnone.
      { intros r Hr. apply same_requirement_false. intros Heq. apply Hkey.
        apply first_requirements_keys. unfold edge_key. rewrite <- Heq.
        apply list_elem_of_fmap. by exists r. }
      induction (first_requirements es) as [|r reps IHr]; [done|].
      cbn [sum_list_with]. rewrite (Hnone r) by left.
      rewrite IHr; [done|]. intros r' Hr'. apply Hnone. by right.
    + rewrite elem_of_pairs_of_edges. intros (e' & He' & Hk & _). apply Hkey.
      rewrite <- Hk. apply list_elem_of_fmap. by exists e'.
Qed.

Lemma requirement_groups_size node :
  sum_list_with (fun group : Requirement * gset string => size group.2)
    (requirement_groups node)
  = size (consumer_pairs node).
Proof. apply groups_of_edges_size. Qed.

(** Every group has at least one parent. *)
Lemma requirement_groups_nonempty node :
  Forall (fun group : Requirement * gset string => 1 <= size group.2)
    (requirement_groups node).
Proof.
  unfold requirement_groups, groups_of_edges. apply Forall_fmap, Forall_forall.
  intros r Hr. simpl.
  assert (requirement_key r ∈ edge_key <$> get_incoming_install_edges node) as Hk.
  { apply first_requirements_keys, list_elem_of_fmap. by exists r. }
  apply list_elem_of_fmap in Hk as (e & Hk & He).
  assert (destination_node e ∈ group_parents r (get_incoming_install_edges node)) as Hin
    by (apply elem_of_group_parents; by exists e).
  assert (size ({[destination_node e]} : gset string)
          <= size (group_parents r (get_incoming_install_edges node))) as Hle
    by (apply subseteq_size; set_solver).
  by rewrite size_singleton in Hle.
Qed.
End Groups.

Lemma apply_acceptances_app uv a1 a2 :
  apply_acceptances uv (a1 ++ a2) = apply_acceptances (apply_acceptances uv a1) a2.
Proof. apply foldl_app. Qed.

Lemma apply_acceptances_NoDup uv acc :
  NoDup uv.*1 -> NoDup (apply_acceptances uv acc).*1.
Proof.
  revert uv. induction acc as [|a acc IH]; intros uv Hnd; simpl; [done|].
  apply IH. rewrite setdefault_update_keys. case_bool_decide; [done|].
  apply NoDup_app. repeat split; [done| |apply NoDup_singleton].
  by intros k Hk ->%list_elem_of_singleton.
Qed.

Lemma apply_acceptances_keys uv acc v :
  v ∈ (apply_acceptances uv acc).*1 <-> v ∈ uv.*1 \/ v ∈ acc.*1.
Proof.
  revert uv. induction acc as [|a acc IH]; intros uv; simpl.
  - split; [by left|]. by intros [?|?%elem_of_nil].
  - rewrite IH, setdefault_update_keys. case_bool_decide as Hin.
    + split; [intros [?|?]; [by left|right; by right]|].
      intros [?|[->|?]%elem_of_cons]; [by left|by left|by right].
    + rewrite elem_of_app, list_elem_of_singleton, elem_of_cons. naive_solver.
Qed.

(** The users accumulated for a version are the parents of its
    acceptances, in order. *)
Lemma apply_acceptances_users uv acc v :
  default [] (dict_get v (apply_acceptances uv acc))
  = default [] (dict_get v uv) ++ users_among v acc.
Proof.
  revert uv. induction acc as [|a acc IH]; intros uv; simpl.
  - by rewrite app_nil_r.
  - rewrite IH, dict_get_setdefault_update. unfold users_among. simpl.
    destruct (decide (a.1 = v)) as [->|Hne].
    + rewrite bool_decide_eq_true_2 by done. simpl. by rewrite <- app_assoc.
    + rewrite bool_decide_eq_false_2 by done. done.
Qed.

Lemma first_usable_Some uv c v :
  first_usable uv c = Some v -> exists users, (v, users) ∈ uv /\ length users = c.
Proof.
  induction uv as [|[v1 users1] uv IH]; simpl; [done|].
  destruct (decide (length users1 = c)) as [Hlen|Hne].
  - intros [= <-]. exists users1. split; [left|done].
  - intros (users & Hin & Hlen)%IH. exists users. split; [by right|done].
Qed.

Lemma first_usable_None uv c :
  first_usable uv c = None -> forall v users, (v, users) ∈ uv -> length users <> c.
Proof.
  induction uv as [|[v1 users1] uv IH]; simpl.
  - by intros _ v users ?%elem_of_nil.
  - destruct (decide (length users1 = c)) as [Hlen|Hne]; [done|].
    intros Hnone v users [[= -> ->]|Hin]%elem_of_cons; [done|by eapply IH].
Qed.

Section DupRun.
Context (versions : list Version).

Lemma dup_run_refl st : dup_run versions [] [] st st.
Proof. repeat split; simpl; [lia|by rewrite app_nil_r]. Qed.

Lemma dup_run_trans g1 g2 l1 l2 a b c :
  dup_run versions g1 l1 a b -> dup_run versions g2 l2 b c ->
  dup_run versions (g1 ++ g2) (l1 ++ l2) a c.
Proof.
  intros (Hu1 & Hc1 & Hp1) (Hu2 & Hc2 & Hp2). repeat split.
  - rewrite Hu2, Hu1, bind_app. symmetry. apply apply_acceptances_app.
  - rewrite Hc2, Hc1, sum_list_with_app. lia.
  - by rewrite Hp2, Hp1, <- app_assoc.
Qed.

Lemma explain_group_run st group :
  dup_run versions [group] (group_lines versions group) st
    (explain_group versions st group).
Proof.
  destruct group as [r parents]. unfold explain_group. repeat split; simpl.
  - rewrite app_nil_r. unfold apply_acceptances, acceptances_of, matched.
    simpl. symmetry. apply foldl_fmap.
  - lia.
Qed.

Lemma foldl_explain_group_run groups st :
  dup_run versions groups (groups ≫= group_lines versions) st
    (foldl (explain_group versions) st groups).
Proof.
  revert st. induction groups as [|group groups IH]; intros st.
  - apply dup_run_refl.
  - apply (dup_run_trans [group] groups _ _ _ (explain_group versions st group)).
    + apply explain_group_run.
    + apply IH.
Qed.

Lemma explain_node_run st node :
  dup_run versions (requirement_groups node) (node_lines versions node) st
    (explain_node versions st node).
Proof.
  unfold explain_node. rewrite parents_by_req_groups.
  destruct (foldl_explain_group_run (requirement_groups node)
              (mkDupState (usable_versions st) (user_counter st)
                 (printed st ++ [DupVersion (version node)])))
    as (Hu & Hc & Hp).
  repeat split; simpl in *; [done|done|].
  by rewrite Hp, <- app_assoc.
Qed.

Lemma foldl_explain_node_run nodes st :
  dup_run versions (nodes ≫= requirement_groups) (nodes ≫= node_lines versions) st
    (foldl (explain_node versions) st nodes).
Proof.
  revert st. induction nodes as [|node nodes IH]; intros st.
  - apply dup_run_refl.
  - apply (dup_run_trans _ _ _ _ _ (explain_node versions st node)).
    + apply explain_node_run.
    + apply IH.
Qed.
End DupRun.

Lemma report_body_detail dep_name nodes : Forall is_detail (report_body dep_name nodes).
Proof.
  unfold report_body. constructor; [done|].
  apply Forall_bind, Forall_true. intros node.
  constructor; [done|]. apply Forall_bind, Forall_true. intros group.
  constructor; [done|]. apply Forall_fmap, Forall_true. done.
Qed.

(** A consumer that declares the dependency under two requirements that
    are different dict keys forms two groups and is counted in each. *)
Lemma parents_by_req_counts_twice node r1 r2 consumer :
  same_requirement r1 r2 = false ->
  get_incoming_install_edges node
  = [mkEdge r1 INSTALL consumer; mkEdge r2 INSTALL consumer] ->
  parents_by_req node = [(r1, {[consumer]}); (r2, {[consumer]})] /\
  sum_list_with (fun group : Requirement * gset string => size group.2)
    (parents_by_req node) = 2.
Proof.
  intros Hne Hedges. unfold parents_by_req. rewrite Hedges.
  cbn [foldl setdefault_update_by req destination_node].
  rewrite Hne. cbn [setdefault_update_by].
  rewrite !(left_id_L ∅ (∪)).
  split; [done|]. cbn [sum_list_with snd]. rewrite !size_singleton. done.
Qed.

(** Two consumers that declare it under requirements that are the same
    dict key form one group, under the requirement met first. *)
Lemma parents_by_req_same_key node r1 r2 c1 c2 :
  same_requirement r1 r2 = true ->
  get_incoming_install_edges node
  = [mkEdge r1 INSTALL c1; mkEdge r2 INSTALL c2] ->
  parents_by_req node = [(r1, {[c1; c2]})].
Proof.
  intros Hsame Hedges. unfold parents_by_req. rewrite Hedges.
  cbn [foldl setdefault_update_by req destination_node].
  rewrite Hsame. by rewrite !(left_id_L ∅ (∪)).
Qed.

Lemma sum_list_with_bind {A B} (f : B -> nat) (g : A -> list B) (l : list A) :
  sum_list_with f (l ≫= g) = sum_list_with (fun x => sum_list_with f (g x)) l.
Proof.
  induction l as [|x l IH]; [done|].
  by rewrite bind_cons, sum_list_with_app, IH.
Qed.

(** The total consumer count is the number of distinct pairs of a
    requirement and a parent, over the nodes of the package. *)
Lemma total_consumers_pairs nodes :
  total_consumers nodes = sum_list_with (fun node => size (consumer_pairs node)) nodes.
Proof.
  unfold total_consumers, all_groups. rewrite sum_list_with_bind.
  rewrite (sum_list_with_Permutation_proper _ _ _
             (sorted_Permutation node_version_leb nodes)).
  apply sum_list_with_ext. intros node _. apply requirement_groups_size.
Qed.

(** The verdict of a report, from the state the loops end in. *)
Lemma explain_package_verdict_of dep_name nodes :
  length nodes <> 1 ->
  exists verdict,
    explain_package dep_name nodes = report_body dep_name nodes ++ [verdict] /\
    ((exists v, verdict = DupUsable dep_name v /\ candidate nodes v /\
                length (accepting_parents nodes v) = total_consumers nodes) \/
     (verdict = DupNoSingle dep_name /\
      forall v, candidate nodes v ->
                length (accepting_parents nodes v) <> total_consumers nodes)).
Proof.
  intros Hlen. unfold explain_package.
  rewrite decide_False by (by rewrite length_fmap).
  set (versions := node_version <$> nodes).
  set (st0 := mkDupState [] 0 [DupName dep_name]).
  destruct (foldl_explain_node_run versions (sorted node_version_leb nodes) st0)
    as (Hu' & Hc' & Hp).
  set (st := foldl (explain_node versions) st0 (sorted node_version_leb nodes)) in *.
  assert (usable_versions st = apply_acceptances [] (acceptances nodes)) as Hu
    by exact Hu'.
  assert (user_counter st = total_consumers nodes) as Hc by exact Hc'.
  clear Hu' Hc'. simpl in Hp.
  assert (NoDup (usable_versions st).*1) as Hnd
    by (rewrite Hu; apply apply_acceptances_NoDup; constructor).
  assert (forall v users, (v, users) ∈ usable_versions st ->
            candidate nodes v /\ users = accepting_parents nodes v) as Hentry.
  { intros v users Hin. split.
    - assert (v ∈ (usable_versions st).*1) as Hv
        by (apply list_elem_of_fmap; by exists (v, users)).
      rewrite Hu in Hv. apply apply_acceptances_keys in Hv as [?%elem_of_nil|?]; done.
    - apply dict_get_elem_of in Hin; [|done].
      pose proof (apply_acceptances_users [] (acceptances nodes) v) as Husers.
      rewrite <- Hu, Hin in Husers. done. }
  eexists. split; [by rewrite Hp|].
  destruct (first_usable (usable_versions st) (user_counter st)) as [v|] eqn:Hfirst.
  - left. exists v. apply first_usable_Some in Hfirst as (users & Hin & Hlen').
    destruct (Hentry _ _ Hin) as [Hcand ->]. by rewrite Hlen', Hc.
  - right. split; [done|]. intros v Hcand Heq.
    assert (is_Some (dict_get v (usable_versions st))) as [users Hget].
    { apply dict_get_is_Some. rewrite Hu. apply apply_acceptances_keys. by right. }
    assert ((v, users) ∈ usable_versions st) as Hin.
    { clear -Hget. induction (usable_versions st) as [|[k1 v1] d IH]; simpl in *; [done|].
      destruct (decide (k1 = v)) as [->|]; [injection Hget as ->; left|right; auto]. }
    destruct (Hentry _ _ Hin) as [_ ->].
    eapply first_usable_None in Hfirst; [|exact Hin]. apply Hfirst. by rewrite Hc.
Qed.

(** C1: for a package with more than one version in the install closure
    the report is the detail lines followed by exactly one verdict.  The
    requirement groups are read off the incoming install edges of the
    nodes: the edges of a node whose requirements are the same dict key
    form one group, holding each parent once.  The total consumer count
    is the sum of the sizes of these groups, which is the number of
    distinct pairs of a requirement and a parent over the nodes: a
    consumer that declares the dependency under two requirements is in
    two groups and counts twice.  The verdict names a version as usable
    by all consumers exactly when the parents accumulated for that
    version, over the groups whose specifier accepts it, are as many as
    the total; when no accepted version reaches that count, the verdict
    is that no single version meets all requirements. *)
Theorem explain_package_verdict (dep_name : string) (nodes : list DependencyNode) :
  length nodes <> 1 ->
  exists verdict,
    explain_package dep_name nodes = report_body dep_name nodes ++ [verdict] /\
    Forall is_detail (report_body dep_name nodes) /\
    total_consumers nodes
    = sum_list_with (fun node => size (consumer_pairs node)) nodes /\
    (forall node e1 e2,
       node ∈ nodes ->
       e1 ∈ get_incoming_install_edges node ->
       e2 ∈ get_incoming_install_edges node ->
       same_requirement (req e1) (req e2) = false ->
       exists i j g1 g2,
         i <> j /\
         requirement_groups node !! i = Some g1 /\
         requirement_groups node !! j = Some g2 /\
         destination_node e1 ∈ g1.2 /\ destination_node e2 ∈ g2.2) /\
    ((exists v, verdict = DupUsable dep_name v /\ candidate nodes v /\
                length (accepting_parents nodes v) = total_consumers nodes) \/
     (verdict = DupNoSingle dep_name /\
      forall v, candidate nodes v ->
                length (accepting_parents nodes v) <> total_consumers nodes)).
Proof.
  intros Hlen.
  destruct (explain_package_verdict_of dep_name nodes Hlen) as (verdict & Hout & Hv).
  exists verdict. split; [done|]. split; [apply report_body_detail|].
  split; [apply total_consumers_pairs|]. split; [|done].
  intros node e1 e2 _ He1 He2 Hdiff.
  assert (forall e, e ∈ get_incoming_install_edges node ->
            exists i g, requirement_groups node !! i = Some g /\
                        requirement_key g.1 = edge_key e /\
                        destination_node e ∈ g.2) as Hgroup.
  { intros e He.
    assert (edge_key e ∈ requirement_key <$>
              first_requirements (get_incoming_install_edges node)) as Hk
      by (apply first_requirements_keys, list_elem_of_fmap; by exists e).
    apply list_elem_of_fmap in Hk as (r & Hk & Hr).
    apply list_elem_of_lookup_1 in Hr as [i Hi].
    exists i, (r, group_parents r (get_incoming_install_edges node)).
    split; [|split; [done|]].
    - unfold requirement_groups, groups_of_edges. by rewrite list_lookup_fmap, Hi.
    - apply elem_of_group_parents. by exists e. }
  destruct (Hgroup e1 He1) as (i & g1 & Hi & Hk1 & Hp1).
  destruct (Hgroup e2 He2) as (j & g2 & Hj & Hk2 & Hp2).
  exists i, j, g1, g2. repeat split; try done.
  intros ->. rewrite Hi in Hj. injection Hj as <-.
  apply same_requirement_false in Hdiff. apply Hdiff.
  fold (edge_key e1). fold (edge_key e2). congruence.
Qed.

(** On the graph where [a] declares [x] under two requirements, [a]
    counts twice: three consumers are expected and no version has them.
    On the graph where [a] and [b] declare it under the same dict key,
    they form one group; with [c] the total is three, and version 2.0,
    accepted by both groups, is usable by all. *)
Lemma explain_package_verdict_witness :
  length (get_nodes_by_name graph_twice "x") <> 1 /\
  length (get_nodes_by_name graph_same_key "x") <> 1 /\
  (total_consumers (get_nodes_by_name graph_twice "x") = 3 /\
   sum_list_with (fun node => size (consumer_pairs node))
     (get_nodes_by_name graph_twice "x") = 3 /\
   last (explain_package "x" (get_nodes_by_name graph_twice "x"))
   = Some (DupNoSingle "x")) /\
  (total_consumers (get_nodes_by_name graph_same_key "x") = 3 /\
   length (accepting_parents (get_nodes_by_name graph_same_key "x") "2.0") = 3 /\
   last (explain_package "x" (get_nodes_by_name graph_same_key "x"))
   = Some (DupUsable "x" "2.0")) /\
  (exists verdict,
     explain_package "x" (get_nodes_by_name graph_same_key "x")
     = report_body "x" (get_nodes_by_name graph_same_key "x") ++ [verdict] /\
     ((exists v, verdict = DupUsable "x" v /\
                 candidate (get_nodes_by_name graph_same_key "x") v /\
                 length (accepting_parents (get_nodes_by_name graph_same_key "x") v)
                 = total_consumers (get_nodes_by_name graph_same_key "x")) \/
      (verdict = DupNoSingle "x" /\
       forall v, candidate (get_nodes_by_name graph_same_key "x") v ->
                 length (accepting_parents (get_nodes_by_name graph_same_key "x") v)
                 <> total_consumers (get_nodes_by_name graph_same_key "x")))).
Proof.
  assert (length (get_nodes_by_name graph_twice "x") <> 1) as Htwice
    by (vm_compute; lia).
  assert (length (get_nodes_by_name graph_same_key "x") <> 1) as Hsame
    by (vm_compute; lia).
  split; [exact Htwice|]. split; [exact Hsame|].
  destruct (explain_package_verdict "x" (get_nodes_by_name graph_twice "x") Htwice)
    as (verdict1 & _ & _ & Htotal1 & _ & _).
  destruct (explain_package_verdict "x" (get_nodes_by_name graph_same_key "x") Hsame)
    as (verdict2 & Hout2 & _ & _ & _ & Hverdict2).
  split; [|split].
  - split; [vm_compute; reflexivity|]. split; [|vm_compute; reflexivity].
    etrans; [symmetry; exact Htotal1|]. vm_compute. reflexivity.
  - vm_compute. split; [reflexivity|]. split; reflexivity.
  - exists verdict2. split; [exact Hout2|exact Hverdict2].
Defined.

(** *** The two scenarios of the report *)

Lemma explain_node_single versions st node r p :
  get_incoming_install_edges node = [mkEdge r INSTALL p] ->
  explain_node versions st node
  = mkDupState
      (apply_acceptances (usable_versions st)
         ((fun mv => (mv, [p])) <$> (version_str <$> specifier_filter (specifier r) versions)))
      (user_counter st + 1)
      (printed st ++
         [DupVersion (version node);
          DupMatches r (version_str <$> specifier_filter (specifier r) versions);
          DupParent p]).
Proof.
  intros Hedges. unfold explain_node, parents_by_req. rewrite Hedges.
  cbn [foldl setdefault_update_by req destination_node explain_group
       usable_versions user_counter printed].
  rewrite (left_id_L ∅ (∪)), elements_singleton, size_singleton.
  f_equal.
  - symmetry. apply foldl_fmap.
  - by rewrite <- app_assoc.
Qed.

Lemma contains_eq w v : contains [(OpEq, w)] v = version_eqb v w.
Proof. unfold contains, clause_contains. simpl. apply andb_true_r. Qed.

Lemma contains_ge w v : contains [(OpGe, w)] v = version_leb w v.
Proof. unfold contains, clause_contains. simpl. apply andb_true_r. Qed.

Lemma node_version_Some node v : version node = Some v -> node_version node = v.
Proof. unfold node_version. by intros ->. Qed.


Lemma group_lines_no_version versions groups :
  omap version_line (groups ≫= group_lines versions) = [].
Proof.
  induction groups as [|group groups IH]; [done|].
  rewrite bind_cons, omap_app, IH, app_nil_r. unfold group_lines.
  induction (elements group.2) as [|p ps IHp]; [done|].
  simpl in *. exact IHp.
Qed.

Lemma node_lines_versions versions l :
  omap version_line (l ≫= node_lines versions) = version <$> l.
Proof.
  induction l as [|node l IH]; [done|].
  rewrite bind_cons, omap_app, IH, fmap_cons. unfold node_lines.
  replace (DupVersion (version node) :: requirement_groups node ≫= group_lines versions)
    with ([DupVersion (version node)] ++ requirement_groups node ≫= group_lines versions)
    by done.
  by rewrite omap_app, group_lines_no_version.
Qed.

(** The version lines of a report are those of the nodes in ascending
    version order. *)
Lemma report_body_versions_ascending dep_name nodes :
  omap version_line (report_body dep_name nodes)
  = version <$> sorted node_version_leb nodes /\
  Sorted (fun a b => version_leb (node_version a) (node_version b) = true)
    (sorted node_version_leb nodes) /\
  sorted node_version_leb nodes ≡ₚ nodes.
Proof.
  split; [|split].
  - unfold report_body.
    exact (node_lines_versions (node_version <$> nodes) (sorted node_version_leb nodes)).
  - apply (sorted_Sorted node_version_leb).
    intros x y. apply version_leb_total.
  - apply sorted_Permutation.
Qed.

(** Every group is matched against all the versions in use. *)
Lemma report_body_matches_all_versions dep_name nodes r ms :
  DupMatches r ms ∈ report_body dep_name nodes ->
  ms = version_str <$> specifier_filter (specifier r) (node_version <$> nodes).
Proof.
  unfold report_body. intros [[=]|Hin]%elem_of_cons.
  apply list_elem_of_bind in Hin as (node & Hin & _).
  apply elem_of_cons in Hin as [[=]|Hin].
  apply list_elem_of_bind in Hin as (group & Hin & _).
  apply elem_of_cons in Hin as [[= -> ->]|Hin]; [done|].
  by apply list_elem_of_fmap in Hin as (? & [=] & _).
Qed.

(** C6: with [x==1.0] required by [a] and [x==2.0] required by [b], the
    report lists version 1.0 and then version 2.0, each requirement
    matched against both versions in use and accepting its own only, and
    ends with the verdict that no single version meets all requirements.
    With [x>=1.0] required by [a] and [x==1.5] required by [b], and
    [x==1.5] one of the versions in use, the report ends with the verdict
    that [x==1.5] is usable by all consumers. *)
Theorem explain_package_pinned_and_range
    (dep_name a b : string) (pinned ranged : list DependencyNode) :
  pinned_scenario a b pinned ->
  range_scenario a b ranged ->
  explain_package dep_name pinned
  = [DupName dep_name;
     DupVersion (Some [1; 0]); DupMatches x_eq_1_0 ["1.0"]; DupParent a;
     DupVersion (Some [2; 0]); DupMatches x_eq_2_0 ["2.0"]; DupParent b;
     DupNoSingle dep_name] /\
  last (explain_package dep_name ranged) = Some (DupUsable dep_name "1.5").
Proof.
  intros (n1 & n2 & [Hv1 He1] & [Hv2 He2] & Hpinned)
         (na & nb & va & [Hva Hea] & Hge & Hne & Hstr & [Hvb Heb] & Hranged).
  pose proof (node_version_Some _ _ Hv1) as Hn1.
  pose proof (node_version_Some _ _ Hv2) as Hn2.
  pose proof (node_version_Some _ _ Hva) as Hna.
  pose proof (node_version_Some _ _ Hvb) as Hnb.
  split.
  - unfold explain_package.
    destruct Hpinned as [-> | ->];
      rewrite decide_False by done;
      unfold sorted; cbn [foldr insert_sorted fmap list_fmap];
      unfold node_version_leb; rewrite Hn1, Hn2;
      cbn [version_leb version_cmp Nat.compare foldl];
      rewrite (explain_node_single _ _ n1 _ _ He1);
      rewrite (explain_node_single _ _ n2 _ _ He2);
      rewrite Hv1, Hv2; reflexivity.
  - unfold explain_package.
    destruct Hranged as [-> | ->];
      rewrite decide_False by done;
      unfold sorted; cbn [foldr insert_sorted fmap list_fmap];
      unfold node_version_leb; rewrite Hna, Hnb;
      [destruct (version_leb va [1; 5]) | destruct (version_leb [1; 5] va)];
      cbn [foldl];
      rewrite (explain_node_single _ _ na _ _ Hea);
      rewrite (explain_node_single _ _ nb _ _ Heb);
      unfold specifier_filter;
      cbn [List.filter specifier x_ge_1_0 x_eq_1_5];
      rewrite !contains_ge, !contains_eq, ?Hge, ?Hne;
      change (version_leb [1; 0] [1; 5]) with true;
      change (version_eqb [1; 5] [1; 5]) with true;
      cbn [fmap list_fmap usable_versions user_counter printed
           apply_acceptances foldl setdefault_update fst snd];
      change (version_str [1; 5]) with "1.5";
      repeat first
        [ rewrite (decide_True (P := "1.5" = "1.5")) by done
        | rewrite (decide_False (P := version_str va = "1.5")) by done
        | rewrite (decide_False (P := "1.5" = version_str va)) by done
        | rewrite (decide_True (P := version_str va = version_str va)) by done
        | progress cbn [setdefault_update] ];
      cbn [first_usable length app Nat.add];
      repeat first
        [ rewrite (decide_True (P := 2 = 2)) by done
        | rewrite (decide_False (P := 1 = 2)) by done
        | progress cbn [first_usable] ];
      reflexivity.
Qed.

Lemma explain_package_pinned_and_range_witness :
  pinned_scenario "a==1" "b==1" (get_nodes_by_name graph_pinned "x") /\
  range_scenario "a==1" "b==1" (get_nodes_by_name graph_range "x") /\
  (explain_package "x" (get_nodes_by_name graph_pinned "x")
   = [DupName "x";
      DupVersion (Some [1; 0]); DupMatches x_eq_1_0 ["1.0"]; DupParent "a==1";
      DupVersion (Some [2; 0]); DupMatches x_eq_2_0 ["2.0"]; DupParent "b==1";
      DupNoSingle "x"] /\
   last (explain_package "x" (get_nodes_by_name graph_range "x"))
   = Some (DupUsable "x" "1.5")).
Proof.
  assert (pinned_scenario "a==1" "b==1" (get_nodes_by_name graph_pinned "x")) as Hp.
  { exists (node_at graph_pinned "x==1.0"), (node_at graph_pinned "x==2.0").
    repeat split; try reflexivity. left. reflexivity. }
  assert (range_scenario "a==1" "b==1" (get_nodes_by_name graph_range "x")) as Hr.
  { exists (node_at graph_range "x==2.0"), (node_at graph_range "x==1.5"), [2; 0].
    repeat split; try reflexivity; [by vm_compute|left; reflexivity]. }
  split; [exact Hp|]. split; [exact Hr|].
  exact (explain_package_pinned_and_range "x" "a==1" "b==1" _ _ Hp Hr).
Defined.

(** The whole command on the two graphs, and on the graph where [a]
    declares [x] under two specifiers: [a] is counted twice, so three
    consumers are expected and no version has them. *)
Example explain_duplicates_pinned :
  explain_duplicates (conflicts_of graph_pinned ["a"; "b"; "x"])
  = [DupName "x";
     DupVersion (Some [1; 0]); DupMatches x_eq_1_0 ["1.0"]; DupParent "a==1";
     DupVersion (Some [2; 0]); DupMatches x_eq_2_0 ["2.0"]; DupParent "b==1";
     DupNoSingle "x"].
Proof. vm_compute. reflexivity. Qed.

Example explain_duplicates_range :
  explain_duplicates (conflicts_of graph_range ["a"; "b"; "x"])
  = [DupName "x";
     DupVersion (Some [1; 5]); DupMatches x_eq_1_5 ["1.5"]; DupParent "b==1";
     DupVersion (Some [2; 0]); DupMatches x_ge_1_0 ["2.0"; "1.5"]; DupParent "a==1";
     DupUsable "x" "1.5"].
Proof. vm_compute. reflexivity. Qed.

Example explain_duplicates_twice :
  last (explain_duplicates (conflicts_of graph_twice ["a"; "b"; "x"]))
  = Some (DupNoSingle "x") /\
  total_consumers (get_nodes_by_name graph_twice "x") = 3 /\
  accepting_parents (get_nodes_by_name graph_twice "x") "2.0" = ["a==1"; "b==1"].
Proof. vm_compute. done. Qed.

(** Requirements written differently that are the same dict key: [a]
    requires [x>=1.0,<3] and [b] requires [X<3,>=1.0].  Both print as
    [x<3,>=1.0] apart from the name, they form one group of two
    consumers at [x==1.0], and with the consumer [c] of [x==2.0] the
    total is three, which version 2.0 reaches. *)
Example explain_duplicates_same_key :
  requirement_str (the_req "x>=1.0,<3") = "x<3,>=1.0" /\
  requirement_str (the_req "X<3,>=1.0") = "X<3,>=1.0" /\
  same_requirement (the_req "x>=1.0,<3") (the_req "X<3,>=1.0") = true /\
  (fun group : Requirement * gset string => (group.1, size group.2))
    <$> parents_by_req (node_at graph_same_key "x==1.0")
  = [(the_req "x>=1.0,<3", 2)] /\
  total_consumers (get_nodes_by_name graph_same_key "x") = 3 /\
  last (explain_duplicates (conflicts_of graph_same_key ["x"]))
  = Some (DupUsable "x" "2.0").
Proof. vm_compute. done. Qed.

(** ** [find_why] and [why] *)

Lemma filtered_out_nil e : filtered_out [] e = false.
Proof. reflexivity. Qed.


Section Loop.
Context (recurse : string -> option (list WhyLine)) (node : DependencyNode)
        (max_depth depth : Z) (filter : list RequirementType).

Local Abbreviation loop := (find_why_loop recurse node max_depth depth filter).



(** A loop that returns has had an answer from every call it made. *)
Lemma find_why_loop_Some_rec a t ps out e :
  loop a t ps = Some out ->
  e ∈ ps -> kept filter e = true -> is_root_edge e = false ->
  descend max_depth depth = true ->
  is_Some (recurse (destination_node e)).
Proof.
  revert a t out. induction ps as [|e' ps IH]; intros a t out Hout He Hk Hroot Hd.
  - by apply elem_of_nil in He.
  - cbn [find_why_loop] in Hout. fold (is_root_edge e') in Hout.
    apply elem_of_cons in He as [<-|He].
    + rewrite Hroot in Hout. unfold kept in Hk. rewrite Hroot in Hk.
      simpl in Hk. apply negb_true_iff in Hk. rewrite Hk, Hd in Hout.
      destruct (recurse (destination_node e)); [eauto|done].
    + destruct (is_root_edge e').
      * destruct (loop a true ps) eqn:Hrest; [|done]. by eapply IH.
      * destruct (filtered_out filter e'); [by eapply IH|].
        destruct (if descend max_depth depth then recurse (destination_node e')
                  else Some []); [|done].
        destruct (loop false t ps) eqn:Hrest; [|done]. by eapply IH.
Qed.

(** Dropped edges leave no trace. *)
Lemma find_why_loop_kept a t ps :
  loop a t ps = loop a t (List.filter (kept filter) ps).
Proof.
  revert a t. induction ps as [|e ps IH]; intros a t; [done|].
  cbn [List.filter find_why_loop]. unfold kept at 1.
  fold (is_root_edge e). destruct (is_root_edge e) eqn:Hroot.
  - cbn [orb find_why_loop]. fold (is_root_edge e). rewrite Hroot.
    by rewrite IH.
  - destruct (filtered_out filter e) eqn:Hf.
    + cbn [orb negb]. apply IH.
    + cbn [orb negb find_why_loop]. fold (is_root_edge e). rewrite Hroot, Hf.
      by rewrite IH.
Qed.

(** Without descent the loop prints the direct report. *)
Lemma find_why_loop_direct a t ps :
  descend max_depth depth = false ->
  loop a t ps
  = Some ((ps ≫= direct_line node depth filter) ++
          (if (a && forallb (fun e => negb (kept filter e) || is_root_edge e) ps) &&
              negb (t || existsb is_root_edge ps)
           then [WhyNoMatch (canonicalized_name node) filter] else [])).
Proof.
  intros Hd. revert a t. induction ps as [|e ps IH]; intros a t.
  - simpl. by rewrite andb_true_r, orb_false_r.
  - cbn [find_why_loop]. rewrite bind_cons. unfold direct_line at 1, kept at 1.
    fold (is_root_edge e). destruct (is_root_edge e) eqn:Hroot.
    + rewrite IH. simpl. rewrite Hroot. simpl.
      by rewrite !orb_true_r.
    + destruct (filtered_out filter e) eqn:Hf.
      * rewrite IH. simpl. by rewrite Hroot, Hf.
      * rewrite Hd, IH. simpl. rewrite Hroot, Hf. cbn [orb negb andb].
        by rewrite andb_false_r.
Qed.
End Loop.

(** With an empty filter nothing differs once an edge has been kept. *)
Lemma find_why_loop_filter_irrelevant recurse node max_depth depth filter a t ps :
  (forall e, e ∈ ps -> kept filter e = true) ->
  a && negb t = false \/ ps <> [] ->
  find_why_loop recurse node max_depth depth filter a t ps
  = find_why_loop recurse node max_depth depth [] a t ps.
Proof.
  revert a t. induction ps as [|e ps IH]; intros a t Hkept Hflags.
  - simpl. destruct Hflags as [-> |?]; done.
  - assert (forall e, e ∈ ps -> kept filter e = true) as Hkept'
      by (intros e' He'; apply Hkept; by right).
    pose proof (Hkept e (list_elem_of_here _ _)) as Hk. unfold kept in Hk.
    cbn [find_why_loop]. fold (is_root_edge e). rewrite filtered_out_nil.
    destruct (is_root_edge e) eqn:Hroot.
    + rewrite (IH a true Hkept'); [done|]. left. apply andb_false_r.
    + simpl in Hk. apply negb_true_iff in Hk. rewrite Hk.
      rewrite (IH false t Hkept'); [done|]. by left.
Qed.


Lemma find_why_loop_node_ext recurse n1 n2 max_depth depth filter a t ps :
  key n1 = key n2 -> canonicalized_name n1 = canonicalized_name n2 ->
  find_why_loop recurse n1 max_depth depth filter a t ps
  = find_why_loop recurse n2 max_depth depth filter a t ps.
Proof.
  intros Hk Hn. revert a t. induction ps as [|e ps IH]; intros a t.
  - simpl. by rewrite Hn.
  - cbn [find_why_loop]. by rewrite Hk, !IH.
Qed.


Lemma filter_all {A} (f : A -> bool) l x : x ∈ List.filter f l -> f x = true.
Proof.
  induction l as [|y l IH]; simpl; [by intros ?%elem_of_nil|].
  destruct (f y) eqn:Hy; [|done].
  intros [->|?]%elem_of_cons; auto.
Qed.

Lemma no_match_condition filter ps :
  (true && forallb (fun e => negb (kept filter e) || is_root_edge e) ps) &&
  negb (false || existsb is_root_edge ps)
  = forallb (fun e => negb (kept filter e)) ps.
Proof.
  induction ps as [|e ps IH]; [done|]. simpl in *. unfold kept at 1 3.
  destruct (is_root_edge e); simpl.
  - apply andb_false_r.
  - destruct (filtered_out filter e); simpl; [exact IH|done].
Qed.




(** C4: the requirement-type filter acts on the first hop only.  An edge
    it drops is skipped entirely: the report is that of the node with
    its dropped incoming edges removed.  If an edge remains, the report
    is also that of the remaining edges with no filter at all, so the
    ancestors above the first hop are explained whatever the types of
    their edges.  If none remains, no path was found and the report is
    the single closing line. *)
Theorem find_why_filters_first_hop_only
    (fuel : nat) (graph : DependencyGraph) (node : DependencyNode)
    (max_depth depth : Z) (filter : list RequirementType) :
  let remaining := List.filter (kept filter) (parents node) in
  find_why fuel graph node max_depth depth filter
  = find_why fuel graph (with_parents node remaining) max_depth depth filter /\
  (remaining <> [] ->
   find_why fuel graph node max_depth depth filter
   = find_why fuel graph (with_parents node remaining) max_depth depth []) /\
  (remaining = [] ->
   find_why (S fuel) graph node max_depth depth filter
   = Some [WhyNoMatch (canonicalized_name node) filter]).
Proof.
  intros remaining.
  assert (find_why fuel graph node max_depth depth filter
          = find_why fuel graph (with_parents node remaining) max_depth depth filter)
    as Hfirst.
  { destruct fuel as [|fuel]; [done|]. cbn [find_why with_parents parents].
    rewrite find_why_loop_kept. by apply find_why_loop_node_ext. }
  split; [exact Hfirst|]. split.
  - intros Hne. rewrite Hfirst. destruct fuel as [|fuel]; [done|].
    cbn [find_why with_parents parents].
    apply find_why_loop_filter_irrelevant; [|by right].
    intros e He. by apply filter_all in He.
  - intros Hnil. cbn [find_why]. rewrite find_why_loop_kept.
    fold remaining. by rewrite Hnil.
Qed.

Lemma find_why_filters_first_hop_only_witness :
  find_why 4 graph_filter (node_at graph_filter "l==1") (-1) 1 [BUILD_SYSTEM]
  = find_why 4 graph_filter
      (with_parents (node_at graph_filter "l==1")
         [mkEdge (mkRequirement "l" []) BUILD_SYSTEM "p==1"]) (-1) 1 [] /\
  find_why 4 graph_filter (node_at graph_filter "l==1") (-1) 1 [TOP_LEVEL]
  = Some [WhyNoMatch (Some "l") [TOP_LEVEL]].
Proof.
  split.
  - apply (proj1 (proj2 (find_why_filters_first_hop_only 4 graph_filter
                           (node_at graph_filter "l==1") (-1) 1 [BUILD_SYSTEM]))).
    by vm_compute.
  - apply (proj2 (proj2 (find_why_filters_first_hop_only 3 graph_filter
                           (node_at graph_filter "l==1") (-1) 1 [TOP_LEVEL]))).
    by vm_compute.
Defined.

(** The build-system edge from [p] passes the filter; above it the
    install edge from [q] is shown although the filter names build-system
    only.  The install edge from [q] to [l] itself is dropped. *)
Example find_why_filter_example :
  find_why 4 graph_filter (node_at graph_filter "l==1") (-1) 1 [BUILD_SYSTEM]
  = Some [WhyDependency 1 BUILD_SYSTEM "p==1" (mkRequirement "l" []);
          WhyDependency 2 INSTALL "q==1" (mkRequirement "p" []);
          WhyToplevel "q==1"].
Proof. vm_compute. reflexivity. Qed.

(** A filter on [build] keeps the build-system edge as well. *)
Example find_why_filter_build_example :
  find_why 4 graph_filter (node_at graph_filter "l==1") (-1) 1 [BUILD]
  = Some [WhyDependency 1 BUILD_SYSTEM "p==1" (mkRequirement "l" []);
          WhyDependency 2 INSTALL "q==1" (mkRequirement "p" []);
          WhyToplevel "q==1"].
Proof. vm_compute. reflexivity. Qed.










Lemma within_graph graph node k0 n :
  nodes graph !! k0 = Some node -> within graph node n ->
  exists k, (k, n) ∈ map_to_list (nodes graph).
Proof.
  intros Hnode [-> |[k Hk]]; [exists k0|exists k]; by apply elem_of_map_to_list.
Qed.




(** The three depths on the chain [ROOT -> t -> m -> l]. *)
Example find_why_depth_examples :
  find_why 3 graph_chain (node_at graph_chain "l==1") 0 1 []
  = Some [WhyDependency 1 INSTALL "m==1" (mkRequirement "l" []);
          WhyDependency 1 BUILD_SYSTEM "t==1" (mkRequirement "l" [])] /\
  find_why 3 graph_chain (node_at graph_chain "m==1") 0 1 []
  = Some [WhyDependency 1 INSTALL "t==1" (mkRequirement "m" [])] /\
  find_why 3 graph_chain (node_at graph_chain "l==1") 1 1 []
  = Some [WhyDependency 1 INSTALL "m==1" (mkRequirement "l" []);
          WhyDependency 2 INSTALL "t==1" (mkRequirement "m" []);
          WhyDependency 1 BUILD_SYSTEM "t==1" (mkRequirement "l" []);
          WhyToplevel "t==1"] /\
  find_why 3 graph_chain (node_at graph_chain "l==1") (-1) 1 []
  = Some [WhyDependency 1 INSTALL "m==1" (mkRequirement "l" []);
          WhyDependency 2 INSTALL "t==1" (mkRequirement "m" []);
          WhyToplevel "t==1";
          WhyDependency 1 BUILD_SYSTEM "t==1" (mkRequirement "l" []);
          WhyToplevel "t==1"].
Proof. vm_compute. done. Qed.



(** *** The toplevel line and the no-match line *)





(** *** [why] on a name without nodes *)

(** C9, as the code has it: when no node matches the package name and
    the version filter, [why] prints nothing at all and ends normally,
    whatever the depth and the requirement types asked for. *)
Theorem why_unknown_name_prints_nothing
    (fuel : nat) (graph : DependencyGraph) (package_name : string)
    (versions : list Version) (depth : Z) (requirement_type : list RequirementType) :
  why_nodes graph package_name versions = [] ->
  why fuel graph package_name versions depth requirement_type = Some [].
Proof. unfold why. by intros ->. Qed.

Lemma why_unknown_name_prints_nothing_witness :
  why_nodes graph_chain "nosuch" [] = [] /\
  why 0 graph_chain "nosuch" [] 0 [] = Some [].
Proof.
  split; [reflexivity|].
  apply (why_unknown_name_prints_nothing 0 graph_chain "nosuch" [] 0 []).
  reflexivity.
Defined.

(** C9, as the claim has it, fails: on a graph without a package of that
    name the command has no node to explain and its output is empty, no
    line reports the missing package. *)
Lemma why_unknown_name_not_reported :
  get_nodes_by_name graph_chain "nosuch" = [] /\
  why 5 graph_chain "nosuch" [] 0 [] = Some [] /\
  ~ (exists out line, why 5 graph_chain "nosuch" [] 0 [] = Some out /\ line ∈ out).
Proof.
  split; [reflexivity|]. split; [reflexivity|].
  intros (out & line & Hout & Hline). vm_compute in Hout.
  injection Hout as <-. by apply elem_of_nil in Hline.
Qed.

(** ** The Makefile export *)

Lemma MakeNode_ind (P : MakeNode -> Prop) :
  (forall t n v c ds, Forall P ds -> P (MkMakeNode t n v c ds)) ->
  forall mn, P mn.
Proof.
  intros H. fix IH 1. intros [t n v c ds]. apply H.
  induction ds as [|d ds IHds]; constructor; [apply IH|exact IHds].
Qed.

Lemma format_unfold mn seen :
  format mn seen
  = if bool_decide (target_name mn ∈ seen) then ([], seen)
    else let '(rules, seen') := format_all (dependencies mn) ({[target_name mn]} ∪ seen) in
         (rule_of mn :: rules, seen').
Proof. destruct mn as [t n v c ds]. reflexivity. Qed.

Lemma dependency_names_spec ds :
  NoDup (dependency_names ds) /\
  forall t, t ∈ dependency_names ds <-> exists d, d ∈ ds /\ target_name d = t.
Proof.
  unfold dependency_names.
  assert (forall names,
            NoDup names ->
            NoDup (foldl (fun names d =>
                            if bool_decide (target_name d ∈ names) then names
                            else names ++ [target_name d]) names ds) /\
            forall t,
              t ∈ foldl (fun names d =>
                           if bool_decide (target_name d ∈ names) then names
                           else names ++ [target_name d]) names ds
              <-> t ∈ names \/ exists d, d ∈ ds /\ target_name d = t) as H.
  { induction ds as [|d ds IH]; intros names Hnd; simpl.
    - split; [done|]. intros t. split; [by left|].
      intros [?|(d & ?%elem_of_nil & _)]; done.
    - case_bool_decide as Hin.
      + destruct (IH names Hnd) as [Hnd' Hiff]. split; [done|].
        intros t. rewrite Hiff. split.
        * intros [?|(d' & Hd' & <-)]; [by left|]. right. exists d'. split; [by right|done].
        * intros [?|(d' & [->|Hd']%elem_of_cons & <-)]; [by left|by left|].
          right. by exists d'.
      + destruct (IH (names ++ [target_name d])) as [Hnd' Hiff].
        { apply NoDup_app. repeat split; [done| |apply NoDup_singleton].
          by intros t Ht ->%list_elem_of_singleton. }
        split; [done|]. intros t. rewrite Hiff, elem_of_app, list_elem_of_singleton.
        split.
        * intros [[?| ->]|(d' & Hd' & <-)]; [by left| |].
          -- right. exists d. split; [left|done].
          -- right. exists d'. split; [by right|done].
        * intros [?|(d' & [->|Hd']%elem_of_cons & <-)];
            [left; by left|left; by right|].
          right. by exists d'. }
  destruct (H [] (NoDup_nil_2)) as [Hnd Hiff]. split; [done|].
  intros t. rewrite Hiff. split; [|by right].
  by intros [?%elem_of_nil|?].
Qed.


Lemma emitted_ok_nil roots seen :
  (forall root, root ∈ roots -> target_name root ∈ seen) ->
  emitted_ok roots seen [] seen.
Proof.
  intros Hroots. split; [|split; [|split; [|split]]]; simpl.
  - intros t. split; [by left|]. by intros [?|?%elem_of_nil].
  - constructor.
  - by intros ? ?%elem_of_nil.
  - by intros ? ?%elem_of_nil.
  - done.
Qed.

Lemma format_all_ok ds :
  Forall (fun d => forall seen,
            emitted_ok [d] seen (format d seen).1 (format d seen).2) ds ->
  forall seen, emitted_ok ds seen (format_all ds seen).1 (format_all ds seen).2.
Proof.
  induction 1 as [|d ds Hd _ IH]; intros seen.
  - apply emitted_ok_nil. by intros ? ?%elem_of_nil.
  - cbn [format_all]. specialize (Hd seen).
    destruct (format d seen) as [r1 s1]. specialize (IH s1).
    destruct (format_all ds s1) as [r2 s2]. simpl in *.
    destruct Hd as (Hs1 & Hnd1 & Hnew1 & Hrule1 & Hroot1).
    destruct IH as (Hs2 & Hnd2 & Hnew2 & Hrule2 & Hroot2).
    assert (forall t, t ∈ s1 -> t ∈ s2) as Hmono
      by (intros t Ht; apply Hs2; by left).
    split; [|split; [|split; [|split]]].
    + intros t. rewrite fmap_app, elem_of_app, Hs2, Hs1. tauto.
    + rewrite fmap_app. apply NoDup_app. repeat split; [done| |done].
      intros t Ht1 Ht2. apply list_elem_of_fmap in Ht2 as (r & -> & Hr).
      apply (Hnew2 r Hr), Hs1. by right.
    + intros r [Hr|Hr]%elem_of_app; [by apply Hnew1|].
      intros Hseen. apply (Hnew2 r Hr), Hs1. by left.
    + intros r [Hr|Hr]%elem_of_app.
      * destruct (Hrule1 r Hr)
          as (root & n & ->%list_elem_of_singleton & Hsub & -> & Hdeps).
        exists d, n. repeat split; [left|done|]. intros d' Hd'. by apply Hmono, Hdeps.
      * destruct (Hrule2 r Hr) as (root & n & Hroot & Hsub & -> & Hdeps).
        exists root, n. repeat split; [by right|done|done].
    + intros root [->|Hroot]%elem_of_cons; [|by apply Hroot2].
      apply Hmono, Hroot1. left.
Qed.

Lemma format_ok mn seen :
  emitted_ok [mn] seen (format mn seen).1 (format mn seen).2.
Proof.
  revert seen. induction mn as [t n v c ds IH] using MakeNode_ind. intros seen.
  rewrite format_unfold. cbn [target_name dependencies].
  case_bool_decide as Hseen.
  - apply emitted_ok_nil. by intros root ->%list_elem_of_singleton.
  - pose proof (format_all_ok ds IH ({[t]} ∪ seen)) as Hall.
    destruct (format_all ds ({[t]} ∪ seen)) as [rules seen']. simpl in *.
    destruct Hall as (Hs & Hnd & Hnew & Hrule & Hroot).
    split; [|split; [|split; [|split]]].
    + intros t'. rewrite Hs, elem_of_union, elem_of_singleton, fmap_cons, elem_of_cons.
      simpl. naive_solver.
    + rewrite fmap_cons. constructor; [|done]. simpl.
      intros Ht. apply list_elem_of_fmap in Ht as (r & Ht & Hr).
      apply (Hnew r Hr). rewrite <- Ht. set_solver.
    + intros r [->|Hr]%elem_of_cons; [done|].
      intros Hin. apply (Hnew r Hr). set_solver.
    + intros r [->|Hr]%elem_of_cons.
      * exists (MkMakeNode t n v c ds), (MkMakeNode t n v c ds).
        repeat split; [left|constructor|]. intros d Hd. by apply Hroot.
      * destruct (Hrule r Hr) as (root & n' & Hin & Hsub & -> & Hdeps).
        exists (MkMakeNode t n v c ds), n'.
        repeat split; [left| |done]. by eapply subnode_below.
    + intros root ->%list_elem_of_singleton. apply Hs. left. set_solver.
Qed.

Lemma NoDup_fmap_unique {A B} (f : A -> B) l x y :
  NoDup (f <$> l) -> x ∈ l -> y ∈ l -> f x = f y -> x = y.
Proof.
  induction l as [|z l IH]; [by intros _ ?%elem_of_nil|].
  rewrite fmap_cons. intros [Hz Hnd]%NoDup_cons.
  intros [->|Hx]%elem_of_cons [->|Hy]%elem_of_cons Heq; [done| | |by apply IH].
  - exfalso. apply Hz. rewrite Heq. apply list_elem_of_fmap. by exists y.
  - exfalso. apply Hz. rewrite <- Heq. apply list_elem_of_fmap. by exists x.
Qed.

(** C7: a call of [format] on a node whose target is in [seen] emits
    nothing; otherwise it emits the rule block of that node first.  The
    blocks emitted have pairwise distinct targets, none of which was in
    [seen] before the call: a target already emitted is not emitted
    again.  Each block is the rule of a node below [top], and its
    dependency list names every dependency of that node, once each,
    whether or not that dependency had been emitted before; every
    dependency so named was in [seen] before the call or has exactly one
    rule block in the output.  In particular, when the blocks of two
    nodes [a] and [b] are in the output and both nodes depend on [c],
    whose target was not in [seen], the output holds exactly one block
    with the target of [c], and the dependency lists of the blocks of
    [a] and of [b] both name it. *)
Theorem format_emits_each_target_once (top : MakeNode) (seen : gset string) :
  let rules := (format top seen).1 in
  (target_name top ∈ seen -> rules = []) /\
  (target_name top ∉ seen -> head rules = Some (rule_of top)) /\
  NoDup (rule_target <$> rules) /\
  (forall r, r ∈ rules -> rule_target r ∉ seen) /\
  (forall r, r ∈ rules ->
     exists n, subnode n top /\ r = rule_of n /\
       NoDup (rule_dependencies r) /\
       forall d, d ∈ dependencies n ->
         target_name d ∈ rule_dependencies r /\
         (target_name d ∈ seen \/
          exists r', (r' ∈ rules /\ rule_target r' = target_name d) /\
                     forall r'', r'' ∈ rules /\ rule_target r'' = target_name d ->
                                 r'' = r')) /\
  (forall a b c,
     rule_of a ∈ rules -> rule_of b ∈ rules ->
     c ∈ dependencies a -> c ∈ dependencies b ->
     target_name c ∉ seen ->
     target_name c ∈ rule_dependencies (rule_of a) /\
     target_name c ∈ rule_dependencies (rule_of b) /\
     exists r, (r ∈ rules /\ rule_target r = target_name c) /\
               forall r', r' ∈ rules /\ rule_target r' = target_name c -> r' = r).
Proof.
  intros rules. destruct (format_ok top seen) as (Hs & Hnd & Hnew & Hrule & _).
  fold rules in Hs, Hnd, Hnew, Hrule.
  assert (forall n d, rule_of n ∈ rules -> d ∈ dependencies n ->
            target_name d ∈ rule_dependencies (rule_of n) /\
            (target_name d ∈ seen \/
             exists r', (r' ∈ rules /\ rule_target r' = target_name d) /\
                        forall r'', r'' ∈ rules /\ rule_target r'' = target_name d ->
                                    r'' = r')) as Hdep.
  { intros n d Hn Hd.
    assert (target_name d ∈ rule_dependencies (rule_of n)) as Hnamed
      by (apply dependency_names_spec; by exists d).
    split; [done|].
    destruct (Hrule _ Hn) as (root & n' & _ & _ & Heq & Hdeps).
    rewrite Heq in Hnamed. apply dependency_names_spec in Hnamed as (d' & Hd' & Ht).
    specialize (Hdeps d' Hd'). rewrite Ht in Hdeps.
    apply Hs in Hdeps as [?|Hin]; [by left|].
    right. apply list_elem_of_fmap in Hin as (r' & Hr't & Hr').
    exists r'. split; [done|].
    intros r'' [Hr'' Ht'']. apply (NoDup_fmap_unique rule_target rules); try done.
    by rewrite Ht''. }
  split; [|split; [|split; [done|split; [done|split]]]].
  - intros Hin. unfold rules. rewrite format_unfold.
    by rewrite bool_decide_eq_true_2.
  - intros Hnot. unfold rules. rewrite format_unfold.
    rewrite bool_decide_eq_false_2 by done.
    by destruct (format_all (dependencies top) ({[target_name top]} ∪ seen)).
  - intros r Hr.
    destruct (Hrule r Hr) as (root & n & ->%list_elem_of_singleton & Hsub & -> & _).
    exists n. split; [done|]. split; [done|].
    split; [apply dependency_names_spec|].
    intros d Hd. by apply Hdep.
  - intros a b c Ha Hb Hca Hcb Hc.
    destruct (Hdep a c Ha Hca) as [Hna [?|Hone]]; [done|].
    destruct (Hdep b c Hb Hcb) as [Hnb _]. done.
Qed.

(** On the diamond: the output of [to_makefile] begins with the rule of
    [all]; the rules of the install stages of [a] and of [b] are in it
    and both name [c__1], which has exactly one rule block. *)
Lemma format_emits_each_target_once_witness :
  let rules := (format diamond_top ∅).1 in
  snd <$> to_makefile 3 graph_diamond "" "http://sdists" = Some rules /\
  head rules = Some (mkRule "all" ["a__1"; "b__1"] "") /\
  mkRule "a__1__install" ["c__1"] "" ∈ rules /\
  mkRule "b__1__install" ["c__1"] "" ∈ rules /\
  exists r, (r ∈ rules /\ rule_target r = "c__1") /\
            forall r', r' ∈ rules /\ rule_target r' = "c__1" -> r' = r.
Proof.
  intros rules.
  destruct (format_emits_each_target_once diamond_top ∅)
    as (_ & Hhead & _ & _ & _ & Hdiamond).
  fold rules in Hhead, Hdiamond.
  assert (rule_of (stage_at diamond_top 0 1) ∈ rules) as Ha
    by (vm_compute; do 3 right; left).
  assert (rule_of (stage_at diamond_top 1 1) ∈ rules) as Hb
    by (vm_compute; do 8 right; left).
  split; [vm_compute; reflexivity|].
  split; [apply Hhead; by vm_compute|].
  split; [exact Ha|]. split; [exact Hb|].
  destruct (Hdiamond (stage_at diamond_top 0 1) (stage_at diamond_top 1 1)
              (dependency_at (stage_at diamond_top 0 1) 0) Ha Hb)
    as (_ & _ & Hone).
  - vm_compute. left.
  - vm_compute. left.
  - by vm_compute.
  - exact Hone.
Defined.

(** The diamond: [a] and [b] both depend on [c].  The rule block of
    [c__1] is emitted once, below [a]; the install stages of [a] and of
    [b] both name it. *)
Example to_makefile_diamond :
  snd <$> to_makefile 3 graph_diamond "" "http://sdists"
  = Some
      [mkRule "all" ["a__1"; "b__1"] "";
       mkRule "a__1" ["a__1__wheel"; "a__1__install"] "";
       mkRule "a__1__wheel" []
         (tab +:+ "fromager build $(WHEEL_SERVER_ARGS) a 1 $(SDIST_SERVER_URL)");
       mkRule "a__1__install" ["c__1"] "";
       mkRule "c__1" ["c__1__wheel"] "";
       mkRule "c__1__wheel" []
         (tab +:+ "fromager build $(WHEEL_SERVER_ARGS) c 1 $(SDIST_SERVER_URL)");
       mkRule "b__1" ["b__1__wheel"; "b__1__install"] "";
       mkRule "b__1__wheel" []
         (tab +:+ "fromager build $(WHEEL_SERVER_ARGS) b 1 $(SDIST_SERVER_URL)");
       mkRule "b__1__install" ["c__1"] ""].
Proof. vm_compute. reflexivity. Qed.

Lemma children_ranked_step graph rank node c k :
  children_ranked graph rank node -> nodes graph !! k = Some c ->
  children_ranked graph rank c.
Proof.
  intros Hranked Hc n [-> |Hn]; apply Hranked; [right; eauto|by right].
Qed.

(** On an acyclic graph the conversion returns. *)
Lemma from_graph_node_returns graph rank fuel node :
  children_ranked graph rank node -> rank node < fuel ->
  is_Some (from_graph_node fuel graph node).
Proof.
  revert node. induction fuel as [|fuel IH]; intros node Hranked Hfuel; [lia|].
  cbn [from_graph_node].
  destruct (mapM (convert_child (from_graph_node fuel graph) graph) (children node))
    as [converted|] eqn:Hmap; [simpl; eauto|].
  exfalso. assert (is_Some (mapM (convert_child (from_graph_node fuel graph) graph)
                              (children node))) as [? Hsome]; [|congruence].
  apply mapM_is_Some, Forall_forall. intros e He.
  destruct (Hranked node (or_introl eq_refl) e He) as (c & Hc & Hlt).
  destruct (IH c (children_ranked_step _ _ _ _ _ Hranked Hc)) as [mn Hmn]; [lia|].
  unfold convert_child. simpl. rewrite Hc. simpl. rewrite Hmn. simpl. eauto.
Qed.

Lemma convert_child_Some graph fuel e c :
  convert_child (from_graph_node fuel graph) graph e = Some c ->
  c.1 = req_type e /\ converts graph e c.2.
Proof.
  unfold convert_child.
  destruct (nodes graph !! destination_node e) as [child|] eqn:Hchild; [|done].
  simpl. destruct (from_graph_node fuel graph child) as [mn|] eqn:Hmn; [|done].
  simpl. intros [= <-]. split; [done|]. by exists child, fuel.
Qed.

Lemma is_build_spec c : is_build c = is_build_type c.1.
Proof. unfold is_build. by destruct c.1. Qed.

Lemma converted_stage graph fuel es converted (keep : bool) :
  Forall2 (fun e c => convert_child (from_graph_node fuel graph) graph e = Some c)
    es converted ->
  Forall2 (converts graph)
    (List.filter (fun e => if keep then is_build_edge e else negb (is_build_edge e)) es)
    (snd <$> List.filter (fun c => if keep then is_build c else negb (is_build c))
               converted).
Proof.
  induction 1 as [|e c es converted Hc _ IH]; [constructor|].
  apply convert_child_Some in Hc as [Htype Hconv].
  cbn [List.filter]. rewrite !is_build_spec. unfold is_build_edge at 1 2.
  rewrite Htype.
  destruct keep, (is_build_type (req_type e)); cbn [negb]; try done;
    rewrite fmap_cons; by constructor.
Qed.

Lemma converted_split graph fuel es converted (keep : bool) :
  Forall2 (fun e c => convert_child (from_graph_node fuel graph) graph e = Some c)
    es converted ->
  snd <$> List.filter (fun c => if keep then is_build c else negb (is_build c))
            converted = []
  <-> List.filter (fun e => if keep then is_build_edge e else negb (is_build_edge e)) es
      = [].
Proof.
  intros H%(converted_stage graph fuel es converted keep).
  destruct H; done.
Qed.

(** C3, as the code has it: on an acyclic graph the conversion of a node
    returns, and what it returns is the target of the node with, in this
    order, the build stage, present exactly when some child is reached
    through a build-type edge, over the conversions of those children;
    the wheel stage, always present, with the build command of the
    node's name and version and no dependencies of its own, whether or
    not there is a build stage; and the install stage, present exactly
    when some child is reached through another edge, over the
    conversions of those children. *)
Theorem from_graph_node_stages
    (fuel : nat) (graph : DependencyGraph) (node : DependencyNode)
    (rank : DependencyNode -> nat) :
  (children_ranked graph rank node -> rank node < fuel ->
   is_Some (from_graph_node fuel graph node)) /\
  (forall mn, from_graph_node fuel graph node = Some mn -> stages_of graph node mn).
Proof.
  split; [apply from_graph_node_returns|].
  intros mn Hmn. destruct fuel as [|fuel]; [done|]. cbn [from_graph_node] in Hmn.
  destruct (mapM (convert_child (from_graph_node fuel graph) graph) (children node))
    as [converted|] eqn:Hmap; [|done].
  apply mapM_Some in Hmap. simpl in Hmn. injection Hmn as <-.
  exists (snd <$> List.filter is_build converted),
         (snd <$> List.filter (fun c => negb (is_build c)) converted).
  split; [exact (converted_stage graph fuel _ _ true Hmap)|].
  split; [exact (converted_stage graph fuel _ _ false Hmap)|].
  cbn [dependencies].
  rewrite (bool_decide_ext _ _ (converted_split graph fuel _ _ true Hmap)).
  rewrite (bool_decide_ext _ _ (converted_split graph fuel _ _ false Hmap)).
  reflexivity.
Qed.

Lemma graph_stages_ranked :
  children_ranked graph_stages stages_rank (node_at graph_stages "p==1").
Proof.
  intros n Hn e He.
  destruct (within_graph graph_stages _ "p==1" n
              ltac:(vm_compute; reflexivity) Hn) as [k Hk].
  vm_compute in Hk.
  repeat (apply elem_of_cons in Hk as [Hk|Hk]; [injection Hk as -> ->|]);
    [..|by apply elem_of_nil in Hk];
    vm_compute in He;
    repeat (apply elem_of_cons in He as [->|He]);
    try (by apply elem_of_nil in He);
    eexists; (split; [vm_compute; reflexivity|vm_compute; lia]).
Qed.

Lemma from_graph_node_stages_witness :
  is_Some (from_graph_node 2 graph_stages (node_at graph_stages "p==1")) /\
  (forall mn, from_graph_node 2 graph_stages (node_at graph_stages "p==1") = Some mn ->
              stages_of graph_stages (node_at graph_stages "p==1") mn).
Proof.
  destruct (from_graph_node_stages 2 graph_stages (node_at graph_stages "p==1")
              stages_rank) as [Hsome Hstages].
  split; [|exact Hstages].
  apply Hsome; [exact graph_stages_ranked|vm_compute; lia].
Defined.

(** C3, as the claim has it, fails.  [p] has four children, reached
    through a [build], a [build-system], a [build-backend] and an
    [install] edge.  The build stage is there, over the first three
    children, and the install stage over the last; but the wheel stage
    has no dependency at all: its rule names nothing, and it comes after
    the build stage only in the dependency list of the target of [p]. *)
Lemma from_graph_node_stages_counterexample :
  req_type <$> children (node_at graph_stages "p==1")
  = [BUILD; BUILD_SYSTEM; BUILD_BACKEND; INSTALL] /\
  exists mn build wheel install,
    from_graph_node 2 graph_stages (node_at graph_stages "p==1") = Some mn /\
    dependencies mn = [build; wheel; install] /\
    target_name build = "p__1__build" /\
    target_name <$> dependencies build = ["q__1"; "s__1"; "k__1"] /\
    target_name wheel = "p__1__wheel" /\
    dependencies wheel = [] /\
    rule_dependencies (rule_of wheel) = [] /\
    target_name install = "p__1__install" /\
    target_name <$> dependencies install = ["i__1"] /\
    ~ (exists d, d ∈ dependencies wheel /\ target_name d = target_name build).
Proof.
  split; [reflexivity|].
  do 4 eexists. split; [vm_compute; reflexivity|].
  repeat split. intros (d & Hd & _). by apply elem_of_nil in Hd.
Qed.

(** ** [write_dot] *)

Lemma nat_str_inj n m : nat_str n = nat_str m -> n = m.
Proof.
  unfold nat_str. intros H.
  assert (forall k, Nat.of_uint <$> NilZero.uint_of_string
                      (NilZero.string_of_uint (Nat.to_uint k)) = Some k) as Hrt.
  { intros k. destruct (NilZero.usu_gen (Nat.to_uint k)) as [-> | Hz].
    - simpl. by rewrite DecimalNat.Unsigned.of_to.
    - rewrite Hz. simpl. f_equal.
      rewrite <- (DecimalNat.Unsigned.of_to k).
      destruct (Nat.to_uint k) eqn:Hk; [reflexivity|..];
        rewrite NilZero.usu in Hz by done; by injection Hz as ->. }
  pose proof (Hrt n) as Hn. rewrite H, Hrt in Hn. by injection Hn.
Qed.

Lemma node_name_inj i j : node_name i = node_name j -> i = j.
Proof. unfold node_name. intros [=]. by apply nat_str_inj. Qed.

Lemma ids_ok_init : ids_ok (mkIdState ∅ 1).
Proof. split; [done|]. split; intros; simplify_map_eq. Qed.

(** One request: the identifiers already held are kept, the key holds
    the identifier returned, and the counter does not go back. *)
Lemma get_node_id_spec st k :
  ids_ok st ->
  ids_ok (get_node_id st k).2 /\
  seen_nodes st ⊆ seen_nodes (get_node_id st k).2 /\
  seen_nodes (get_node_id st k).2 !! k = Some (get_node_id st k).1.
Proof.
  intros (Hpos & Hrange & Hinj). unfold get_node_id.
  destruct (seen_nodes st !! k) as [id|] eqn:Hk; simpl.
  - done.
  - split; [split; [simpl; lia|split; simpl]|split].
    + intros k' v. rewrite lookup_insert. case_decide as Heq.
      * intros [= <-]. exists (next_id st). split; [lia|done].
      * intros (i & Hi & ->)%Hrange. exists i. split; [lia|done].
    + intros k1 k2 v. rewrite !lookup_insert.
      repeat case_decide; subst; try done.
      * intros [= <-] (i & Hi & Hv%node_name_inj)%Hrange. lia.
      * intros (i & Hi & Hv)%Hrange [= <-]. apply node_name_inj in Hv. lia.
      * apply Hinj.
    + by apply insert_subseteq.
    + by rewrite lookup_insert_eq.
Qed.

Lemma id_of_extends st st' k v :
  seen_nodes st ⊆ seen_nodes st' -> seen_nodes st !! k = Some v -> id_of st' k = v.
Proof.
  intros Hsub Hk. unfold id_of.
  by rewrite (lookup_weaken _ _ _ _ Hk Hsub).
Qed.

(** The effect of a loop of [write_dot] from [acc] to [acc']: the state
    stays well formed and only grows, every key of [keys] has an
    identifier afterwards, and the lines added are [lines], read with
    the identifiers of any later state. *)
Lemma dot_node_loop falsy ic nodes acc :
  ids_ok acc.1 ->
  let acc' := foldl (dot_node_step falsy ic) acc nodes in
  ids_ok acc'.1 /\ seen_nodes acc.1 ⊆ seen_nodes acc'.1 /\
  (forall n, n ∈ nodes -> is_Some (seen_nodes acc'.1 !! key n)) /\
  forall st, seen_nodes acc'.1 ⊆ seen_nodes st ->
    acc'.2 = acc.2 ++ dot_node_lines falsy ic (id_of st) nodes.
Proof.
  revert acc. induction nodes as [|n nodes IH]; intros acc Hok; simpl.
  - split; [done|]. split; [done|]. split; [by intros ? ?%elem_of_nil|].
    intros st _. by rewrite app_nil_r.
  - destruct (get_node_id_spec acc.1 (key n) Hok) as (Hok1 & Hsub1 & Hk1).
    destruct (get_node_id acc.1 (key n)) as [node_id st1] eqn:Hg. simpl in *.
    assert (dot_node_step falsy ic acc n
            = (st1, acc.2 ++ [DotNode node_id (node_properties falsy ic n)])) as ->
      by (unfold dot_node_step; by rewrite Hg).
    destruct (IH (st1, acc.2 ++ [DotNode node_id (node_properties falsy ic n)]) Hok1)
      as (Hok2 & Hsub2 & Hkeys & Hlines). simpl in *.
    split; [done|]. split; [exact (transitivity Hsub1 Hsub2)|]. split.
    + intros n' [->|Hn']%elem_of_cons; [|by apply Hkeys].
      exists node_id. by eapply lookup_weaken.
    + intros st Hst. rewrite (Hlines st Hst), <- app_assoc. simpl.
      rewrite (id_of_extends st1 st (key n) node_id); [done| |done].
      exact (transitivity Hsub2 Hst).
Qed.

Lemma dot_edge_loop node_id edges acc :
  ids_ok acc.1 ->
  let acc' := foldl (dot_edge_step node_id) acc edges in
  ids_ok acc'.1 /\ seen_nodes acc.1 ⊆ seen_nodes acc'.1 /\
  (forall e, e ∈ edges -> is_Some (seen_nodes acc'.1 !! destination_node e)) /\
  forall st, seen_nodes acc'.1 ⊆ seen_nodes st ->
    acc'.2 = acc.2 ++
      ((fun e => DotEdge node_id (id_of st (destination_node e)) (edge_properties e))
         <$> edges).
Proof.
  revert acc. induction edges as [|e edges IH]; intros acc Hok; simpl.
  - split; [done|]. split; [done|]. split; [by intros ? ?%elem_of_nil|].
    intros st _. by rewrite app_nil_r.
  - destruct (get_node_id_spec acc.1 (destination_node e) Hok) as (Hok1 & Hsub1 & Hk1).
    destruct (get_node_id acc.1 (destination_node e)) as [child_id st1] eqn:Hg.
    simpl in *.
    assert (dot_edge_step node_id acc e
            = (st1, acc.2 ++ [DotEdge node_id child_id (edge_properties e)])) as ->
      by (unfold dot_edge_step; by rewrite Hg).
    destruct (IH (st1, acc.2 ++ [DotEdge node_id child_id (edge_properties e)]) Hok1)
      as (Hok2 & Hsub2 & Hkeys & Hlines). simpl in *.
    split; [done|]. split; [exact (transitivity Hsub1 Hsub2)|]. split.
    + intros e' [->|He']%elem_of_cons; [|by apply Hkeys].
      exists child_id. by eapply lookup_weaken.
    + intros st Hst. rewrite (Hlines st Hst), <- app_assoc. simpl.
      rewrite (id_of_extends st1 st (destination_node e) child_id); [done| |done].
      exact (transitivity Hsub2 Hst).
Qed.

Lemma dot_edges_loop nodes acc :
  ids_ok acc.1 ->
  let acc' := foldl dot_edges_step acc nodes in
  ids_ok acc'.1 /\ seen_nodes acc.1 ⊆ seen_nodes acc'.1 /\
  (forall n, n ∈ nodes ->
     is_Some (seen_nodes acc'.1 !! key n) /\
     forall e, e ∈ children n -> is_Some (seen_nodes acc'.1 !! destination_node e)) /\
  forall st, seen_nodes acc'.1 ⊆ seen_nodes st ->
    acc'.2 = acc.2 ++ dot_edge_lines (id_of st) nodes.
Proof.
  revert acc. induction nodes as [|n nodes IH]; intros acc Hok; cbn [foldl].
  - split; [done|]. split; [done|]. split; [by intros ? ?%elem_of_nil|].
    intros st _. unfold dot_edge_lines. simpl. by rewrite app_nil_r.
  - destruct (get_node_id_spec acc.1 (key n) Hok) as (Hok1 & Hsub1 & Hk1).
    destruct (get_node_id acc.1 (key n)) as [node_id st1] eqn:Hg.
    cbn [fst snd] in *.
    assert (dot_edges_step acc n
            = foldl (dot_edge_step node_id) (st1, acc.2) (children n)) as ->
      by (unfold dot_edges_step; by rewrite Hg).
    destruct (dot_edge_loop node_id (children n) (st1, acc.2) Hok1)
      as (Hok2 & Hsub2 & Hkeys2 & Hlines2). cbn [fst snd] in *.
    destruct (IH (foldl (dot_edge_step node_id) (st1, acc.2) (children n)) Hok2)
      as (Hok3 & Hsub3 & Hkeys3 & Hlines3).
    split; [done|]. split; [exact (transitivity Hsub1 (transitivity Hsub2 Hsub3))|]. split.
    + intros n' [->|Hn']%elem_of_cons; [|by apply Hkeys3]. split.
      * exists node_id. eapply lookup_weaken; [exact Hk1|].
        exact (transitivity Hsub2 Hsub3).
      * intros e He. destruct (Hkeys2 e He) as [v Hv]. exists v.
        by eapply lookup_weaken.
    + intros st Hst. rewrite (Hlines3 st Hst).
      rewrite (Hlines2 st) by exact (transitivity Hsub3 Hst).
      unfold dot_edge_lines. rewrite bind_cons, <- !app_assoc.
      rewrite (id_of_extends st1 st (key n) node_id); [done| |done].
      exact (transitivity Hsub2 (transitivity Hsub3 Hst)).
Qed.

Lemma dot_node_loop_numbers falsy ic nodes acc :
  ids_ok acc.1 -> NoDup (key <$> nodes) ->
  (forall n, n ∈ nodes -> seen_nodes acc.1 !! key n = None) ->
  forall i n, nodes !! i = Some n ->
    seen_nodes (foldl (dot_node_step falsy ic) acc nodes).1 !! key n
    = Some (node_name (next_id acc.1 + i)).
Proof.
  revert acc. induction nodes as [|n0 nodes IH]; intros acc Hok Hnd Hfresh i n Hi;
    [done|].
  rewrite fmap_cons in Hnd. apply NoDup_cons in Hnd as [Hn0 Hnd].
  cbn [foldl].
  pose proof (Hfresh n0 (list_elem_of_here _ _)) as Hnone.
  assert (dot_node_step falsy ic acc n0
          = (mkIdState (<[key n0 := node_name (next_id acc.1)]> (seen_nodes acc.1))
               (S (next_id acc.1)),
             acc.2 ++ [DotNode (node_name (next_id acc.1))
                         (node_properties falsy ic n0)])) as Hstep
    by (unfold dot_node_step, get_node_id; by rewrite Hnone).
  pose proof (get_node_id_spec acc.1 (key n0) Hok) as (Hok1 & _ & _).
  unfold get_node_id in Hok1. rewrite Hnone in Hok1. simpl in Hok1.
  rewrite Hstep.
  set (acc1 := (mkIdState (<[key n0 := node_name (next_id acc.1)]> (seen_nodes acc.1))
                  (S (next_id acc.1)),
                acc.2 ++ [DotNode (node_name (next_id acc.1))
                            (node_properties falsy ic n0)])).
  destruct i as [|i]; simpl in Hi.
  - injection Hi as <-. rewrite Nat.add_0_r.
    destruct (dot_node_loop falsy ic nodes acc1 Hok1) as (_ & Hsub & _).
    eapply lookup_weaken; [|exact Hsub]. simpl. by rewrite lookup_insert_eq.
  - assert (forall n', n' ∈ nodes -> seen_nodes acc1.1 !! key n' = None) as Hfresh'.
    { intros n' Hn'. simpl. rewrite lookup_insert_ne.
      - apply Hfresh. by right.
      - intros Heq. apply Hn0. rewrite Heq. apply list_elem_of_fmap. by exists n'. }
    rewrite (IH acc1 Hok1 Hnd Hfresh' i n Hi). simpl. do 2 f_equal. lia.
Qed.

(** The two loops of [write_dot], read with the identifiers of the
    final state; every key asked for has an identifier there. *)
Lemma write_dot_run_lines falsy install_constraints all_nodes :
  let run := write_dot_run falsy install_constraints all_nodes in
  ids_ok run.1 /\
  (forall k, k ∈ dot_keys all_nodes -> is_Some (seen_nodes run.1 !! k)) /\
  run.2 = [DotText "digraph {"; DotText ""] ++
          dot_node_lines falsy install_constraints (id_of run.1) all_nodes ++
          [DotText ""] ++
          dot_edge_lines (id_of run.1) all_nodes ++
          [DotText "}"].
Proof.
  unfold write_dot_run.
  set (acc0 := (mkIdState ∅ 1, [DotText "digraph {"; DotText ""])).
  destruct (dot_node_loop falsy install_constraints all_nodes acc0 ids_ok_init)
    as (Hok1 & Hsub1 & Hkeys1 & Hlines1).
  set (acc1 := foldl (dot_node_step falsy install_constraints) acc0 all_nodes) in *.
  destruct (dot_edges_loop all_nodes (acc1.1, acc1.2 ++ [DotText ""]) Hok1)
    as (Hok2 & Hsub2 & Hkeys2 & Hlines2).
  set (acc2 := foldl dot_edges_step (acc1.1, acc1.2 ++ [DotText ""]) all_nodes) in *.
  cbn [fst snd] in *. split; [done|]. split.
  - intros k [Hk|Hk]%elem_of_app.
    + apply list_elem_of_fmap in Hk as (n & -> & Hn). by apply Hkeys2.
    + apply list_elem_of_bind in Hk as (n & Hk & Hn).
      destruct (Hkeys2 n Hn) as [Hkey Hedges].
      apply elem_of_cons in Hk as [->|Hk]; [done|].
      apply list_elem_of_fmap in Hk as (e & -> & He). by apply Hedges.
  - rewrite (Hlines2 acc2.1) by done. rewrite (Hlines1 acc2.1) by done.
    simpl. by rewrite <- !app_assoc.
Qed.

(** X1: the output of [write_dot] is the opening line, a blank line,
    one declaration per node in the order of [get_all_nodes], a blank
    line, one line per outgoing edge in the same order, and the closing
    line; the identifiers in these lines come from one naming of the keys
    that gives different keys different identifiers. *)
Theorem write_dot_layout
    (falsy : DependencyNode -> bool) (install_constraints : gset string)
    (all_nodes : list DependencyNode) :
  let run := write_dot_run falsy install_constraints all_nodes in
  run.2 = [DotText "digraph {"; DotText ""] ++
          dot_node_lines falsy install_constraints (id_of run.1) all_nodes ++
          [DotText ""] ++
          dot_edge_lines (id_of run.1) all_nodes ++
          [DotText "}"] /\
  (forall k k', k ∈ dot_keys all_nodes -> k' ∈ dot_keys all_nodes ->
     id_of run.1 k = id_of run.1 k' -> k = k').
Proof.
  intros run.
  destruct (write_dot_run_lines falsy install_constraints all_nodes)
    as ((_ & _ & Hinj) & Hall & Hlines).
  fold run in Hinj, Hall, Hlines. split; [exact Hlines|].
  intros k k' [v Hk]%Hall [v' Hk']%Hall. unfold id_of. rewrite Hk, Hk'. simpl.
  intros <-. by eapply Hinj.
Qed.

(** X2: when the nodes have pairwise distinct keys, the declaration of
    the [i]-th node (counting from 0) carries the identifier
    [node(i+1)]; and when every edge leads to a node of the graph, both
    ends of every edge line are declared by a node line. *)
Theorem write_dot_numbers_and_declares
    (falsy : DependencyNode -> bool) (install_constraints : gset string)
    (all_nodes : list DependencyNode) :
  NoDup (key <$> all_nodes) ->
  let run := write_dot_run falsy install_constraints all_nodes in
  (forall i n, all_nodes !! i = Some n ->
     DotNode (node_name (S i)) (node_properties falsy install_constraints n) ∈ run.2) /\
  ((forall n e, n ∈ all_nodes -> e ∈ children n ->
      exists m, m ∈ all_nodes /\ key m = destination_node e) ->
   forall a b p, DotEdge a b p ∈ run.2 ->
     (exists pa, DotNode a pa ∈ run.2) /\ (exists pb, DotNode b pb ∈ run.2)).
Proof.
  intros Hnd run.
  destruct (write_dot_run_lines falsy install_constraints all_nodes)
    as (_ & _ & Hlayout).
  fold run in Hlayout.
  assert (forall n, n ∈ all_nodes ->
            DotNode (id_of run.1 (key n))
              (node_properties falsy install_constraints n) ∈ run.2) as Hdecl.
  { intros n Hn. rewrite Hlayout. apply elem_of_app. right. apply elem_of_app. left.
    apply list_elem_of_fmap. by exists n. }
  split.
  - intros i n Hi.
    assert (id_of run.1 (key n) = node_name (S i)) as <-.
    { unfold run, write_dot_run.
      set (acc0 := (mkIdState ∅ 1, [DotText "digraph {"; DotText ""])).
      pose proof (dot_node_loop_numbers falsy install_constraints all_nodes acc0
                    ids_ok_init Hnd (fun n _ => lookup_empty _) i n Hi) as Hnum.
      destruct (dot_node_loop falsy install_constraints all_nodes acc0 ids_ok_init)
        as (Hok1 & _).
      set (acc1 := foldl (dot_node_step falsy install_constraints) acc0 all_nodes) in *.
      destruct (dot_edges_loop all_nodes (acc1.1, acc1.2 ++ [DotText ""]) Hok1)
        as (_ & Hsub2 & _).
      cbn [fst snd] in *. by apply (id_of_extends acc1.1). }
    apply Hdecl. by eapply list_elem_of_lookup_2.
  - intros Hclosed a b p Hedge. rewrite Hlayout in Hedge.
    apply elem_of_app in Hedge as [Hedge|Hedge];
      [by repeat (apply elem_of_cons in Hedge as [?|Hedge]; [done|]);
          apply elem_of_nil in Hedge|].
    apply elem_of_app in Hedge as [Hedge|Hedge];
      [by apply list_elem_of_fmap in Hedge as (? & [=] & _)|].
    apply elem_of_app in Hedge as [Hedge|Hedge];
      [by apply list_elem_of_singleton in Hedge|].
    apply elem_of_app in Hedge as [Hedge|Hedge];
      [|by apply list_elem_of_singleton in Hedge].
    apply list_elem_of_bind in Hedge as (n & Hedge & Hn).
    apply list_elem_of_fmap in Hedge as (e & [= -> -> ->] & He).
    destruct (Hclosed n e Hn He) as (m & Hm & <-).
    split; eexists; by apply Hdecl.
Qed.

Lemma write_dot_numbers_and_declares_witness :
  NoDup (key <$> get_all_nodes graph_diamond) /\
  let run := write_dot_run (fun _ => false) ∅ (get_all_nodes graph_diamond) in
  (forall i n, get_all_nodes graph_diamond !! i = Some n ->
     DotNode (node_name (S i)) (node_properties (fun _ => false) ∅ n) ∈ run.2) /\
  ((forall n e, n ∈ get_all_nodes graph_diamond -> e ∈ children n ->
      exists m, m ∈ get_all_nodes graph_diamond /\ key m = destination_node e) ->
   forall a b p, DotEdge a b p ∈ run.2 ->
     (exists pa, DotNode a pa ∈ run.2) /\ (exists pb, DotNode b pb ∈ run.2)).
Proof.
  assert (NoDup (key <$> get_all_nodes graph_diamond)) as H
    by (apply (bool_decide_unpack _); vm_compute; reflexivity).
  split; [exact H|].
  exact (write_dot_numbers_and_declares (fun _ => false) ∅
           (get_all_nodes graph_diamond) H).
Defined.

(** The graph of the diamond as [write_dot] prints it. *)
Example write_dot_diamond :
  write_dot (fun _ => false) {["a==1"; "b==1"; "c==1"]} graph_diamond
  = [DotText "digraph {"; DotText "";
     DotNode "node1" ("label=" +:+ dq +:+ dq +:+
                      " style=filled fillcolor=lightgrey color=lightgrey");
     DotNode "node2" ("label=" +:+ dq +:+ "a==1" +:+ dq +:+
                      " style=filled fillcolor=red color=red fontcolor=white");
     DotNode "node3" ("label=" +:+ dq +:+ "b==1" +:+ dq +:+
                      " style=filled fillcolor=red color=red fontcolor=white");
     DotNode "node4" ("label=" +:+ dq +:+ "c==1" +:+ dq +:+
                      " style=filled fillcolor=red color=red fontcolor=white");
     DotText "";
     DotEdge "node1" "node2" ("labeltooltip=" +:+ dq +:+ "a" +:+ dq +:+ " style=dotted");
     DotEdge "node1" "node3" ("labeltooltip=" +:+ dq +:+ "b" +:+ dq +:+ " style=dotted");
     DotEdge "node2" "node4" ("labeltooltip=" +:+ dq +:+ "c" +:+ dq);
     DotEdge "node3" "node4" ("labeltooltip=" +:+ dq +:+ "c" +:+ dq);
     DotText "}"].
Proof. vm_compute. reflexivity. Qed.

Lemma replace_quote_no_quote s :
  double_quote ∉ String.list_ascii_of_string (replace_quote s).
Proof.
  induction s as [|c s IH]; simpl; [by intros ?%elem_of_nil|].
  intros [Hc|Hin]%elem_of_cons; [|done].
  case_bool_decide; [discriminate Hc|done].
Qed.

Lemma replace_quote_id s :
  double_quote ∉ String.list_ascii_of_string s -> replace_quote s = s.
Proof.
  induction s as [|c s IH]; simpl; [done|]. intros Hnot.
  rewrite bool_decide_eq_false_2 by (intros ->; apply Hnot; left).
  rewrite IH; [done|]. intros Hin. apply Hnot. by right.
Qed.

(** X3: the properties of an edge line are the tooltip between two
    double quotes followed by the style; the tooltip itself holds no
    double quote, has the length of the requirement text, and is that
    text unchanged when it has no double quote; the line is dotted
    exactly when the edge is not an install edge. *)
Theorem edge_properties_tooltip (edge : DependencyEdge) :
  exists tooltip,
    edge_properties edge
    = "labeltooltip=" +:+ dq +:+ tooltip +:+ dq +:+
      (if bool_decide (req_type edge = INSTALL) then "" else " style=dotted") /\
    double_quote ∉ String.list_ascii_of_string tooltip /\
    String.length tooltip = String.length (requirement_str (req edge)) /\
    (double_quote ∉ String.list_ascii_of_string (requirement_str (req edge)) ->
     tooltip = requirement_str (req edge)).
Proof.
  exists (replace_quote (requirement_str (req edge))).
  split; [done|]. split; [apply replace_quote_no_quote|]. split.
  - induction (requirement_str (req edge)) as [|c s IH]; simpl; [done|]. by rewrite IH.
  - apply replace_quote_id.
Qed.

(** ** [migrate_graph]: keys, completion and errors *)

Lemma partition_eqeq_app name rest :
  "="%char ∉ String.list_ascii_of_string name ->
  partition_eqeq (name +:+ "==" +:+ rest) = (name, rest).
Proof.
  induction name as [|c name IH]; intros Hnot; [done|].
  assert (c <> "="%char) as Hc by (intros ->; apply Hnot; left).
  assert ("="%char ∉ String.list_ascii_of_string name) as Hnot'
    by (intros Hin; apply Hnot; by right).
  change (String c name +:+ "==" +:+ rest) with (String c (name +:+ "==" +:+ rest)).
  cbn [partition_eqeq]. rewrite (IH Hnot').
  assert (is_eqeq_prefix (String c (name +:+ "==" +:+ rest)) = false) as ->; [|done].
  unfold is_eqeq_prefix. destruct (name +:+ "==" +:+ rest); [done|].
  by rewrite (bool_decide_eq_false_2 (c = "="%char)).
Qed.

(** X4: the key pushed for a child, [name==version], is split back into
    that name and that version when the key is processed, provided the
    name holds no equals sign; the root key is split into an empty name
    and an empty version, which stand for no parent. *)
Theorem partition_child_key (t : LegacyTuple) :
  "="%char ∉ String.list_ascii_of_string (legacy_req_name t) ->
  partition_eqeq (child_key t) = (legacy_req_name t, legacy_req_version t) /\
  partition_eqeq ROOT = ("", "").
Proof.
  intros Hnot. split; [|done]. unfold child_key. by apply partition_eqeq_app.
Qed.

Lemma partition_child_key_witness :
  "="%char ∉ String.list_ascii_of_string (legacy_req_name (mkLegacy "install" "B" "2" "B==2")) /\
  (partition_eqeq (child_key (mkLegacy "install" "B" "2" "B==2")) = ("B", "2") /\
   partition_eqeq ROOT = ("", "")).
Proof.
  assert ("="%char ∉ String.list_ascii_of_string
                       (legacy_req_name (mkLegacy "install" "B" "2" "B==2"))) as H.
  { simpl. intros [[=]|?%elem_of_nil]%elem_of_cons. done. }
  split; [exact H|]. exact (partition_child_key _ H).
Defined.

Section MigrateMore.
Context (P : Parsers) (old_graph : gmap string (list LegacyTuple)).

(** A tuple is migrated without error exactly when its fields parse. *)
Lemma migrate_tuple_parses curr acc t :
  tuple_parses P curr t <-> exists acc', migrate_tuple P curr acc t = inr acc'.
Proof.
  unfold tuple_parses, migrate_tuple, try. destruct acc as [g stk].
  destruct (partition_eqeq curr) as [pn pv]. simpl.
  case_bool_decide as Hpv;
    destruct (parse_version P pv) as [v0|];
    destruct (requirement_type_of_str (legacy_req_type t)) as [rt|];
    destruct (parse_version P (legacy_req_version t)) as [rv|];
    destruct (parse_requirement P (legacy_req t)) as [r|];
    split; try (intros ([?|[? [=]]] & [? [=]] & [? [=]] & [? [=]]); done);
    try (intros [? [=]]; done); try (intros _; eauto);
    try (intros _; repeat split; eauto).
Qed.

Lemma migrate_tuples_parses curr acc ts :
  (forall t, t ∈ ts -> tuple_parses P curr t)
  <-> exists acc', migrate_tuples P curr acc ts = inr acc'.
Proof.
  revert acc. induction ts as [|t ts IH]; intros acc; cbn [migrate_tuples].
  - split; [eauto|]. by intros _ t ?%elem_of_nil.
  - destruct (migrate_tuple P curr acc t) as [e|acc1] eqn:Ht.
    + split; [|by intros [? [=]]]. intros Hall. exfalso.
      destruct (proj1 (migrate_tuple_parses curr acc t) (Hall t (list_elem_of_here _ _)))
        as [acc' Hacc']. congruence.
    + rewrite <- (IH acc1). split.
      * intros Hall t' Ht'. apply Hall. by right.
      * intros Hall t' [->|Ht']%elem_of_cons; [|by apply Hall].
        apply (migrate_tuple_parses curr acc). eauto.
  Qed.

Lemma migrate_progress_init :
  migrate_progress P old_graph (mkMigrate empty_graph [ROOT] ∅ []).
Proof.
  split; [left; simpl; left|]. split; [intros k ts t ?; set_solver|].
  split; [by left|]. by intros k ts t ?%elem_of_nil.
Qed.

Lemma migrate_step_progress st st' :
  migrate_inv old_graph st -> migrate_progress P old_graph st ->
  migrate_step P old_graph st = Some (inr st') ->
  migrate_progress P old_graph st'.
Proof.
  intros (_ & Hpv & _ & _) (Hroot & Hclosed & Hhead & Hparsed). unfold migrate_step.
  destruct (stack st) as [|curr stk] eqn:Hs; [done|].
  case_bool_decide as Hvis.
  - intros [= <-]. simpl. split; [|split; [|split]].
    + destruct Hroot as [[->|?]%elem_of_cons|?]; [by right|by left|by right].
    + intros k ts t Hk Hts Ht.
      destruct (Hclosed k ts t Hk Hts Ht) as [[->|?]%elem_of_cons|?];
        [by right|by left|by right].
    + destruct Hhead as [[Hnil [= -> ->]]|?]; [|by right].
      exfalso. apply Hpv in Hvis. rewrite Hnil in Hvis. by apply elem_of_nil in Hvis.
    + done.
  - destruct (migrate_tuples P curr (graph_of st, stk)
                (default [] (old_graph !! curr))) as [e|[g' stk']] eqn:Hts; [done|].
    intros [= <-]. simpl.
    pose proof (proj2 (migrate_tuples_parses curr _ _) (ex_intro _ _ Hts)) as Hok.
    apply migrate_tuples_stack in Hts. subst stk'.
    split; [|split; [|split]].
    + destruct Hroot as [[->|?]%elem_of_cons|?]; [right|left|right]; set_solver.
    + intros k ts t [->%elem_of_singleton|Hk]%elem_of_union Hks Ht.
      * left. apply elem_of_app. left. apply elem_of_reverse, list_elem_of_fmap.
        exists t. rewrite Hks. done.
      * destruct (Hclosed k ts t Hk Hks Ht) as [[->|?]%elem_of_cons|?].
        -- right. set_solver.
        -- left. apply elem_of_app. by right.
        -- right. set_solver.
    + right. destruct Hhead as [[-> [= -> _]]|Hhd]; [done|].
      destruct (processed st); [done|]. exact Hhd.
    + intros k ts t [Hk| ->%list_elem_of_singleton]%elem_of_app Hks Ht.
      * by eapply Hparsed.
      * apply Hok. by rewrite Hks.
Qed.

Lemma migrate_loop_progress fuel st st' :
  migrate_inv old_graph st -> migrate_progress P old_graph st ->
  migrate_loop fuel P old_graph st = Some (inr st') ->
  migrate_progress P old_graph st'.
Proof.
  revert st. induction fuel as [|fuel IH]; intros st Hinv Hprog; [done|].
  simpl. destruct (migrate_step P old_graph st) as [[e|st1]|] eqn:Hstep.
  - done.
  - apply IH; [by eapply migrate_step_inv|by eapply migrate_step_progress].
  - by intros [= <-].
Qed.

(** When every tuple under a reachable key parses, the loop raises
    nothing. *)
End MigrateMore.

Lemma migrate_progress_reach P old_graph st k :
  migrate_progress P old_graph st -> stack st = [] ->
  reachable old_graph k -> k ∈ visited st.
Proof.
  intros (Hroot & Hclosed & _) Hstk. rewrite Hstk in Hroot, Hclosed.
  induction 1 as [|k ts t _ IH Hts Ht].
  - by destruct Hroot as [?%elem_of_nil|?].
  - by destruct (Hclosed k ts t IH Hts Ht) as [?%elem_of_nil|?].
Qed.

Lemma migrate_processed_reachable P old_graph fuel st :
  migrate_graph fuel P old_graph = Some (inr st) ->
  forall k, k ∈ processed st <-> reachable old_graph k.
Proof.
  intros Hst k.
  destruct (migrate_loop_inv P old_graph _ _ _ (migrate_inv_init old_graph) Hst)
    as [(Hnd & Hpv & _ & Hproc) Hstk].
  pose proof (migrate_loop_progress P old_graph _ _ _ (migrate_inv_init old_graph)
                (migrate_progress_init P old_graph) Hst) as Hprog.
  split; [apply Hproc|]. intros Hk. apply Hpv. by eapply migrate_progress_reach.
Qed.

(** X5: a migration that completes has walked the adjacency lists of
    exactly the keys reachable from the root, and the root first. *)
Theorem migrate_graph_processes_reachable
    (P : Parsers) (old_graph : gmap string (list LegacyTuple)) (fuel : nat)
    (st : MigrateState) :
  migrate_graph fuel P old_graph = Some (inr st) ->
  (forall k, k ∈ processed st <-> reachable old_graph k) /\
  head (processed st) = Some ROOT.
Proof.
  intros Hst. split; [by eapply migrate_processed_reachable|].
  destruct (migrate_loop_inv P old_graph _ _ _ (migrate_inv_init old_graph) Hst)
    as [_ Hstk].
  pose proof (migrate_loop_progress P old_graph _ _ _ (migrate_inv_init old_graph)
                (migrate_progress_init P old_graph) Hst) as Hprog.
  destruct Hprog as (_ & _ & [[_ Hs]|Hhd] & _); [|done]. by rewrite Hstk in Hs.
Qed.

Lemma migrate_graph_processes_reachable_witness :
  exists st,
    migrate_graph 7 release_parsers legacy_chain = Some (inr st) /\
    (forall k, k ∈ processed st <-> reachable legacy_chain k) /\
    head (processed st) = Some ROOT.
Proof.
  destruct (migrate_graph 7 release_parsers legacy_chain) as [[e|st]|] eqn:Hrun;
    [by vm_compute in Hrun| |by vm_compute in Hrun].
  exists st. split; [done|].
  exact (migrate_graph_processes_reachable release_parsers legacy_chain 7 st Hrun).
Defined.

(** ** [explain_duplicates]: the whole report *)

(** The shape of the report of one package. *)
Lemma explain_package_shape dep_name nodes :
  explain_package dep_name nodes
  = if decide (length nodes = 1) then []
    else report_body dep_name nodes ++
         [match first_usable
                  (usable_versions
                     (foldl (explain_node (node_version <$> nodes))
                        (mkDupState [] 0 [DupName dep_name])
                        (sorted node_version_leb nodes)))
                  (user_counter
                     (foldl (explain_node (node_version <$> nodes))
                        (mkDupState [] 0 [DupName dep_name])
                        (sorted node_version_leb nodes)))
          with
          | Some v => DupUsable dep_name v
          | None => DupNoSingle dep_name
          end].
Proof.
  unfold explain_package. rewrite length_fmap.
  destruct (decide (length nodes = 1)); [done|].
  destruct (foldl_explain_node_run (node_version <$> nodes)
              (sorted node_version_leb nodes) (mkDupState [] 0 [DupName dep_name]))
    as (_ & _ & Hp).
  simpl in Hp. by rewrite Hp.
Qed.

Lemma report_body_names dep_name nodes n :
  DupName n ∈ report_body dep_name nodes <-> n = dep_name.
Proof.
  unfold report_body. rewrite elem_of_cons. split; [|intros ->; by left].
  intros [[= ->]|Hin]; [done|]. exfalso.
  apply list_elem_of_bind in Hin as (node & Hin & _).
  apply elem_of_cons in Hin as [[=]|Hin].
  apply list_elem_of_bind in Hin as (group & Hin & _).
  apply elem_of_cons in Hin as [[=]|Hin].
  by apply list_elem_of_fmap in Hin as (? & [=] & _).
Qed.

Lemma explain_package_names dep_name nodes n :
  DupName n ∈ explain_package dep_name nodes <-> n = dep_name /\ length nodes <> 1.
Proof.
  rewrite explain_package_shape. destruct (decide (length nodes = 1)) as [Hlen|Hlen].
  - split; [by intros ?%elem_of_nil|]. by intros [_ ?].
  - rewrite elem_of_app, report_body_names, list_elem_of_singleton. split.
    + intros [->|Heq]; [done|]. by destruct (first_usable _ _).
    + intros [-> _]. by left.
Qed.

Lemma explain_package_verdicts dep_name nodes l :
  l ∈ explain_package dep_name nodes -> is_Some (verdict_line l) ->
  verdict_line l = Some dep_name /\ length nodes <> 1.
Proof.
  rewrite explain_package_shape. destruct (decide (length nodes = 1)) as [Hlen|Hlen];
    [by intros ?%elem_of_nil|].
  intros [Hin| ->%list_elem_of_singleton]%elem_of_app Hv.
  - pose proof (report_body_detail dep_name nodes) as Hd.
    rewrite Forall_forall in Hd. specialize (Hd l Hin).
    destruct l; simpl in *; try done; by destruct Hv.
  - by destruct (first_usable _ _).
Qed.

(** X7: [explain_duplicates] reports a package exactly when [conflicts]
    holds a number of nodes other than one for it: it prints nothing at
    all when every package has a single version, the header line of a
    package appears exactly for the packages with several versions, and
    every verdict line is about such a package. *)
Theorem explain_duplicates_reports_conflicts
    (conflicts : gmap string (list DependencyNode)) :
  ((forall n nodes, conflicts !! n = Some nodes -> length nodes = 1) ->
   explain_duplicates conflicts = []) /\
  (forall n, DupName n ∈ explain_duplicates conflicts <->
             exists nodes, conflicts !! n = Some nodes /\ length nodes <> 1) /\
  (forall l n, l ∈ explain_duplicates conflicts -> verdict_line l = Some n ->
               exists nodes, conflicts !! n = Some nodes /\ length nodes <> 1).
Proof.
  unfold explain_duplicates.
  assert (forall kv, kv ∈ sorted key_leb (map_to_list conflicts) <->
                     conflicts !! kv.1 = Some kv.2) as Hsorted.
  { intros [k nodes]. rewrite (sorted_Permutation key_leb (map_to_list conflicts)).
    apply elem_of_map_to_list. }
  split; [|split].
  - assert (forall l : list (string * list DependencyNode),
              (forall kv, kv ∈ l -> length kv.2 = 1) ->
              mjoin ((fun kv => explain_package kv.1 kv.2) <$> l) = []) as Hnil.
    { induction l as [|[k nodes] l IH]; intros H; [done|].
      rewrite fmap_cons. cbn [mjoin list_join fst snd].
      rewrite explain_package_shape.
      rewrite decide_True by (apply (H (k, nodes)); left).
      apply IH. intros kv Hkv. apply H. by right. }
    intros Hall. apply Hnil. intros [k nodes] Hkv. apply (Hall k).
    by apply (Hsorted (k, nodes)).
  - intros n. rewrite list_elem_of_join. split.
    + intros (out & Hn & Hout). apply list_elem_of_fmap in Hout as ([k nodes] & -> & Hkv).
      apply explain_package_names in Hn as [-> Hlen].
      exists nodes. split; [|done]. by apply (Hsorted (k, nodes)).
    + intros (nodes & Hlook & Hlen). exists (explain_package n nodes). split.
      * by apply explain_package_names.
      * apply list_elem_of_fmap. exists (n, nodes). split; [done|].
        by apply (Hsorted (n, nodes)).
  - intros l n Hl Hv. apply list_elem_of_join in Hl as (out & Hl & Hout).
    apply list_elem_of_fmap in Hout as ([k nodes] & -> & Hkv).
    destruct (explain_package_verdicts k nodes l Hl) as [Hk Hlen]; [by rewrite Hv|].
    rewrite Hv in Hk. injection Hk as ->.
    exists nodes. split; [|done]. by apply (Hsorted (k, nodes)).
Qed.

Lemma users_among_app v a b :
  users_among v (a ++ b) = users_among v a ++ users_among v b.
Proof. unfold users_among. apply bind_app. Qed.

(** The parents one group adds for a version: all of the group when its
    specifier accepts the version, none otherwise. *)
Lemma users_among_group versions group v :
  NoDup (version_str <$> versions) ->
  length (users_among v (acceptances_of versions group))
  = if bool_decide (v ∈ matched versions group) then size group.2 else 0.
Proof.
  intros Hnd. unfold acceptances_of.
  assert (NoDup (matched versions group)) as Hm by (by apply filter_fmap_NoDup).
  induction (matched versions group) as [|mv ms IH]; [done|].
  apply NoDup_cons in Hm as [Hmv Hm]. rewrite fmap_cons.
  change (((mv, elements group.2) :: ((fun mv0 => (mv0, elements group.2)) <$> ms)))
    with ([(mv, elements group.2)] ++ ((fun mv0 => (mv0, elements group.2)) <$> ms)).
  rewrite users_among_app, length_app, (IH Hm).
  unfold users_among at 1. simpl. rewrite app_nil_r.
  destruct (decide (mv = v)) as [->|Hne].
  - rewrite bool_decide_eq_true_2 by done.
    rewrite (bool_decide_eq_false_2 (v ∈ ms)) by done.
    rewrite (bool_decide_eq_true_2 (v ∈ v :: ms)) by left.
    unfold size, set_size. simpl. lia.
  - rewrite bool_decide_eq_false_2 by done. simpl.
    by rewrite (bool_decide_ext (v ∈ mv :: ms) (v ∈ ms)) by set_solver.
Qed.

Lemma accepting_sum versions groups v :
  NoDup (version_str <$> versions) ->
  Forall (fun group : Requirement * gset string => 1 <= size group.2) groups ->
  length (users_among v (groups ≫= acceptances_of versions))
  <= sum_list_with (fun group => size group.2) groups /\
  (length (users_among v (groups ≫= acceptances_of versions))
   = sum_list_with (fun group => size group.2) groups
   <-> forall group, group ∈ groups -> v ∈ matched versions group).
Proof.
  intros Hnd. induction 1 as [|group groups Hsize _ [IHle IHiff]].
  - simpl. split; [done|]. split; [|done]. by intros _ ? ?%elem_of_nil.
  - rewrite bind_cons, users_among_app, length_app, (users_among_group _ _ _ Hnd).
    cbn [sum_list_with]. case_bool_decide as Hacc.
    + split; [lia|]. split.
      * intros Heq group' [->|Hin]%elem_of_cons; [done|]. apply IHiff; [lia|done].
      * intros Hall. assert (length (users_among v (groups ≫= acceptances_of versions))
                             = sum_list_with (fun group => size group.2) groups) as ->
          by (apply IHiff; intros g Hg; apply Hall; by right).
        done.
    + split; [lia|]. split; [lia|].
      intros Hall. exfalso. apply Hacc, Hall. left.
Qed.

Lemma last_snoc_Some {A} (l : list A) (x : A) : last (l ++ [x]) = Some x.
Proof. induction l as [|y l IH]; [done|]. simpl. by destruct (l ++ [x]). Qed.

(** X8: when the nodes of a package have pairwise distinct version
    strings, the report ends with the verdict that a version is usable
    by all consumers only for a version that the specifier of every
    requirement group of the package accepts; such a verdict is printed
    exactly when the package has a requirement group and some version is
    accepted by all the groups, and the verdict is that no single
    version meets all requirements exactly when that is not so. *)
Theorem usable_means_every_group_accepts
    (dep_name : string) (nodes : list DependencyNode) :
  length nodes <> 1 ->
  NoDup (version_str <$> (node_version <$> nodes)) ->
  let accepted_by_all v :=
    forall group, group ∈ all_groups nodes ->
                  v ∈ matched (node_version <$> nodes) group in
  (forall v, last (explain_package dep_name nodes) = Some (DupUsable dep_name v) ->
             accepted_by_all v) /\
  ((exists v, last (explain_package dep_name nodes) = Some (DupUsable dep_name v))
   <-> all_groups nodes <> [] /\ exists v, accepted_by_all v) /\
  (last (explain_package dep_name nodes) = Some (DupNoSingle dep_name)
   <-> ~ (all_groups nodes <> [] /\ exists v, accepted_by_all v)).
Proof.
  intros Hlen Hnd accepted_by_all.
  assert (forall v,
            length (accepting_parents nodes v) = total_consumers nodes
            <-> accepted_by_all v) as Hiff.
  { intros v. apply accepting_sum; [done|].
    unfold all_groups. apply Forall_bind, Forall_true. intros node.
    apply requirement_groups_nonempty. }
  assert (forall v, all_groups nodes <> [] -> accepted_by_all v -> candidate nodes v)
    as Hcand.
  { intros v Hne Hall. destruct (all_groups nodes) as [|group groups] eqn:Hg; [done|].
    assert (v ∈ matched (node_version <$> nodes) group) as Hv
      by (apply Hall; rewrite ?Hg; left).
    unfold candidate, acceptances. rewrite Hg, bind_cons, fmap_app.
    apply elem_of_app. left. unfold acceptances_of.
    apply list_elem_of_fmap. exists (v, elements group.2). split; [done|].
    apply list_elem_of_fmap. by exists v. }
  assert (forall v, candidate nodes v -> all_groups nodes <> []) as Hgroups.
  { intros v Hv Hnil. unfold candidate, acceptances in Hv. rewrite Hnil in Hv.
    by apply elem_of_nil in Hv. }
  destruct (explain_package_verdict_of dep_name nodes Hlen)
    as (verdict & -> & [(v0 & -> & Hc0 & Hl0)|[-> Hnone]]);
    rewrite last_snoc_Some.
  - split; [|split].
    + intros v [= <-]. by apply Hiff.
    + split; [|by eauto]. intros _. split; [by eapply Hgroups|].
      exists v0. by apply Hiff.
    + split; [done|]. intros Hnot. exfalso. apply Hnot.
      split; [by eapply Hgroups|]. exists v0. by apply Hiff.
  - split; [|split].
    + by intros v [=].
    + split; [by intros [v [=]]|]. intros [Hne [v Hall]]. exfalso.
      apply (Hnone v); [by apply Hcand|by apply Hiff].
    + split; [|done]. intros _ [Hne [v Hall]].
      apply (Hnone v); [by apply Hcand|by apply Hiff].
Qed.

Lemma usable_means_every_group_accepts_witness :
  length (get_nodes_by_name graph_range "x") <> 1 /\
  NoDup (version_str <$> (node_version <$> get_nodes_by_name graph_range "x")) /\
  last (explain_package "x" (get_nodes_by_name graph_range "x"))
  = Some (DupUsable "x" "1.5") /\
  forall group, group ∈ all_groups (get_nodes_by_name graph_range "x") ->
                "1.5" ∈ matched (node_version <$> get_nodes_by_name graph_range "x")
                          group.
Proof.
  assert (length (get_nodes_by_name graph_range "x") <> 1) as Hlen
    by (vm_compute; lia).
  assert (NoDup (version_str <$> (node_version <$> get_nodes_by_name graph_range "x")))
    as Hnd.
  { vm_compute. repeat constructor; intros Hin;
      repeat (apply elem_of_cons in Hin as [[=]|Hin]); by apply elem_of_nil in Hin. }
  assert (last (explain_package "x" (get_nodes_by_name graph_range "x"))
          = Some (DupUsable "x" "1.5")) as Hlast by (vm_compute; reflexivity).
  split; [exact Hlen|]. split; [exact Hnd|]. split; [exact Hlast|].
  exact (proj1 (usable_means_every_group_accepts "x" _ Hlen Hnd) "1.5" Hlast).
Defined.

(** ** [why] and [find_why]: the default depth and cycles *)

Lemma find_why_zero fuel graph node depth filter :
  find_why (S fuel) graph node 0 depth filter = Some (direct_report node depth filter).
Proof.
  cbn [find_why]. rewrite find_why_loop_direct by done.
  unfold direct_report. by rewrite no_match_condition.
Qed.

(** X9: with the default depth 0 the command [why] always ends, on
    cyclic graphs too, and prints for every matching node, in the order
    of the graph, its key followed by the report on its direct parents
    at depth 1. *)
Theorem why_default_depth
    (fuel : nat) (graph : DependencyGraph) (package_name : string)
    (versions : list Version) (requirement_type : list RequirementType) :
  why (S fuel) graph package_name versions 0 requirement_type
  = Some (why_nodes graph package_name versions ≫= fun node =>
            WhyNode (key node) :: direct_report node 1 requirement_type).
Proof.
  unfold why. induction (why_nodes graph package_name versions) as [|node l IH];
    [done|].
  cbn [why_loop]. rewrite find_why_zero. cbn [mbind option_bind].
  rewrite IH. cbn [mbind option_bind]. by rewrite bind_cons.
Qed.

(** X10: with [max_depth = -1] and no filter, [find_why] never returns
    on a node of a set of nodes each of which has a parent, other than
    the root, in the set: on a dependency cycle the recursion has no
    end. *)
Theorem find_why_unlimited_diverges
    (graph : DependencyGraph) (cyclic : DependencyNode -> Prop)
    (node : DependencyNode) (fuel : nat) (depth : Z) :
  (forall n, cyclic n ->
     exists e p, e ∈ parents n /\ is_root_edge e = false /\
                 nodes graph !! destination_node e = Some p /\ cyclic p) ->
  cyclic node ->
  find_why fuel graph node (-1) depth [] = None.
Proof.
  intros Hcyclic. revert node depth.
  induction fuel as [|fuel IH]; intros node depth Hnode; [done|].
  destruct (find_why (S fuel) graph node (-1) depth []) as [out|] eqn:Hout; [|done].
  exfalso. cbn [find_why] in Hout.
  destruct (Hcyclic node Hnode) as (e & p & He & Hroot & Hp & Hcp).
  destruct (find_why_loop_Some_rec _ _ _ _ _ _ _ _ _ e Hout He) as [sub Hsub];
    [by unfold kept; rewrite Hroot|done|done|].
  rewrite Hp in Hsub. simpl in Hsub. by rewrite (IH p _ Hcp) in Hsub.
Qed.

Lemma find_why_unlimited_diverges_witness :
  find_why 50 graph_cycle (node_at graph_cycle "a==1") (-1) 1 [] = None.
Proof.
  apply (find_why_unlimited_diverges graph_cycle
           (fun n => n = node_at graph_cycle "a==1" \/ n = node_at graph_cycle "b==2")).
  - intros n [-> | ->].
    + exists (mkEdge (mkRequirement "a" []) INSTALL "b==2"), (node_at graph_cycle "b==2").
      split; [vm_compute; right; left|]. split; [reflexivity|].
      split; [vm_compute; reflexivity|by right].
    + exists (mkEdge (mkRequirement "b" []) INSTALL "a==1"), (node_at graph_cycle "a==1").
      split; [vm_compute; left|]. split; [reflexivity|].
      split; [vm_compute; reflexivity|by left].
  - by left.
Defined.

(** ** The Makefile export: well-formedness and cycles *)

(** X11: the rules [to_makefile] prints form a complete Makefile: the
    first rule is that of the target [all], no target has two rules, and
    every name in a dependency list is the target of a rule. *)
Theorem to_makefile_well_formed
    (fuel : nat) (graph : DependencyGraph) (wheel_server_url sdist_server_url : string)
    (header : string) (rules : list Rule) :
  to_makefile fuel graph wheel_server_url sdist_server_url = Some (header, rules) ->
  header = makefile_header wheel_server_url sdist_server_url /\
  rule_target <$> head rules = Some "all" /\
  NoDup (rule_target <$> rules) /\
  (forall r t, r ∈ rules -> t ∈ rule_dependencies r ->
     exists r', r' ∈ rules /\ rule_target r' = t).
Proof.
  unfold to_makefile.
  destruct (makefile_top fuel graph) as [top|] eqn:Htop; [|done]. simpl.
  intros [= <- <-]. split; [done|].
  assert (target_name top = "all") as Hall.
  { unfold makefile_top in Htop. destruct (get_root_node graph); [|done]. simpl in Htop.
    destruct (mapM _ _); [|done]. simpl in Htop. by injection Htop as <-. }
  destruct (format_ok top ∅) as (Hs & Hnd & _ & Hrule & _).
  split; [|split; [done|]].
  - rewrite format_unfold, Hall. rewrite bool_decide_eq_false_2 by set_solver.
    destruct (format_all _ _). simpl. by rewrite Hall.
  - intros r t Hr Ht.
    destruct (Hrule r Hr) as (root & n & _ & _ & -> & Hdeps).
    apply (proj2 (dependency_names_spec (dependencies n))) in Ht as (d & Hd & <-).
    specialize (Hdeps d Hd). apply Hs in Hdeps as [?|Hin]; [set_solver|].
    apply list_elem_of_fmap in Hin as (r' & Heq & Hr'). by exists r'.
Qed.

Lemma to_makefile_well_formed_witness :
  exists header rules,
    to_makefile 3 graph_diamond "" "http://sdists" = Some (header, rules) /\
    header = makefile_header "" "http://sdists" /\
    rule_target <$> head rules = Some "all" /\
    NoDup (rule_target <$> rules) /\
    (forall r t, r ∈ rules -> t ∈ rule_dependencies r ->
       exists r', r' ∈ rules /\ rule_target r' = t).
Proof.
  destruct (to_makefile 3 graph_diamond "" "http://sdists") as [[header rules]|] eqn:Hrun;
    [|by vm_compute in Hrun].
  exists header, rules. split; [done|].
  exact (to_makefile_well_formed 3 graph_diamond "" "http://sdists" header rules Hrun).
Defined.

(** X12: [from_graph_node] never returns on a node of a set of nodes
    each of which has a child in the set, and [to_makefile] never returns
    when a toplevel requirement leads to such a node: on a dependency
    cycle the conversion recurses without end. *)
Theorem from_graph_node_diverges
    (graph : DependencyGraph) (cyclic : DependencyNode -> Prop) (fuel : nat) :
  (forall n, cyclic n ->
     exists e c, e ∈ children n /\
                 nodes graph !! destination_node e = Some c /\ cyclic c) ->
  (forall node, cyclic node -> from_graph_node fuel graph node = None) /\
  (forall root e c wheel_server_url sdist_server_url,
     get_root_node graph = Some root -> e ∈ children root ->
     nodes graph !! destination_node e = Some c -> cyclic c ->
     to_makefile fuel graph wheel_server_url sdist_server_url = None).
Proof.
  intros Hcyclic.
  assert (forall fuel node, cyclic node -> from_graph_node fuel graph node = None) as Hnone.
  { clear fuel. induction fuel as [|fuel IH]; intros node Hnode; [done|].
    cbn [from_graph_node].
    destruct (mapM (convert_child (from_graph_node fuel graph) graph) (children node))
      as [converted|] eqn:Hmap; [|done].
    exfalso. destruct (Hcyclic node Hnode) as (e & c & He & Hc & Hcc).
    assert (is_Some (mapM (convert_child (from_graph_node fuel graph) graph)
                       (children node))) as Hsome by eauto.
    apply mapM_is_Some in Hsome. rewrite Forall_forall in Hsome.
    destruct (Hsome e He) as [x Hx]. unfold convert_child in Hx. simpl in Hx.
    rewrite Hc in Hx. simpl in Hx. by rewrite (IH c Hcc) in Hx. }
  split; [apply Hnone|].
  intros root e c w s Hroot He Hc Hcc. unfold to_makefile, makefile_top.
  rewrite Hroot. simpl.
  destruct (mapM _ (children root)) as [tops|] eqn:Hmap; [|done].
  exfalso. assert (is_Some (mapM (fun edge => nodes graph !! destination_node edge ≫=
                                    fun child_node => from_graph_node fuel graph child_node)
                              (children root))) as Hsome by eauto.
  apply mapM_is_Some in Hsome. rewrite Forall_forall in Hsome.
  destruct (Hsome e He) as [x Hx]. simpl in Hx. rewrite Hc in Hx. simpl in Hx.
  by rewrite (Hnone fuel c Hcc) in Hx.
Qed.

Lemma from_graph_node_diverges_witness :
  from_graph_node 50 graph_cycle (node_at graph_cycle "a==1") = None /\
  to_makefile 50 graph_cycle "" "http://sdists" = None.
Proof.
  assert (forall n,
            n = node_at graph_cycle "a==1" \/ n = node_at graph_cycle "b==2" ->
            exists e c, e ∈ children n /\
                        nodes graph_cycle !! destination_node e = Some c /\
                        (c = node_at graph_cycle "a==1" \/ c = node_at graph_cycle "b==2"))
    as Hcyclic.
  { intros n [-> | ->].
    - exists (mkEdge (mkRequirement "b" []) INSTALL "b==2"), (node_at graph_cycle "b==2").
      split; [vm_compute; left|]. split; [vm_compute; reflexivity|by right].
    - exists (mkEdge (mkRequirement "a" []) INSTALL "a==1"), (node_at graph_cycle "a==1").
      split; [vm_compute; left|]. split; [vm_compute; reflexivity|by left]. }
  destruct (from_graph_node_diverges graph_cycle _ 50 Hcyclic) as [Hnode Hmake].
  split; [apply Hnode; by left|].
  apply (Hmake (node_at graph_cycle "")
           (mkEdge (mkRequirement "a" []) TOP_LEVEL "a==1")
           (node_at graph_cycle "a==1")).
  - vm_compute. reflexivity.
  - vm_compute. left.
  - vm_compute. reflexivity.
  - by left.
Defined.

(** X13: the report of a package with several nodes lists the version of
    every node once, in ascending version order (nodes with equal
    versions in their original order): the version lines are the
    versions of the sorted nodes, which are ascending and are the nodes
    given, rearranged. *)
Theorem explain_package_versions_ascending
    (dep_name : string) (nodes : list DependencyNode) :
  length nodes <> 1 ->
  omap version_line (explain_package dep_name nodes)
  = version <$> sorted node_version_leb nodes /\
  Sorted (fun a b => version_leb (node_version a) (node_version b) = true)
    (sorted node_version_leb nodes) /\
  sorted node_version_leb nodes ≡ₚ nodes.
Proof.
  intros Hlen. split; [|split].
  - rewrite explain_package_shape, decide_False by done.
    rewrite omap_app. unfold report_body.
    replace (DupName dep_name
               :: sorted node_version_leb nodes ≫= node_lines (node_version <$> nodes))
      with ([DupName dep_name]
              ++ sorted node_version_leb nodes ≫= node_lines (node_version <$> nodes))
      by done.
    rewrite omap_app, node_lines_versions.
    by destruct (first_usable _ _); simpl; rewrite app_nil_r.
  - apply (sorted_Sorted node_version_leb). intros x y. apply version_leb_total.
  - apply sorted_Permutation.
Qed.

Lemma explain_package_versions_ascending_witness :
  length (get_nodes_by_name graph_range "x") <> 1 /\
  omap version_line (explain_package "x" (get_nodes_by_name graph_range "x"))
  = [Some [1; 5]; Some [2; 0]].
Proof.
  assert (length (get_nodes_by_name graph_range "x") <> 1) as H by (vm_compute; lia).
  split; [exact H|].
  rewrite (proj1 (explain_package_versions_ascending "x" _ H)).
  vm_compute. reflexivity.
Defined.

(** ** mirror_builder: archive and source tree lookup *)

Lemma lower_name_char (c : ascii) :
  (is_kept c || is_hyphen c) = true -> is_separator c = false ->
  is_hyphen (lower c) = false /\
  (is_lower_letter (lower c) || is_digit (lower c)) = true.
Proof.
  destruct c as [[] [] [] [] [] [] [] []]; vm_compute; intros; done.
Qed.

Lemma low_dig_kept (c : ascii) :
  (is_lower_letter c || is_digit c) = true -> is_kept c = true.
Proof.
  unfold is_kept. intros [H|H]%orb_true_iff; rewrite H.
  - by rewrite orb_true_r.
  - by rewrite !orb_true_r.
Qed.

Lemma hyphen_not_kept (c : ascii) : is_hyphen c = true -> is_kept c = false.
Proof.
  unfold is_hyphen. intros H%Nat.eqb_eq.
  rewrite <- (ascii_nat_embedding c), H. reflexivity.
Qed.

Lemma canonicalize_go_canonical (b : bool) (s : string) :
  valid_name s = true -> canonical_text b (canonicalize_go b s).
Proof.
  revert b. induction s as [|c s IH]; intros b Hv; [done|].
  unfold valid_name in Hv. cbn [string_forall] in Hv.
  apply andb_true_iff in Hv as [Hc Hs].
  cbn [canonicalize_go]. destruct (is_separator c) eqn:Hsep.
  - destruct b; [by apply IH|].
    cbn [canonical_text]. change (is_hyphen "-") with true. cbn.
    split; [done|by apply IH].
  - destruct (lower_name_char c Hc Hsep) as [Hh Hl].
    cbn [canonical_text]. rewrite Hh. split; [done|by apply IH].
Qed.

Lemma underscore_first_zero (s : string) : underscore_first 0 s = s.
Proof.
  induction s as [|c s IH]; [done|].
  cbn [underscore_first]. destruct (is_hyphen c); [done|by rewrite IH].
Qed.

Lemma sub_runs_canonical (n : nat) (b : bool) (s : string) :
  canonical_text b s -> sub_runs (Some n) b s = underscore_first n s.
Proof.
  revert n b. induction s as [|c s IH]; intros n b Hc; [done|].
  cbn [canonical_text] in Hc. cbn [sub_runs underscore_first].
  destruct (is_hyphen c) eqn:Hh.
  - destruct Hc as [-> Hc]. rewrite (hyphen_not_kept c Hh).
    destruct n as [|n]; [done|]. by rewrite (IH n true).
  - destruct Hc as [Hl Hc]. rewrite (low_dig_kept c Hl). by rewrite (IH n false).
Qed.

Lemma underscore_first_clean (n : nat) (b : bool) (s : string) :
  canonical_text b s ->
  string_forall (fun c => is_lower_letter c || is_digit c || is_underscore c)
    (underscore_first n s) = true
  <-> hyphens s <= n.
Proof.
  revert n b. induction s as [|c s IH]; intros n b Hc.
  - cbn. split; [lia|done].
  - cbn [canonical_text] in Hc. cbn [underscore_first hyphens].
    destruct (is_hyphen c) eqn:Hh.
    + destruct Hc as [_ Hc]. destruct n as [|n].
      * cbn [string_forall].
        assert ((is_lower_letter c || is_digit c || is_underscore c) = false) as ->.
        { apply Nat.eqb_eq in Hh. rewrite <- (ascii_nat_embedding c), Hh. reflexivity. }
        split; [done|lia].
      * cbn [string_forall]. change (is_lower_letter "_" || is_digit "_" || is_underscore "_") with true.
        rewrite andb_true_l, (IH n true Hc). lia.
    + destruct Hc as [Hl Hc]. cbn [string_forall]. rewrite Hl.
      rewrite orb_true_l, andb_true_l, (IH n false Hc). lia.
Qed.

Lemma underscore_first_length (n : nat) (s : string) :
  String.length (underscore_first n s) = String.length s.
Proof.
  revert n. induction s as [|c s IH]; intros n; [done|].
  cbn [underscore_first]. destruct (is_hyphen c); [destruct n|]; cbn; by rewrite ?IH.
Qed.

(** X14: for a distribution name made of letters, digits, hyphens,
    underscores and dots, [_dist_name_to_filename] is the canonical name
    with its first 32 hyphens turned into underscores and nothing else
    changed: the flag passed to [re.sub] acts as a count.  The result
    consists of lower-case letters, digits and underscores only exactly
    when the canonical name has at most 32 hyphens. *)
Theorem dist_name_to_filename_first_32 (dist_name : string) :
  valid_name dist_name = true ->
  _dist_name_to_filename dist_name
  = underscore_first 32 (canonicalize_name dist_name) /\
  String.length (_dist_name_to_filename dist_name)
  = String.length (canonicalize_name dist_name) /\
  (string_forall (fun c => is_lower_letter c || is_digit c || is_underscore c)
     (_dist_name_to_filename dist_name) = true
   <-> hyphens (canonicalize_name dist_name) <= 32).
Proof.
  intros Hv.
  pose proof (canonicalize_go_canonical false dist_name Hv) as Hc.
  fold (canonicalize_name dist_name) in Hc.
  assert (_dist_name_to_filename dist_name
          = underscore_first 32 (canonicalize_name dist_name)) as Heq.
  { unfold _dist_name_to_filename, re_sub, re_UNICODE.
    by apply sub_runs_canonical. }
  rewrite Heq. split; [done|]. split.
  - apply underscore_first_length.
  - by apply (underscore_first_clean 32 false).
Qed.

Lemma dist_name_to_filename_first_32_witness :
  valid_name "Oslo.Messaging-ext" = true /\
  _dist_name_to_filename "Oslo.Messaging-ext" = "oslo_messaging_ext".
Proof.
  assert (valid_name "Oslo.Messaging-ext" = true) as H by reflexivity.
  split; [exact H|].
  rewrite (proj1 (dist_name_to_filename_first_32 _ H)). reflexivity.
Defined.

Lemma matches_base_spec (filename : string) (candidate_bases : list string) :
  matches_base filename candidate_bases = true
  <-> is_candidate candidate_bases filename.
Proof.
  unfold is_candidate. induction candidate_bases as [|base rest IH].
  - cbn. split; [done|]. by intros ?%elem_of_nil.
  - cbn [matches_base]. rewrite fmap_cons, elem_of_cons.
    destruct (decide (str_lower filename = str_lower base)) as [He|Hne].
    + split; [by left|done].
    + rewrite IH. split; [by right|]. by intros [?|?].
Qed.

Lemma find_entry_Some (entries candidate_bases : list string) (filename : string) :
  find_entry entries candidate_bases = Some filename
  <-> exists before after,
        entries = before ++ filename :: after /\
        (forall e, e ∈ before -> ~ is_candidate candidate_bases e) /\
        is_candidate candidate_bases filename.
Proof.
  induction entries as [|e rest IH].
  - cbn. split; [done|]. intros (before & after & He & _). by destruct before.
  - cbn [find_entry]. destruct (matches_base e candidate_bases) eqn:Hm.
    + apply matches_base_spec in Hm. split.
      * intros [= <-]. exists [], rest. split; [done|]. split; [|done].
        by intros ? ?%elem_of_nil.
      * intros (before & after & He & Hb & Hf). destruct before as [|b before].
        -- injection He as He1 _. by rewrite He1.
        -- injection He as He1 _. exfalso. apply (Hb b); [left|by rewrite <- He1].
    + assert (~ is_candidate candidate_bases e) as Hn.
      { intros H%matches_base_spec. congruence. }
      rewrite IH. split.
      * intros (before & after & -> & Hb & Hf). exists (e :: before), after.
        split; [done|]. split; [|done].
        intros x [->|Hx]%elem_of_cons; [done|by apply Hb].
      * intros (before & after & He & Hb & Hf). destruct before as [|b before].
        -- injection He as He1 _. exfalso. apply Hn. by rewrite He1.
        -- injection He as He1 He2. exists before, after. split; [done|].
           split; [|done]. intros x Hx. apply Hb. by right.
Qed.

Lemma find_entry_None (entries candidate_bases : list string) :
  find_entry entries candidate_bases = None
  <-> forall e, e ∈ entries -> ~ is_candidate candidate_bases e.
Proof.
  induction entries as [|e rest IH].
  - cbn. split; [|done]. by intros _ ? ?%elem_of_nil.
  - cbn [find_entry]. destruct (matches_base e candidate_bases) eqn:Hm.
    + apply matches_base_spec in Hm. split; [done|].
      intros H. exfalso. apply (H e); [left|done].
    + assert (~ is_candidate candidate_bases e) as Hn.
      { intros H%matches_base_spec. congruence. }
      rewrite IH. split.
      * intros H x [->|Hx]%elem_of_cons; [done|by apply H].
      * intros H x Hx. apply H. by right.
Qed.

(** X15: without an override, [_find_sdist] returns the first entry of
    the downloads directory, in the order the directory is listed, whose
    name equals one of the three candidate names when case is ignored:
    which candidate it is plays no part.  It raises exactly when no
    entry is such a name, and the error then names the three candidates
    inside the downloads directory and the archives found there. *)
Theorem find_sdist_first_match (exists_ : Path -> bool)
    (entries archives : list string) (sdists_repo : Path)
    (req_name dist_version : string) :
  let downloads_dir := path_join sdists_repo "downloads" in
  let candidate_bases := sdist_candidates req_name dist_version in
  let result :=
    _find_sdist None exists_ entries archives sdists_repo req_name dist_version in
  (forall p, result = inr p <->
     exists before filename after,
       entries = before ++ filename :: after /\
       (forall e, e ∈ before -> ~ is_candidate candidate_bases e) /\
       is_candidate candidate_bases filename /\
       p = path_join downloads_dir filename) /\
  (forall err, result = inl err <->
     (forall e, e ∈ entries -> ~ is_candidate candidate_bases e) /\
     err = CannotFind req_name dist_version
             (path_join downloads_dir <$> candidate_bases)
             (path_join downloads_dir <$> archives)).
Proof.
  intros downloads_dir candidate_bases result. subst result.
  unfold _find_sdist. fold downloads_dir. fold candidate_bases.
  destruct (find_entry entries candidate_bases) as [filename|] eqn:Hf.
  - split.
    + intros p. split.
      * intros [= <-]. apply find_entry_Some in Hf as (before & after & ? & ? & ?).
        by exists before, filename, after.
      * intros (before & f & after & He & Hb & Hc & ->).
        assert (find_entry entries candidate_bases = Some f) as Hf'.
        { apply find_entry_Some. by exists before, after. }
        congruence.
    + intros err. split; [done|]. intros [Hn _].
      apply find_entry_None in Hn. congruence.
  - split.
    + intros p. split; [done|]. intros (before & f & after & He & Hb & Hc & ->).
      assert (find_entry entries candidate_bases = Some f) as Hf'.
      { apply find_entry_Some. by exists before, after. }
      congruence.
    + intros err. split.
      * intros [= <-]. split; [by apply find_entry_None|done].
      * by intros [_ ->].
Qed.

Lemma substring_prefix (k : nat) (s : string) :
  exists tail, s = String.substring 0 k s +:+ tail /\
               String.length tail = String.length s - k.
Proof.
  revert k. induction s as [|c s IH]; intros k.
  - exists EmptyString. by destruct k.
  - destruct k as [|k].
    + exists (String c s). done.
    + destruct (IH k) as (tail & Hs & Hl). exists tail. split.
      * change (String c s = String c (String.substring 0 k s +:+ tail)).
        congruence.
      * cbn. exact Hl.
Qed.

Lemma string_length_app (s t : string) :
  String.length (s +:+ t) = String.length s + String.length t.
Proof.
  induction s as [|c s IH]; [done|].
  change (S (String.length (s +:+ t)) = S (String.length s + String.length t)).
  by rewrite IH.
Qed.

Lemma substring_app_length (s t : string) :
  String.substring 0 (String.length s) (s +:+ t) = s.
Proof.
  induction s as [|c s IH].
  - by destruct t.
  - change (String c (String.substring 0 (String.length s) (s +:+ t)) = String c s).
    by rewrite IH.
Qed.

Lemma strip_tar_gz_spec (s : string) :
  (exists tail, s = strip_tar_gz s +:+ tail /\
                String.length tail = String.length s `min` 7) /\
  (forall stem, s = stem +:+ ".tar.gz" -> strip_tar_gz s = stem).
Proof.
  split.
  - destruct (substring_prefix (String.length s - String.length ".tar.gz") s)
      as (tail & Hs & Hl).
    exists tail. split; [done|]. rewrite Hl. cbn. lia.
  - intros stem ->. unfold strip_tar_gz. rewrite string_length_app.
    replace (String.length stem + String.length ".tar.gz" - String.length ".tar.gz")
      with (String.length stem) by lia.
    apply substring_app_length.
Qed.

(** X16: a path returned by [_find_source_dir] is a directory of the
    work directory followed by a directory of the same name inside it.
    Without an override that name is the first entry of the work
    directory that equals a candidate when case is ignored.  With an
    override the returned path exists and the name is the override's
    archive name without its last seven characters, whatever they are:
    the stem when the name ends in .tar.gz. *)
Theorem find_source_dir_result (override : option string) (exists_ : Path -> bool)
    (entries : list string) (work_dir : Path) (req_name dist_version : string)
    (p : Path) :
  _find_source_dir override exists_ entries work_dir req_name dist_version = inr p ->
  exists d,
    p = path_join (path_join work_dir d) d /\
    match override with
    | None =>
        exists before after,
          entries = before ++ d :: after /\
          (forall e, e ∈ before ->
             ~ is_candidate (source_dir_candidates req_name dist_version) e) /\
          is_candidate (source_dir_candidates req_name dist_version) d
    | Some sdist_name =>
        exists_ p = true /\
        (exists tail, sdist_name = d +:+ tail /\
                      String.length tail = String.length sdist_name `min` 7) /\
        (forall stem, sdist_name = stem +:+ ".tar.gz" -> d = stem)
    end.
Proof.
  unfold _find_source_dir. destruct override as [sdist_name|].
  - destruct (exists_ _) eqn:He; [|done]. intros [= <-].
    exists (strip_tar_gz sdist_name). split; [done|]. split; [done|].
    apply strip_tar_gz_spec.
  - destruct (find_entry _ _) as [d|] eqn:Hf; [|done]. intros [= <-].
    exists d. split; [done|]. by apply find_entry_Some.
Qed.

Lemma find_source_dir_result_witness :
  _find_source_dir None (fun _ => false) ["notes"; "Oslo.Messaging-14.7.0"]
    ["work"] "oslo.messaging" "14.7.0"
  = inr ["work"; "Oslo.Messaging-14.7.0"; "Oslo.Messaging-14.7.0"] /\
  exists d, ["work"; "Oslo.Messaging-14.7.0"; "Oslo.Messaging-14.7.0"]
            = path_join (path_join ["work"] d) d.
Proof.
  assert (_find_source_dir None (fun _ => false) ["notes"; "Oslo.Messaging-14.7.0"]
            ["work"] "oslo.messaging" "14.7.0"
          = inr ["work"; "Oslo.Messaging-14.7.0"; "Oslo.Messaging-14.7.0"]) as H
    by reflexivity.
  split; [exact H|].
  destruct (find_source_dir_result _ _ _ _ _ _ _ H) as (d & Hd & _).
  by exists d.
Defined.
